(** * car_sim: a multi-lane cellular-automaton traffic simulator

    Shallow embedding of [car_sim.py] (classes [Car], [Lane], [Road] and the
    function [ahead_behind]) and the properties of its update rules.

    The Python program mutates [Car] objects that are shared between the
    [cars] lists of several lanes, draws from the global [random] module and
    can raise exceptions.  The embedding keeps all three: car objects live in
    a store addressed by references, the lanes hold lists of references, the
    random module is a tape of draws with a cursor, and every method is a
    computation in a state-and-exception monad. *)

From Stdlib Require Import ZArith QArith Qround Lia.
From stdpp Require Import base list sorting.

Local Open Scope Z_scope.

(** ** Python exceptions raised by the modelled code *)

Inductive exn : Type :=
  | ZeroDivisionError   (* [a % 0] *)
  | IndexError          (* list index or [pop] out of range *)
  | AttributeError      (* attribute access on [None] *)
  | ValueError          (* [random.randint] on an empty range, a bad shape *)
  | OverflowError.      (* an integer too large for a float *)

Inductive result (A : Type) : Type :=
  | Ok (a : A)
  | Raise (e : exn).
Arguments Ok {A} a.
Arguments Raise {A} e.

(** ** Objects *)

(** A reference to a [Car] object. *)
Definition ref := nat.

(** [class Car]: [posn], [vel], [crash_timer]. *)
Record Car : Type := mkCar {
  posn : Z;
  vel : Z;
  crash_timer : Z
}.

(** [class Lane]: [length], [num_cars] and the list [cars] of car objects.
    (The field [length] is called [lane_length] here.) *)
Record Lane : Type := mkLane {
  lane_length : Z;
  num_cars : Z;
  cars : list ref
}.

(** [class Road]: [num_lanes], [length], [cars_per_lane], [lanes].  A [Lane]
    object is referred to by its index in [lanes]. *)
Record Road : Type := mkRoad {
  num_lanes : Z;
  road_length : Z;
  cars_per_lane : Z;
  lanes : list Lane
}.

(** The whole program state: the store of car objects, the road [r] of the
    script, and the state of the [random] module (a tape of the values that
    successive calls of [random.random()] would return, and how many have
    been consumed). *)
Record World : Type := mkWorld {
  heap : ref -> Car;
  road : Road;
  tape : nat -> Q;
  cursor : nat
}.

(** ** The monad of methods: state and exceptions *)

Definition M (A : Type) : Type := World -> result (A * World).

#[global] Instance M_ret : MRet M := fun A a w => Ok (a, w).

#[global] Instance M_bind : MBind M := fun A B k m w =>
  match m w with
  | Ok (a, w') => k a w'
  | Raise e => Raise e
  end.

Definition raise {A} (e : exn) : M A := fun _ => Raise e.

Definition lift {A} (r : result A) : M A :=
  fun w => match r with Ok a => Ok (a, w) | Raise e => Raise e end.

(** [for x in l: body x] *)
Fixpoint for_each {A} (l : list A) (body : A -> M unit) : M unit :=
  match l with
  | [] => mret tt
  | x :: l' => body x ;; for_each l' body
  end.

(** [enumerate(l)] *)
Definition enumerate {A} (l : list A) : list (nat * A) :=
  zip (seq 0 (length l)) l.

(** ** Python primitives *)

(** [a % b] on integers: the sign of the result follows [b], as for
    [Z.modulo]; a zero divisor raises. *)
Definition py_mod (a b : Z) : result Z :=
  if b =? 0 then Raise ZeroDivisionError else Ok (a mod b).

(** Resolution of a list index [k] against a list of [n] elements: negative
    indices count from the end, anything out of range raises. *)
Definition py_index (n : nat) (k : Z) : result nat :=
  if (0 <=? k) && (k <? Z.of_nat n) then Ok (Z.to_nat k)
  else if (k <? 0) && (0 <=? k + Z.of_nat n) then Ok (Z.to_nat (k + Z.of_nat n))
  else Raise IndexError.

(** [l[k]] *)
Definition py_getitem {A} (l : list A) (k : Z) : result A :=
  match py_index (length l) k with
  | Ok i => match l !! i with Some x => Ok x | None => Raise IndexError end
  | Raise e => Raise e
  end.

(** [l.pop(k)], returning the remaining list. *)
Definition py_pop {A} (l : list A) (k : Z) : result (list A) :=
  match py_index (length l) k with
  | Ok i => Ok (delete i l)
  | Raise e => Raise e
  end.

(** Truth value of an integer in a condition. *)
Definition truthy (z : Z) : bool := negb (z =? 0).

(** [x < y] on the values drawn from the random module. *)
Definition Qltb (x y : Q) : bool :=
  (Qnum x * Z.pos (Qden y) <? Qnum y * Z.pos (Qden x)).

(** [random.random()]: the next value of the tape. *)
Definition random_random : M Q :=
  fun w => Ok (tape w (cursor w),
               mkWorld (heap w) (road w) (tape w) (S (cursor w))).

(** [random.randint(a, b)]: an integer of [a..b] chosen by the next value
    [u] of the tape, [a + floor(u * (b - a + 1))]; an empty range raises
    [ValueError]. *)
Definition random_randint (a b : Z) : M Z :=
  if b <? a then raise ValueError
  else u ← random_random; mret (a + Qfloor (u * inject_Z (b - a + 1))).

(** ** Access to the objects *)

Definition get_heap : M (ref -> Car) := fun w => Ok (heap w, w).

Definition get_car (c : ref) : M Car := fun w => Ok (heap w c, w).

Definition set_car (c : ref) (x : Car) : M unit :=
  fun w => Ok (tt, mkWorld (fun c' => if Nat.eqb c' c then x else heap w c')
                           (road w) (tape w) (cursor w)).

Definition set_posn (c : ref) (p : Z) : M unit :=
  x ← get_car c; set_car c (mkCar p (vel x) (crash_timer x)).
Definition set_vel (c : ref) (v : Z) : M unit :=
  x ← get_car c; set_car c (mkCar (posn x) v (crash_timer x)).
Definition set_crash_timer (c : ref) (t : Z) : M unit :=
  x ← get_car c; set_car c (mkCar (posn x) (vel x) t).

Definition get_road : M Road := fun w => Ok (road w, w).

(** The lane object with index [l] of [self.lanes].  Lane references are
    only ever produced by indexing [self.lanes]. *)
Definition get_lane (l : nat) : M Lane :=
  fun w => match lanes (road w) !! l with
           | Some x => Ok (x, w)
           | None => Raise IndexError
           end.

(** The state with [ls] as the list [self.lanes] of the road. *)
Definition with_lanes (w : World) (ls : list Lane) : World :=
  mkWorld (heap w)
          (mkRoad (num_lanes (road w)) (road_length (road w))
                  (cars_per_lane (road w)) ls)
          (tape w) (cursor w).

Definition set_lane (l : nat) (x : Lane) : M unit :=
  fun w => Ok (tt, with_lanes w (<[l := x]> (lanes (road w)))).

Definition set_num_cars (l : nat) (n : Z) : M unit :=
  x ← get_lane l; set_lane l (mkLane (lane_length x) n (cars x)).
Definition set_cars (l : nat) (cs : list ref) : M unit :=
  x ← get_lane l; set_lane l (mkLane (lane_length x) (num_cars x) cs).

(** ** class Car *)

(** [Car.update(self, p_ahead, road_len)]: the rule without lane changes. *)
Definition Car_update (self : ref) (p_ahead road_len : Z) : M unit :=
  c ← get_car self;
  if truthy (crash_timer c) then
    set_vel self 0 ;;
    set_crash_timer self (crash_timer c - 1)
  else
    (if vel c <? 5 then set_vel self (vel c + 1) else mret tt) ;;
    let p_ahead := if p_ahead <? posn c then p_ahead + road_len else p_ahead in
    c ← get_car self;
    (if p_ahead - posn c <? vel c then set_vel self (p_ahead - posn c - 1)
     else mret tt) ;;
    c ← get_car self;
    (if 0 <? vel c then
       u ← random_random;
       if Qltb u (1 # 2) then set_vel self (vel c - 1) else mret tt
     else mret tt) ;;
    c ← get_car self;
    p ← lift (py_mod (posn c + vel c) road_len);
    set_posn self p.

(** ** ahead_behind *)

(** One iteration of the first loop of [ahead_behind], on the pair
    [(minBehind, behindCar)]. *)
Definition behind_step (h : ref -> Car) (p road_len : Z)
    (st : Z * option ref) (c : ref) : Z * option ref :=
  let d := p - posn (h c) in
  if (0 <? d) && (d <? st.1) then (d, Some c)
  else
    let d := d + road_len in
    if (0 <? d) && (d <? st.1) then (d, Some c) else st.

(** One iteration of the second loop, on [(minAhead, aheadCar)]. *)
Definition ahead_step (h : ref -> Car) (p road_len : Z)
    (st : Z * option ref) (c : ref) : Z * option ref :=
  let d := posn (h c) - p in
  if (0 <? d) && (d <? st.1) then (d, Some c)
  else
    let d := d + road_len in
    if (0 <? d) && (d <? st.1) then (d, Some c) else st.

Definition behind_loop (h : ref -> Car) (p road_len : Z) (cs : list ref) :
    Z * option ref :=
  foldl (behind_step h p road_len) (road_len, None) cs.

Definition ahead_loop (h : ref -> Car) (p road_len : Z) (cs : list ref) :
    Z * option ref :=
  foldl (ahead_step h p road_len) (road_len, None) cs.

(** [ahead_behind(myCar, myLane, road_len)]: the pair
    [(behindCar, aheadCar)]. *)
Definition ahead_behind (myCar : ref) (myLane : nat) (road_len : Z) :
    M (option ref * option ref) :=
  c ← get_car myCar;
  let p := posn c in
  ln ← get_lane myLane;
  h ← get_heap;
  mret ((behind_loop h p road_len (cars ln)).2,
        (ahead_loop h p road_len (cars ln)).2).

(** Attribute access [x.posn], [x.vel] on a value that may be [None]. *)
Definition attr (x : option ref) : M Car :=
  match x with
  | Some c => get_car c
  | None => raise AttributeError
  end.

(** ** class Lane, first part *)

(** [Lane.get_posns(self)] *)
Definition Lane_get_posns (self : nat) : M (list Z) :=
  ln ← get_lane self;
  h ← get_heap;
  mret ((fun c => posn (h c)) <$> cars ln).

(** [Lane.get_vels(self)] *)
Definition Lane_get_vels (self : nat) : M (list Z) :=
  ln ← get_lane self;
  h ← get_heap;
  mret ((fun c => vel (h c)) <$> cars ln).

(** [sorted(l, key=lambda x: x.posn)]: Python's sort is stable, and a stable
    sort has one result; it is computed here by insertion. *)
Fixpoint insert_by_posn (h : ref -> Car) (x : ref) (l : list ref) : list ref :=
  match l with
  | [] => [x]
  | y :: l' =>
      if posn (h x) <=? posn (h y) then x :: y :: l'
      else y :: insert_by_posn h x l'
  end.

Definition sorted_by_posn (h : ref -> Car) (l : list ref) : list ref :=
  foldr (insert_by_posn h) [] l.

(** [Lane.add_car(self, car)] *)
Definition Lane_add_car (self : nat) (car : ref) : M unit :=
  ln ← get_lane self;
  set_cars self (cars ln ++ [car]);;
  ln ← get_lane self;
  h ← get_heap;
  set_cars self (sorted_by_posn h (cars ln)).

(** ** class Car, second part *)

(** The candidate space of one side in [Car.update_wLC]: [-1] when there is
    no lane on that side or the test on the car behind fails. *)
Definition side_space (self : ref) (road_len : Z) (adj : option nat) : M Z :=
  match adj with
  | None => mret (-1)
  | Some a =>
      ba ← ahead_behind self a road_len;
      behind ← attr ba.1;
      t ← lift (py_mod (posn behind + vel behind + 1) road_len);
      c ← get_car self;
      if t <? posn c then
        ahead ← attr ba.2;
        lift (py_mod (posn ahead - posn c) road_len)
      else mret (-1)
  end.

(** [adjs[k].add_car(self); adjs[k].num_cars += 1] *)
Definition move_to (adj : option nat) (self : ref) : M unit :=
  match adj with
  | None => raise AttributeError
  | Some a =>
      Lane_add_car a self;;
      ln ← get_lane a;
      set_num_cars a (num_cars ln + 1)
  end.

(** [max([rSpace, lSpace, mSpace])] *)
Definition max3 (rSpace lSpace mSpace : Z) : Z :=
  Z.max (Z.max rSpace lSpace) mSpace.

(** [Car.update_wLC(self, p_ahead, road_len, adjs)], with [adjs] the pair
    [(adjs[0], adjs[1])].  The last [elif] has no [else]: the method then
    returns [None], which the caller tests as false. *)
Definition Car_update_wLC (self : ref) (p_ahead road_len : Z)
    (adjs : option nat * option nat) : M bool :=
  c ← get_car self;
  if truthy (crash_timer c) then
    set_vel self 0;;
    set_crash_timer self (crash_timer c - 1);;
    mret false
  else
    mSpace ← lift (py_mod (p_ahead - posn c) road_len);
    lSpace ← side_space self road_len adjs.1;
    rSpace ← side_space self road_len adjs.2;
    if mSpace =? max3 rSpace lSpace mSpace then
      Car_update self p_ahead road_len;;
      mret false
    else if rSpace =? max3 rSpace lSpace mSpace then
      move_to adjs.2 self;;
      mret true
    else if lSpace =? max3 rSpace lSpace mSpace then
      move_to adjs.1 self;;
      mret true
    else mret false.

(** ** class Lane, second part *)

(** A [for] loop that also threads a local variable [s] of the method. *)
Fixpoint for_acc {A S} (l : list A) (s : S) (body : A -> S -> M S) : M S :=
  match l with
  | [] => mret s
  | x :: l' => s' ← body x s; for_acc l' s' body
  end.

(** [Lane.update(self)]: no lane changes. *)
Definition Lane_update (self : nat) : M unit :=
  curr_posns ← Lane_get_posns self;
  ln ← get_lane self;
  for_each (enumerate (cars ln)) (fun ic =>
    ln ← get_lane self;
    k ← lift (py_mod (Z.of_nat ic.1 + 1) (num_cars ln));
    p_ahead ← lift (py_getitem curr_posns k);
    Car_update ic.2 p_ahead (lane_length ln)).

(** [Lane.update_wLC(self, adjs)].  The first loop runs over the list that
    [self.cars] holds when it starts; [toPop] is its local variable.  The
    lanes of [adjs] are other lanes than [self] in every call of the
    program ([Road.update_wLC] passes the neighbours of [self]). *)
Definition Lane_update_wLC (self : nat) (adjs : option nat * option nat) :
    M unit :=
  curr_posns ← Lane_get_posns self;
  ln ← get_lane self;
  toPop ← for_acc (enumerate (cars ln)) [] (fun ic toPop =>
    ln ← get_lane self;
    k ← lift (py_mod (Z.of_nat ic.1 + 1) (Z.max (num_cars ln) 1));
    p_ahead ← lift (py_getitem curr_posns k);
    b ← Car_update_wLC ic.2 p_ahead (lane_length ln) adjs;
    mret (if b : bool then toPop ++ [ic.1] else toPop));
  for_each (rev toPop) (fun i =>
    ln ← get_lane self;
    cs ← lift (py_pop (cars ln) (Z.of_nat i));
    set_cars self cs;;
    ln ← get_lane self;
    set_num_cars self (num_cars ln - 1)).

(** [Lane.crash_car(self)] (the message it prints is not modelled). *)
Definition Lane_crash_car (self : nat) : M unit :=
  ln ← get_lane self;
  ind ← random_randint 0 (num_cars ln - 1);
  ln ← get_lane self;
  c ← lift (py_getitem (cars ln) ind);
  set_crash_timer c 30.

(** ** class Road *)

(** [self.lanes[k]]: the reference of the lane object. *)
Definition Road_lane (k : Z) : M nat :=
  r ← get_road;
  lift (py_index (length (lanes r)) k).

(** The crash injection of [Road.update], after a lane has been updated. *)
Definition Road_crash : M unit :=
  r ← random_random;
  if Qltb r (1 # 100) then
    rd ← get_road;
    ind ← random_randint 0 (num_lanes rd - 1);
    l ← Road_lane ind;
    Lane_crash_car l
  else mret tt.

(** [Road.update(self)] *)
Definition Road_update : M unit :=
  rd ← get_road;
  for_each (seq 0 (length (lanes rd))) (fun l =>
    Lane_update l;;
    Road_crash).

(** The crash injection of [Road.update_wLC]. *)
Definition Road_crash_wLC : M unit :=
  r ← random_random;
  if Qltb r (1 # 100) then
    rd ← get_road;
    ind ← random_randint 0 (num_lanes rd - 1);
    l ← Road_lane ind;
    ln ← get_lane l;
    if 0 <? num_cars ln then Lane_crash_car l else mret tt
  else mret tt.

(** The list [adjs] that [Road.update_wLC] builds for lane [i]. *)
Definition Road_adjs (i : nat) : M (option nat * option nat) :=
  rd ← get_road;
  a0 ← (if negb (Z.of_nat i =? 0) then
          l ← Road_lane (Z.of_nat i - 1); mret (Some l)
        else mret None);
  a1 ← (if negb (Z.of_nat i =? num_lanes rd - 1) then
          l ← Road_lane (Z.of_nat i + 1); mret (Some l)
        else mret None);
  mret (a0, a1).

(** [Road.update_wLC(self)] *)
Definition Road_update_wLC : M unit :=
  rd ← get_road;
  for_each (seq 0 (length (lanes rd))) (fun i =>
    adjs ← Road_adjs i;
    Lane_update_wLC i adjs;;
    Road_crash_wLC).

(** [n] calls of a method in a row. *)
Fixpoint repeat_m (n : nat) (m : M unit) : M unit :=
  match n with
  | O => mret tt
  | S n' => m;; repeat_m n' m
  end.

(** ** Construction *)

(** The cars a new lane creates from the positions [random.sample] returned
    and the velocities [random.randint(1, 5)] returned:
    [[Car(p, v) for (p, v) in zip(sorted(start_posns), start_vels)]]. *)
Definition new_cars (start_posns start_vels : list Z) : list Car :=
  zip_with (fun p v => mkCar p v 0) (merge_sort Z.le start_posns) start_vels.

(** [[Lane(length, cars_per_lane) for _ in range(num_lanes)]], one pair of
    drawn positions and velocities per lane; the car objects are allocated
    from reference [base] on.  Returns the lanes and the new car objects. *)
Fixpoint new_lanes (len n : Z) (draws : list (list Z * list Z)) (base : nat) :
    list Lane * list Car :=
  match draws with
  | [] => ([], [])
  | d :: rest =>
      let cs := new_cars d.1 d.2 in
      let r := new_lanes len n rest (base + length cs)%nat in
      (mkLane len n (seq base (length cs)) :: r.1, cs ++ r.2)
  end.

(** [Road(num_lanes, length, cars_per_lane)], given what the random module
    returned for each lane; [tp] is what it returns afterwards. *)
Definition Road_init (len cars_per_lane : Z) (draws : list (list Z * list Z))
    (tp : nat -> Q) : World :=
  let r := new_lanes len cars_per_lane draws 0 in
  mkWorld (fun c => nth c r.2 (mkCar 0 0 0))
          (mkRoad (Z.of_nat (length draws)) len cars_per_lane r.1)
          tp 0.

(** What [random.sample(range(length), n)] and [n] calls of
    [random.randint(1, 5)] can return. *)
Definition valid_draw (len n : Z) (d : list Z * list Z) : bool :=
  (Z.of_nat (length d.1) =? n) && (Z.of_nat (length d.2) =? n)
  && forallb (fun p => (0 <=? p) && (p <? len)) d.1
  && bool_decide (NoDup d.1)
  && forallb (fun v => (1 <=? v) && (v <=? 5)) d.2.

Definition valid_draws (len n : Z) (draws : list (list Z * list Z)) : bool :=
  (0 <? Z.of_nat (length draws)) && forallb (valid_draw len n) draws.

(** ** Observation *)

(** The cars of every lane, in the order of the lane's list. *)
Definition lane_view (w : World) (ln : Lane) : list Car :=
  heap w <$> cars ln.

Definition view (w : World) : list (list Car) :=
  lane_view w <$> lanes (road w).

(** The positions held in every lane. *)
Definition positions (w : World) : list (list Z) :=
  (fun ln => (fun c => posn (heap w c)) <$> cars ln) <$> lanes (road w).

(** The outcome of running a method: the view of the final state, or the
    exception. *)
Definition run_view {A} (m : M A) (w : World) : result (list (list Car)) :=
  match m w with
  | Ok (_, w') => Ok (view w')
  | Raise e => Raise e
  end.

(** A tape given by its first values; [d] afterwards. *)
Definition tape_of (l : list Q) (d : Q) : nat -> Q := fun n => nth n l d.

Definition run_refs {A} (m : M A) (w : World) : result (list (list ref)) :=
  match m w with
  | Ok (_, w') => Ok (cars <$> lanes (road w'))
  | Raise e => Raise e
  end.

Definition run_car {A} (m : M A) (w : World) (c : ref) : result Car :=
  match m w with
  | Ok (_, w') => Ok (heap w' c)
  | Raise e => Raise e
  end.

(** ** The properties the specification states *)

(** No two cars of a lane at the same position. *)
Definition no_overlap (w : World) : Prop :=
  Forall (fun ps : list Z => NoDup ps) (positions w).

#[global] Instance no_overlap_dec (w : World) : Decision (no_overlap w).
Proof. unfold no_overlap. apply _. Defined.

(** Every velocity is between 0 and 5. *)
Definition vel_in_bounds (c : Car) : Prop := 0 <= vel c <= 5.

Definition velocity_bounds (w : World) : Prop :=
  Forall (Forall vel_in_bounds) (view w).

#[global] Instance velocity_bounds_dec (w : World) :
  Decision (velocity_bounds w).
Proof. unfold velocity_bounds, vel_in_bounds. apply _. Defined.

(** All car objects held by the lanes of a road, lane after lane, and the
    sum of the [num_cars] counters. *)
Definition all_cars (ls : list Lane) : list ref := concat (cars <$> ls).

Definition total_num_cars (ls : list Lane) : Z :=
  foldr Z.add 0 (num_cars <$> ls).

(** The test [Car.update_wLC] makes on the car behind in an adjacent lane. *)
Definition behind_test (behind self : Car) (road_len : Z) : bool :=
  (posn behind + vel behind + 1) mod road_len <? posn self.

(** The same test as the specification words it: the circular distance from
    the car behind to the subject is more than the [vel + 1] cells the car
    behind can advance, so that it does not reach the subject's cell. *)
Definition behind_safe_spec (behind self : Car) (road_len : Z) : bool :=
  vel behind + 1 <? (posn self - posn behind) mod road_len.

(** The pops of the second loop of [Lane.update_wLC], on the list alone. *)
Fixpoint pop_all (idx : list nat) (cs : list ref) : result (list ref) :=
  match idx with
  | [] => Ok cs
  | i :: idx' =>
      match py_pop cs (Z.of_nat i) with
      | Ok cs' => pop_all idx' cs'
      | Raise e => Raise e
      end
  end.

(** The state after [n] more values of the random tape have been used. *)
Definition after_draws (n : nat) (w : World) : World :=
  mkWorld (heap w) (road w) (tape w) (n + cursor w).

(** The outcome of the random module at a crash injection in state [w]:
    [random.random()] returns a value below 0.01 and [random.randint] then
    returns [ind], which is the index of lane [l] in [self.lanes]. *)
Definition crash_drawn (w : World) (ind : Z) (l : nat) : Prop :=
  Qltb (tape w (cursor w)) (1 # 100) = true
  ∧ random_randint 0 (num_lanes (road w) - 1) (after_draws 1 w)
    = Ok (ind, after_draws 2 w)
  ∧ py_index (length (lanes (road w))) ind = Ok l.

(** ** Frame conditions on computations *)

(** A computation that only reads the state. *)
Definition reads {A} (m : M A) : Prop :=
  ∀ w a w', m w = Ok (a, w') → w' = w.

(** A computation that leaves the road (the lanes and their lists) alone. *)
Definition keeps_road {A} (m : M A) : Prop :=
  ∀ w a w', m w = Ok (a, w') → road w' = road w.

(** A computation that leaves the car objects alone. *)
Definition keeps_heap {A} (m : M A) : Prop :=
  ∀ w a w', m w = Ok (a, w') → heap w' = heap w.

(** ** Conservation of the cars *)

(** The lanes [ls'] hold the cars of [ls] and the car objects [extra] in
    addition, counted in [num_cars]; lane [l] is unchanged. *)
Definition gained (l : nat) (extra : list ref) (ls ls' : list Lane) : Prop :=
  ls' !! l = ls !! l
  ∧ length ls' = length ls
  ∧ all_cars ls' ≡ₚ extra ++ all_cars ls
  ∧ total_num_cars ls' = total_num_cars ls + Z.of_nat (length extra).

(** The lanes [ls'] hold the same car objects as [ls], each as often, and
    the counters add up to the same number. *)
Definition conserved (ls ls' : list Lane) : Prop :=
  length ls' = length ls
  ∧ all_cars ls' ≡ₚ all_cars ls
  ∧ total_num_cars ls' = total_num_cars ls.

(** ** Example roads *)

Module Examples.

(** [Road(1, 10, 3)] with cars at 0, 1, 2. *)
Definition jam_draws : list (list Z * list Z) := [([0; 1; 2], [1; 1; 1])].
Definition jam : World :=
  Road_init 10 3 jam_draws (tape_of [3#4; 1#2; 3#4; 1#4; 3#4; 1#2] (1#2)).

(** [Road(1, 10, 1)]: one car alone in its lane. *)
Definition lone_draws : list (list Z * list Z) := [([4], [3])].
Definition lone : World := Road_init 10 1 lone_draws (tape_of [] (1#2)).

(** [Road(1, 10, 0)]: a lane without cars, and a crash drawn at once. *)
Definition empty_draws : list (list Z * list Z) := [([], [])].
Definition empty : World :=
  Road_init 10 0 empty_draws (tape_of [1#1000; 0#1] (1#2)).

(** [Road(2, 20, 2)]: the first car of lane 1 finds more room in lane 0. *)
Definition merge_draws : list (list Z * list Z) :=
  [([0; 5], [1; 1]); ([6; 7], [1; 1])].
Definition merge : World :=
  Road_init 20 2 merge_draws (tape_of [1#4; 1#4; 1#2; 3#4; 1#2] (1#2)).

(** [Road(2, 20, 2)]: the first car of lane 0 finds more room in lane 1. *)
Definition right_draws : list (list Z * list Z) :=
  [([5; 6], [1; 1]); ([0; 1], [1; 1])].
Definition right : World := Road_init 20 2 right_draws (tape_of [] (1#2)).

(** [Road(2, 20, 1)]: the car of lane 1 finds more room in lane 0 and
    leaves its lane empty. *)
Definition pair_draws : list (list Z * list Z) := [([3], [1]); ([6], [1])].
Definition pair : World := Road_init 20 1 pair_draws (tape_of [] (1#2)).

(** A road of two lanes whose right lane has been left by its cars. *)
Definition vacated : World :=
  mkWorld (fun c => nth c [mkCar 5 1 0; mkCar 6 1 0] (mkCar 0 0 0))
          (mkRoad 2 20 2 [mkLane 20 2 [0%nat; 1%nat]; mkLane 20 0 []])
          (tape_of [] (1#2)) 0.

(** [Road(2, 12, 1)]: the car of lane 1 is two cells behind the car of
    lane 0 and fast. *)
Definition wrap_draws : list (list Z * list Z) := [([10], [1]); ([8], [5])].
Definition wrap : World := Road_init 12 1 wrap_draws (tape_of [] (1#2)).

(** [Road(2, 20, 1)]: the car of lane 1 is six cells behind the car of
    lane 0, across cell 0, and slow. *)
Definition slow_draws : list (list Z * list Z) := [([3], [1]); ([17], [1])].
Definition slow : World := Road_init 20 1 slow_draws (tape_of [] (1#2)).

(** Three lanes of length 20 with the same room ahead of position 5 in each:
    a car at 8 ahead and, in the outer lanes, a slow car at 0 behind. *)
Definition tie_draws : list (list Z * list Z) :=
  [([0; 8], [1; 1]); ([5; 8], [1; 1]); ([0; 8], [1; 1])].
Definition tie : World := Road_init 20 2 tie_draws (tape_of [] (1#2)).

(** A car that has just been crashed. *)
Definition crashed : World :=
  mkWorld (fun _ => mkCar 3 2 30) (mkRoad 1 10 1 [mkLane 10 1 [0%nat]])
          (tape_of [] (1#2)) 0.

(** The lane of length 20 with cars at 2, 9 and 15, and a second lane with
    the subject at 17. *)
Definition search_draws : list (list Z * list Z) :=
  [([2; 9; 15], [1; 1; 1]); ([17; 18; 19], [1; 1; 1])].
Definition search : World := Road_init 20 3 search_draws (tape_of [] (1#2)).

End Examples.

(** ** Further properties of the state *)

(** The positions of a lane of length [len] and the velocities the update
    rules can produce. *)
Definition on_road (len : Z) (c : Car) : Prop := 0 <= posn c < len.

#[global] Instance on_road_dec (len : Z) (c : Car) : Decision (on_road len c).
Proof. unfold on_road. apply _. Defined.

Module MoreExamples.

(** [Road(2, 20, 1)] with the two cars side by side at position 5. *)
Definition beside_draws : list (list Z * list Z) := [([5], [1]); ([5], [1])].
Definition beside : World := Road_init 20 1 beside_draws (tape_of [] (1#2)).

End MoreExamples.

(** The order [sorted(..., key=lambda x: x.posn)] establishes. *)
Definition posn_le (h : ref -> Car) (a b : ref) : Prop :=
  posn (h a) <= posn (h b).

(** A computation that leaves the observation [f] of the state as it
    was. *)
Definition preserves {A B} (f : World -> B) (m : M A) : Prop :=
  ∀ w a w', m w = Ok (a, w') → f w' = f w.

(** The steps of [Car.update] on a car [c] that is not crashed: the velocity
    after the acceleration, the gap to [p_ahead] and the velocity after the
    braking. *)
Definition accelerated (c : Car) : Z :=
  if vel c <? 5 then vel c + 1 else vel c.

Definition gap_ahead (c : Car) (p_ahead road_len : Z) : Z :=
  (if p_ahead <? posn c then p_ahead + road_len else p_ahead) - posn c.

Definition braked (c : Car) (p_ahead road_len : Z) : Z :=
  if gap_ahead c p_ahead road_len <? accelerated c
  then gap_ahead c p_ahead road_len - 1 else accelerated c.

(** Every lane's counter is the length of its list. *)
Definition counters_ok (ls : list Lane) : Prop :=
  Forall (λ ln, num_cars ln = Z.of_nat (length (cars ln))) ls.

(** The bounds the update rules keep on a car of a road of length [len]:
    the position is a cell of the road, the velocity lies between -1 and 5
    and the crash timer between 0 and 30. *)
Definition car_ok (len : Z) (c : Car) : Prop :=
  0 <= posn c < len ∧ -1 <= vel c <= 5 ∧ 0 <= crash_timer c <= 30.

(** The car objects of the set [U] are within the bounds. *)
Definition heap_ok (len : Z) (U : ref -> Prop) (w : World) : Prop :=
  ∀ r, U r → car_ok len (heap w r).

(** A lane of length [len] whose cars belong to [U]. *)
Definition lane_in (len : Z) (U : ref -> Prop) (ln : Lane) : Prop :=
  lane_length ln = len ∧ Forall U (cars ln).

(** Every lane has length [len] and holds cars of [U], which are within the
    bounds. *)
Definition road_ok (len : Z) (U : ref -> Prop) (w : World) : Prop :=
  Forall (lane_in len U) (lanes (road w)) ∧ heap_ok len U w.

#[global] Instance car_ok_dec (len : Z) (c : Car) : Decision (car_ok len c).
Proof. unfold car_ok. apply _. Defined.

#[global] Instance counters_ok_dec (ls : list Lane) : Decision (counters_ok ls).
Proof. unfold counters_ok. apply _. Defined.

(** The random module returns values of [0, 1). *)
Definition tape_in_unit (w : World) : Prop :=
  ∀ i, (0 <= tape w i)%Q ∧ (tape w i < 1)%Q.

(** A lane [Lane.update] and [Lane.crash_car] can work on: its length is
    not 0, it holds a car and its counter is the length of its list. *)
Definition lane_ready (ln : Lane) : Prop :=
  lane_length ln ≠ 0 ∧ 0 < num_cars ln
  ∧ num_cars ln = Z.of_nat (length (cars ln)).

(** A road [Road.update] can work on. *)
Definition road_ready (w : World) : Prop :=
  Forall lane_ready (lanes (road w))
  ∧ num_lanes (road w) = Z.of_nat (length (lanes (road w)))
  ∧ tape_in_unit w.

#[global] Instance lane_ready_dec (ln : Lane) : Decision (lane_ready ln).
Proof. unfold lane_ready. apply _. Defined.

(** The outcome of [Car.update] for a car in state [c] with the car ahead at
    [p]: a crashed car only counts down; any other car gets the velocity
    after braking, or one less when that is positive and the random draw
    says so, and advances by it around the road. *)
Definition car_step (road_len p : Z) (c c' : Car) : Prop :=
  if truthy (crash_timer c)
  then c' = mkCar (posn c) 0 (crash_timer c - 1)
  else ∃ v, (v = braked c p road_len
             ∨ 0 < braked c p road_len ∧ v = braked c p road_len - 1)
            ∧ c' = mkCar ((posn c + v) mod road_len) v (crash_timer c).

(** A car as [Lane.__init__] creates it on a lane of length [len]. *)
Definition car_new (len : Z) (c : Car) : Prop :=
  0 <= posn c < len ∧ 1 <= vel c <= 5 ∧ crash_timer c = 0.

(** ** Road.vel_vec *)

(** [float(v)] for an integer [v], the conversion that stores [v] in a cell
    of a float64 array: exact up to 53 bits, beyond that rounded to the
    nearest float, ties to the even mantissa; a result of [2^1024] or more in
    magnitude raises.  The float is given by its value, an integer. *)
Definition float64_of_int (v : Z) : result Z :=
  let a := Z.abs v in
  let e := Z.max 0 (Z.log2 a - 52) in
  let q := Z.shiftr a e in
  let r := a - Z.shiftl q e in
  let up := (2 ^ e <? 2 * r) || ((2 * r =? 2 ^ e) && Z.odd q) in
  let m := Z.shiftl (if up then q + 1 else q) e in
  if 2 ^ 1024 <=? m then Raise OverflowError else Ok (Z.sgn v * m).

(** [vals[i, p] = v] on a two-dimensional float64 array: either index out
    of range raises, a negative index counts from the end; then [v] is
    converted and stored.  A cell is the value of its float, an integer
    here, since the array is filled with -1 and converted integers. *)
Definition grid_set (vals : list (list Z)) (i p v : Z) :
    result (list (list Z)) :=
  match py_index (length vals) i with
  | Ok r =>
      match vals !! r with
      | Some row =>
          match py_index (length row) p with
          | Ok c =>
              match float64_of_int v with
              | Ok x => Ok (<[r := <[c := x]> row]> vals)
              | Raise e => Raise e
              end
          | Raise e => Raise e
          end
      | None => Raise IndexError
      end
  | Raise e => Raise e
  end.

(** The shapes [np.zeros] refuses (64-bit platform): a negative dimension,
    or a size in bytes, 8 times the product of the dimensions other than 0,
    above [2^63 - 1]; a dimension above [2^63 - 1] is such a size.  Memory
    is not bounded otherwise. *)
Definition bad_shape (n len : Z) : bool :=
  (n <? 0) || (len <? 0)
  || (2 ^ 63 - 1 <? 8 * (if n =? 0 then 1 else n)
                      * (if len =? 0 then 1 else len)).

(** [Road.vel_vec(self)]: [np.zeros((num_lanes, length)) - 1], then every
    car writes its velocity at its row and position.  The lane [l] of
    [enumerate(self.lanes)] is the lane of index [i]. *)
Definition Road_vel_vec : M (list (list Z)) :=
  rd ← get_road;
  if bad_shape (num_lanes rd) (road_length rd) then raise ValueError
  else
    for_acc (enumerate (lanes rd))
      (replicate (Z.to_nat (num_lanes rd))
                 (replicate (Z.to_nat (road_length rd)) (-1)))
      (λ il vals,
         pVals ← Lane_get_posns il.1;
         vVals ← Lane_get_vels il.1;
         for_acc (zip pVals vVals) vals
           (λ pv vals, lift (grid_set vals (Z.of_nat il.1) pv.1 pv.2))).

(** The row of a lane in the result of [vel_vec]: the cars write their
    velocities one after the other. *)
Definition fill_row (h : ref -> Car) (row : list Z) (cs : list ref) : list Z :=
  foldl (λ row c, <[Z.to_nat (posn (h c)) := vel (h c)]> row) row cs.

(** * Properties *)

(** ** Reasoning about computations *)

Lemma bind_Ok {A B} (m : M A) (k : A → M B) (w : World) (r : B * World) :
  (m ≫= k) w = Ok r ↔ ∃ a w1, m w = Ok (a, w1) ∧ k a w1 = Ok r.
Proof.
  unfold mbind, M_bind. split.
  - destruct (m w) as [[a w1]|e]; [eauto | discriminate].
  - intros (a & w1 & -> & Hk). exact Hk.
Qed.

Lemma bind_eq {A B} (m : M A) (k : A → M B) (w w1 : World) (a : A) :
  m w = Ok (a, w1) → (m ≫= k) w = k a w1.
Proof. unfold mbind, M_bind. intros ->. reflexivity. Qed.

Lemma bind_Raise {A B} (m : M A) (k : A → M B) (w : World) (e : exn) :
  m w = Raise e → (m ≫= k) w = Raise e.
Proof. unfold mbind, M_bind. intros ->. reflexivity. Qed.

Lemma ret_Ok {A} (a b : A) (w w' : World) :
  (mret a : M A) w = Ok (b, w') ↔ a = b ∧ w = w'.
Proof. unfold mret, M_ret. split; [intros [= -> ->] | intros [-> ->]]; done. Qed.

Lemma lift_Ok {A} (r : result A) (a : A) (w w' : World) :
  lift r w = Ok (a, w') ↔ r = Ok a ∧ w' = w.
Proof.
  unfold lift. destruct r as [x|e]; split.
  - intros [= -> ->]. done.
  - intros [[= ->] ->]. done.
  - discriminate.
  - intros [? _]. discriminate.
Qed.

Lemma get_lane_Ok (l : nat) (w w' : World) (ln : Lane) :
  get_lane l w = Ok (ln, w') ↔ lanes (road w) !! l = Some ln ∧ w' = w.
Proof.
  unfold get_lane. destruct (lanes (road w) !! l) as [x|]; split.
  - intros [= -> ->]. done.
  - intros [[= ->] ->]. done.
  - discriminate.
  - intros [? _]. discriminate.
Qed.

Lemma reads_keeps_road {A} (m : M A) : reads m → keeps_road m.
Proof. intros H w a w' Hm. by rewrite (H _ _ _ Hm). Qed.

Lemma reads_ret {A} (a : A) : reads (mret a : M A).
Proof. intros w b w' [_ <-]%ret_Ok. done. Qed.

Lemma reads_lift {A} (r : result A) : reads (lift r).
Proof. intros w b w' [_ ->]%lift_Ok. done. Qed.

Lemma reads_raise {A} (e : exn) : reads (@raise A e).
Proof. intros w b w'. discriminate. Qed.

Lemma reads_bind {A B} (m : M A) (k : A → M B) :
  reads m → (∀ a, reads (k a)) → reads (m ≫= k).
Proof.
  intros Hm Hk w b w' (a & w1 & H1 & H2)%bind_Ok.
  apply Hm in H1 as ->. by apply Hk in H2.
Qed.

Lemma reads_get_car (c : ref) : reads (get_car c).
Proof. intros w a w' [= _ <-]. done. Qed.

Lemma reads_get_heap : reads get_heap.
Proof. intros w a w' [= _ <-]. done. Qed.

Lemma reads_get_road : reads get_road.
Proof. intros w a w' [= _ <-]. done. Qed.

Lemma reads_get_lane (l : nat) : reads (get_lane l).
Proof. intros w a w' [_ ->]%get_lane_Ok. done. Qed.

Lemma reads_attr (x : option ref) : reads (attr x).
Proof. destruct x; [apply reads_get_car | apply reads_raise]. Qed.

Create HintDb reads_db.
#[local] Hint Resolve reads_ret reads_lift reads_raise reads_get_car
  reads_get_heap reads_get_road reads_get_lane reads_attr : reads_db.

Ltac reads_tac :=
  repeat first
    [ apply reads_bind; [| intros ?]
    | match goal with |- reads (if ?b then _ else _) => destruct b end
    | match goal with |- reads (match ?b with _ => _ end) => destruct b end
    | solve [auto with reads_db] ].

Lemma reads_ahead_behind (c : ref) (l : nat) (road_len : Z) :
  reads (ahead_behind c l road_len).
Proof. unfold ahead_behind. reads_tac. Qed.

Lemma reads_side_space (c : ref) (road_len : Z) (adj : option nat) :
  reads (side_space c road_len adj).
Proof.
  unfold side_space. destruct adj; [| apply reads_ret].
  apply reads_bind; [apply reads_ahead_behind | intros ?]. reads_tac.
Qed.

Lemma reads_Lane_get_posns (l : nat) : reads (Lane_get_posns l).
Proof. unfold Lane_get_posns. reads_tac. Qed.

Lemma reads_Road_lane (k : Z) : reads (Road_lane k).
Proof. unfold Road_lane. reads_tac. Qed.

Lemma reads_Road_adjs (i : nat) : reads (Road_adjs i).
Proof. unfold Road_adjs. reads_tac; apply reads_Road_lane. Qed.

(** ** The rule for a crashed car *)

Ltac unfold_m :=
  unfold mbind, M_bind, mret, M_ret, raise, lift, get_car, get_heap, get_road,
    set_vel, set_posn, set_crash_timer, set_car, random_random in *.

Lemma truthy_pos (z : Z) : 0 < z → truthy z = true.
Proof. unfold truthy. intros. destruct (Z.eqb_spec z 0); [lia | done]. Qed.

Lemma truthy_zero (z : Z) : z = 0 → truthy z = false.
Proof. intros ->. reflexivity. Qed.

(** C7: a car whose crash timer is positive is only immobilised, by
    [Car.update] and by [Car.update_wLC] alike: its velocity becomes 0, its
    timer drops by one, its position stays, no other object changes, no
    random number is drawn and no lane is touched; [update_wLC] returns
    false. *)
Theorem crashed_car_is_immobile (w : World) (self : ref) (p_ahead road_len : Z)
    (adjs : option nat * option nat) :
  0 < crash_timer (heap w self) →
  ∃ w', Car_update self p_ahead road_len w = Ok (tt, w')
      ∧ Car_update_wLC self p_ahead road_len adjs w = Ok (false, w')
      ∧ heap w' self
        = mkCar (posn (heap w self)) 0 (crash_timer (heap w self) - 1)
      ∧ (∀ c, c ≠ self → heap w' c = heap w c)
      ∧ road w' = road w ∧ tape w' = tape w ∧ cursor w' = cursor w.
Proof.
  intros Hct. unfold Car_update, Car_update_wLC. unfold_m.
  rewrite (truthy_pos _ Hct). simpl. eexists. split; [reflexivity|].
  split; [reflexivity|]. simpl. rewrite Nat.eqb_refl. simpl.
  repeat split. intros c Hc. apply Nat.eqb_neq in Hc. rewrite Hc. done.
Qed.

Lemma crashed_car_is_immobile_witness :
  0 < crash_timer (heap Examples.crashed 0%nat)
  ∧ ∃ w', Car_update 0%nat 5 10 Examples.crashed = Ok (tt, w')
      ∧ Car_update_wLC 0%nat 5 10 (None, None) Examples.crashed = Ok (false, w')
      ∧ heap w' 0%nat = mkCar 3 0 29
      ∧ (∀ c, c ≠ 0%nat → heap w' c = heap Examples.crashed c)
      ∧ road w' = road Examples.crashed ∧ tape w' = tape Examples.crashed
      ∧ cursor w' = cursor Examples.crashed.
Proof.
  split; [simpl; lia |].
  apply (crashed_car_is_immobile Examples.crashed 0%nat 5 10 (None, None)).
  simpl; lia.
Defined.

(** ** The neighbour search *)

Lemma ahead_behind_eq (c : ref) (l : nat) (road_len : Z) (w : World) (ln : Lane) :
  lanes (road w) !! l = Some ln →
  ahead_behind c l road_len w
  = Ok (((behind_loop (heap w) (posn (heap w c)) road_len (cars ln)).2,
         (ahead_loop (heap w) (posn (heap w c)) road_len (cars ln)).2), w).
Proof.
  intros Hl. unfold ahead_behind, get_lane. unfold_m. rewrite Hl. reflexivity.
Qed.

(** C9: in a lane of length 20 with cars at 2, 9 and 15, the search for a
    subject at 17 returns the car at 15 as the car behind, at distance 2,
    and the car at 2 as the car ahead, at the wrapped distance 5. *)
Theorem neighbour_search_example (w : World) (subject a b c : ref) (l : nat)
    (ln : Lane) :
  lanes (road w) !! l = Some ln →
  cars ln = [a; b; c] →
  posn (heap w a) = 2 → posn (heap w b) = 9 → posn (heap w c) = 15 →
  posn (heap w subject) = 17 →
  ahead_behind subject l 20 w = Ok ((Some c, Some a), w)
  ∧ behind_loop (heap w) 17 20 (cars ln) = (2, Some c)
  ∧ ahead_loop (heap w) 17 20 (cars ln) = (5, Some a).
Proof.
  intros Hl Hcs Ha Hb Hc Hs.
  rewrite (ahead_behind_eq _ _ _ _ _ Hl), Hs, Hcs.
  unfold behind_loop, ahead_loop, behind_step, ahead_step. simpl.
  rewrite Ha, Hb, Hc. simpl. done.
Qed.

Lemma neighbour_search_example_witness :
  ahead_behind 3%nat 0%nat 20 Examples.search
    = Ok ((Some 2%nat, Some 0%nat), Examples.search)
  ∧ behind_loop (heap Examples.search) 17 20 [0; 1; 2]%nat = (2, Some 2%nat)
  ∧ ahead_loop (heap Examples.search) 17 20 [0; 1; 2]%nat = (5, Some 0%nat).
Proof.
  apply (neighbour_search_example Examples.search 3%nat 0%nat 1%nat 2%nat 0%nat
           (mkLane 20 3 [0; 1; 2]%nat)); reflexivity.
Defined.

(** ** The candidate space of a side *)

Lemma py_mod_Ok (a b : Z) : b ≠ 0 → py_mod a b = Ok (a mod b).
Proof. intros Hb. unfold py_mod. destruct (Z.eqb_spec b 0); [lia | done]. Qed.

Lemma side_space_empty (self : ref) (road_len : Z) (l : nat) (w : World)
    (ln : Lane) :
  lanes (road w) !! l = Some ln → cars ln = [] →
  side_space self road_len (Some l) w = Raise AttributeError.
Proof.
  intros Hl Hcs. unfold side_space.
  rewrite (bind_eq _ _ _ _ _ (ahead_behind_eq self l road_len w ln Hl)).
  rewrite Hcs. reflexivity.
Qed.

(** With a non-zero road length and an existing lane, the only exception
    the evaluation of a side can raise is the one of an absent neighbour. *)
Lemma side_space_Raise (self : ref) (road_len : Z) (adj : option nat)
    (w : World) (e : exn) :
  road_len ≠ 0 →
  (∀ a, adj = Some a → is_Some (lanes (road w) !! a)) →
  side_space self road_len adj w = Raise e → e = AttributeError.
Proof.
  intros Hr Hadj. unfold side_space. destruct adj as [a|]; [| discriminate].
  destruct (Hadj a eq_refl) as [ln Hl].
  rewrite (bind_eq _ _ _ _ _ (ahead_behind_eq self a road_len w ln Hl)).
  cbn [fst snd].
  destruct (behind_loop _ _ _ _).2 as [b|]; [| by intros [= <-]].
  destruct (ahead_loop _ _ _ _).2 as [f|]; cbn [attr]; unfold_m;
    rewrite ?py_mod_Ok by done; destruct (_ <? _);
    rewrite ?py_mod_Ok by done; congruence.
Qed.

(** [Car.update_wLC] on a car that is not crashed. *)
Lemma Car_update_wLC_running (w : World) (self : ref) (p_ahead road_len : Z)
    (adjs : option nat * option nat) :
  crash_timer (heap w self) = 0 →
  Car_update_wLC self p_ahead road_len adjs w
  = (mSpace ← lift (py_mod (p_ahead - posn (heap w self)) road_len);
     lSpace ← side_space self road_len adjs.1;
     rSpace ← side_space self road_len adjs.2;
     if mSpace =? max3 rSpace lSpace mSpace then
       Car_update self p_ahead road_len;; mret false
     else if rSpace =? max3 rSpace lSpace mSpace then
       move_to adjs.2 self;; mret true
     else if lSpace =? max3 rSpace lSpace mSpace then
       move_to adjs.1 self;; mret true
     else mret false) w.
Proof.
  intros Hct. unfold Car_update_wLC.
  rewrite (bind_eq _ _ w w (heap w self)) by reflexivity.
  by rewrite (truthy_zero _ Hct).
Qed.

(** C10: when a lane next to a car that is not crashed holds no cars, the
    neighbour search returns neither a car behind nor a car ahead,
    the evaluation of that side reads [posn] of the absent car behind, and
    [Car.update_wLC] raises instead of discarding the side: the exception is
    [AttributeError] as soon as the road length is not 0 and the left side,
    when there is one, is a lane of the road. *)
Theorem empty_adjacent_lane_fails (w : World) (self : ref)
    (p_ahead road_len : Z) (adjs : option nat * option nat) (l : nat)
    (ln : Lane) :
  crash_timer (heap w self) = 0 →
  adjs.1 = Some l ∨ adjs.2 = Some l →
  lanes (road w) !! l = Some ln →
  cars ln = [] →
  ahead_behind self l road_len w = Ok ((None, None), w)
  ∧ side_space self road_len (Some l) w = Raise AttributeError
  ∧ (∃ e, Car_update_wLC self p_ahead road_len adjs w = Raise e)
  ∧ (road_len ≠ 0 →
     (∀ a, adjs.1 = Some a → is_Some (lanes (road w) !! a)) →
     Car_update_wLC self p_ahead road_len adjs w = Raise AttributeError).
Proof.
  intros Hct Hside Hl Hcs.
  pose proof (side_space_empty self road_len l w ln Hl Hcs) as Hfail.
  split; [| split; [done |]].
  { rewrite (ahead_behind_eq _ _ _ _ _ Hl), Hcs. reflexivity. }
  rewrite (Car_update_wLC_running _ _ _ _ _ Hct).
  assert (Hright : ∀ m ls,
    side_space self road_len adjs.1 w = Ok (ls, w) →
    (lSpace ← side_space self road_len adjs.1;
     rSpace ← side_space self road_len adjs.2;
     if m =? max3 rSpace lSpace m then
       Car_update self p_ahead road_len;; mret false
     else if rSpace =? max3 rSpace lSpace m then
       move_to adjs.2 self;; mret true
     else if lSpace =? max3 rSpace lSpace m then
       move_to adjs.1 self;; mret true
     else mret false) w = Raise AttributeError).
  { intros m ls Hls. rewrite (bind_eq _ _ _ _ _ Hls).
    destruct Hside as [H1 | H2]; [rewrite H1 in Hls; congruence |].
    apply bind_Raise. by rewrite H2. }
  split.
  - destruct (py_mod (p_ahead - posn (heap w self)) road_len) as [m|x] eqn:Hm.
    2:{ exists x. reflexivity. }
    rewrite (bind_eq _ _ w w m) by reflexivity.
    destruct (side_space self road_len adjs.1 w) as [[ls w1]|x] eqn:Hls.
    + pose proof (reads_side_space _ _ _ _ _ _ Hls) as ->. eauto.
    + exists x. by apply bind_Raise.
  - intros Hr Hvalid.
    rewrite (bind_eq _ _ w w ((p_ahead - posn (heap w self)) mod road_len))
      by (by rewrite py_mod_Ok).
    destruct (side_space self road_len adjs.1 w) as [[ls w1]|x] eqn:Hls.
    + pose proof (reads_side_space _ _ _ _ _ _ Hls) as ->. eauto.
    + apply bind_Raise. rewrite Hls.
      by rewrite (side_space_Raise _ _ _ _ _ Hr Hvalid Hls).
Qed.

Lemma empty_adjacent_lane_fails_witness :
  ahead_behind 0%nat 1%nat 20 Examples.vacated = Ok ((None, None), Examples.vacated)
  ∧ side_space 0%nat 20 (Some 1%nat) Examples.vacated = Raise AttributeError
  ∧ (∃ e, Car_update_wLC 0%nat 6 20 (None, Some 1%nat) Examples.vacated = Raise e)
  ∧ (20 ≠ 0 →
     (∀ a, (None, Some 1%nat).1 = Some a →
           is_Some (lanes (road Examples.vacated) !! a)) →
     Car_update_wLC 0%nat 6 20 (None, Some 1%nat) Examples.vacated
     = Raise AttributeError).
Proof.
  apply (empty_adjacent_lane_fails Examples.vacated 0%nat 6 20
           (None, Some 1%nat) 1%nat (mkLane 20 0 [])).
  - reflexivity.
  - right; reflexivity.
  - reflexivity.
  - reflexivity.
Defined.

(** The whole tick fails in that state. *)
Example vacated_tick_fails :
  run_view Road_update_wLC Examples.vacated = Raise AttributeError.
Proof. vm_compute. reflexivity. Qed.

(** Such a state is reached from a constructed road: on [Road(2, 20, 1)]
    the first tick moves the car of lane 1 to lane 0, and the second tick
    fails on the first car of lane 0. *)
Example empty_lane_is_reached :
  valid_draws 20 1 Examples.pair_draws = true
  ∧ run_refs Road_update_wLC Examples.pair = Ok [[0; 1]; []]%nat
  ∧ run_view (repeat_m 2 Road_update_wLC) Examples.pair
    = Raise AttributeError.
Proof. repeat split; vm_compute; reflexivity. Qed.

(** ** The choice of the lane *)

(** C4: for a car that is not crashed, with [mSpace], [lSpace] and [rSpace]
    the spaces the method computes: the current lane is kept whenever its
    space is at least the two others (the rule without lane change is run and
    false returned); otherwise the right lane is taken whenever its space is
    at least the left one; otherwise the left lane, whose space is then
    strictly the largest.  In particular three equal spaces keep the car in
    its lane. *)
Theorem lane_choice_precedence (w : World) (self : ref) (p_ahead road_len : Z)
    (adjs : option nat * option nat) (mSpace lSpace rSpace : Z) :
  crash_timer (heap w self) = 0 →
  py_mod (p_ahead - posn (heap w self)) road_len = Ok mSpace →
  side_space self road_len adjs.1 w = Ok (lSpace, w) →
  side_space self road_len adjs.2 w = Ok (rSpace, w) →
  (rSpace ≤ mSpace → lSpace ≤ mSpace →
     Car_update_wLC self p_ahead road_len adjs w
     = (Car_update self p_ahead road_len;; mret false) w)
  ∧ (mSpace < rSpace → lSpace ≤ rSpace →
     Car_update_wLC self p_ahead road_len adjs w
     = (move_to adjs.2 self;; mret true) w)
  ∧ (mSpace < lSpace → rSpace < lSpace →
     Car_update_wLC self p_ahead road_len adjs w
     = (move_to adjs.1 self;; mret true) w)
  ∧ (mSpace = rSpace → rSpace = lSpace →
     Car_update_wLC self p_ahead road_len adjs w
     = (Car_update self p_ahead road_len;; mret false) w).
Proof.
  intros Hct Hm Hl Hr.
  rewrite (Car_update_wLC_running _ _ _ _ _ Hct).
  rewrite (bind_eq _ _ w w mSpace) by (by rewrite Hm).
  rewrite (bind_eq _ _ _ _ _ Hl), (bind_eq _ _ _ _ _ Hr).
  unfold max3.
  repeat split; intros; repeat case_match; try reflexivity; lia.
Qed.

Lemma lane_choice_precedence_witness :
  (3 ≤ 3 → 3 ≤ 3 →
     Car_update_wLC 2%nat 8 20 (Some 0%nat, Some 2%nat) Examples.tie
     = (Car_update 2%nat 8 20;; mret false) Examples.tie)
  ∧ (3 < 3 → 3 ≤ 3 →
     Car_update_wLC 2%nat 8 20 (Some 0%nat, Some 2%nat) Examples.tie
     = (move_to (Some 2%nat) 2%nat;; mret true) Examples.tie)
  ∧ (3 < 3 → 3 < 3 →
     Car_update_wLC 2%nat 8 20 (Some 0%nat, Some 2%nat) Examples.tie
     = (move_to (Some 0%nat) 2%nat;; mret true) Examples.tie)
  ∧ (3 = 3 → 3 = 3 →
     Car_update_wLC 2%nat 8 20 (Some 0%nat, Some 2%nat) Examples.tie
     = (Car_update 2%nat 8 20;; mret false) Examples.tie).
Proof.
  apply (lane_choice_precedence Examples.tie 2%nat 8 20
           (Some 0%nat, Some 2%nat) 3 3 3); reflexivity.
Defined.

(** In the tie of the three lanes the car is still in lane 1 after its
    update, and has advanced there. *)
Example tie_stays :
  run_refs (Car_update_wLC 2%nat 8 20 (Some 0%nat, Some 2%nat)) Examples.tie
    = Ok [[0; 1]; [2; 3]; [4; 5]]%nat
  ∧ run_car (Car_update_wLC 2%nat 8 20 (Some 0%nat, Some 2%nat)) Examples.tie
      2%nat = Ok (mkCar 7 2 0).
Proof. split; vm_compute; reflexivity. Qed.

(** ** Crash injection *)

Lemma Lane_crash_car_empty (l : nat) (w : World) (ln : Lane) :
  lanes (road w) !! l = Some ln → num_cars ln = 0 →
  Lane_crash_car l w = Raise ValueError.
Proof.
  intros Hl Hn. unfold Lane_crash_car.
  rewrite (bind_eq _ _ w w ln) by (by apply get_lane_Ok).
  rewrite Hn. reflexivity.
Qed.

Lemma for_each_app {A} (l1 l2 : list A) (body : A → M unit) (w : World) :
  for_each (l1 ++ l2) body w = (for_each l1 body;; for_each l2 body) w.
Proof.
  revert w. induction l1 as [|x l1 IH]; intros w; [reflexivity |].
  cbn [app for_each]. unfold mbind, M_bind in *.
  destruct (body x w) as [[[] w1]|e]; [apply IH | reflexivity].
Qed.

Lemma bind_assoc_M {A B C} (m : M A) (f : A → M B) (g : B → M C) (w : World) :
  ((m ≫= f) ≫= g) w = (m ≫= (λ a, f a ≫= g)) w.
Proof. unfold mbind, M_bind. by destruct (m w) as [[a w1]|e]. Qed.

Lemma seq_split_at (k n : nat) :
  (k < n)%nat → seq 0 n = seq 0 k ++ k :: seq (S k) (n - S k).
Proof.
  intros Hk. replace n with (k + S (n - S k))%nat at 1 by lia.
  by rewrite seq_app.
Qed.

Lemma Road_crash_drawn (w : World) (ind : Z) (l : nat) :
  crash_drawn w ind l →
  Road_crash w = Lane_crash_car l (after_draws 2 w).
Proof.
  intros (Hdraw & Hind & Hl).
  set (w1 := after_draws 1 w) in *. set (w2 := after_draws 2 w) in *.
  assert (Hlane : Road_lane ind w2 = Ok (l, w2)).
  { unfold Road_lane. rewrite (bind_eq _ _ w2 w2 (road w)) by reflexivity.
    apply lift_Ok. done. }
  unfold Road_crash.
  rewrite (bind_eq _ _ w w1 (tape w (cursor w))) by reflexivity.
  rewrite Hdraw.
  rewrite (bind_eq _ _ w1 w1 (road w)) by reflexivity.
  rewrite (bind_eq _ _ _ _ _ Hind).
  by rewrite (bind_eq _ _ _ _ _ Hlane).
Qed.

Lemma Road_crash_wLC_drawn (w : World) (ind : Z) (l : nat) (ln : Lane) :
  crash_drawn w ind l →
  lanes (road w) !! l = Some ln →
  Road_crash_wLC w
  = (if 0 <? num_cars ln then Lane_crash_car l (after_draws 2 w)
     else Ok (tt, after_draws 2 w)).
Proof.
  intros (Hdraw & Hind & Hl) Hln.
  set (w1 := after_draws 1 w) in *. set (w2 := after_draws 2 w) in *.
  assert (Hlane : Road_lane ind w2 = Ok (l, w2)).
  { unfold Road_lane. rewrite (bind_eq _ _ w2 w2 (road w)) by reflexivity.
    apply lift_Ok. done. }
  unfold Road_crash_wLC.
  rewrite (bind_eq _ _ w w1 (tape w (cursor w))) by reflexivity.
  rewrite Hdraw.
  rewrite (bind_eq _ _ w1 w1 (road w)) by reflexivity.
  rewrite (bind_eq _ _ _ _ _ Hind).
  rewrite (bind_eq _ _ _ _ _ Hlane).
  rewrite (bind_eq _ _ w2 w2 ln) by (by apply get_lane_Ok).
  by destruct (0 <? num_cars ln).
Qed.

(** C8: a tick that has updated lane [k] and then draws a crash for lane
    [l].  [Road.update] calls [crash_car] on that lane whatever it holds and
    goes on with the lanes after [k]; [Road.update_wLC] calls it only if
    [num_cars] is positive; and [crash_car] on a lane with no cars raises
    ([random.randint(0, -1)] has an empty range).  So, when the lane drawn
    has no cars, [Road.update] fails with that exception, where
    [Road.update_wLC] goes on with the lanes after [k], no crash injected. *)
Theorem crash_injection_guard (k : nat) (ind : Z) (l : nat) (ln : Lane) :
  (∀ w0 w1 w : World,
     (k < length (lanes (road w0)))%nat →
     for_each (seq 0 k) (λ i, Lane_update i;; Road_crash) w0 = Ok (tt, w1) →
     Lane_update k w1 = Ok (tt, w) →
     crash_drawn w ind l →
     lanes (road w) !! l = Some ln →
     Road_update w0
     = (Lane_crash_car l;;
        for_each (seq (S k) (length (lanes (road w0)) - S k))
                 (λ i, Lane_update i;; Road_crash)) (after_draws 2 w)
     ∧ (num_cars ln = 0 → Road_update w0 = Raise ValueError))
  ∧ (∀ w0 w1 w : World,
       (k < length (lanes (road w0)))%nat →
       for_each (seq 0 k)
                (λ i, adjs ← Road_adjs i; Lane_update_wLC i adjs;;
                      Road_crash_wLC) w0 = Ok (tt, w1) →
       (adjs ← Road_adjs k; Lane_update_wLC k adjs) w1 = Ok (tt, w) →
       crash_drawn w ind l →
       lanes (road w) !! l = Some ln →
       Road_update_wLC w0
       = ((if 0 <? num_cars ln then Lane_crash_car l else mret tt);;
          for_each (seq (S k) (length (lanes (road w0)) - S k))
                   (λ i, adjs ← Road_adjs i; Lane_update_wLC i adjs;;
                         Road_crash_wLC)) (after_draws 2 w)
       ∧ (num_cars ln = 0 →
          Road_update_wLC w0
          = for_each (seq (S k) (length (lanes (road w0)) - S k))
                     (λ i, adjs ← Road_adjs i; Lane_update_wLC i adjs;;
                           Road_crash_wLC) (after_draws 2 w)))
  ∧ (∀ w : World,
       lanes (road w) !! l = Some ln → num_cars ln = 0 →
       Lane_crash_car l w = Raise ValueError).
Proof.
  split; [| split].
  - intros w0 w1 w Hk Hpre Hlane Hdrawn Hln.
    assert (Hrun : Road_update w0
      = (Lane_crash_car l;;
         for_each (seq (S k) (length (lanes (road w0)) - S k))
                  (λ i, Lane_update i;; Road_crash)) (after_draws 2 w)).
    { unfold Road_update.
      rewrite (bind_eq _ _ w0 w0 (road w0)) by reflexivity.
      rewrite (seq_split_at k _ Hk), for_each_app.
      rewrite (bind_eq _ _ _ _ _ Hpre). cbn [for_each].
      rewrite !bind_assoc_M. rewrite (bind_eq _ _ _ _ _ Hlane).
      unfold mbind at 1, M_bind at 1.
      rewrite (Road_crash_drawn w ind l Hdrawn).
      reflexivity. }
    split; [exact Hrun |]. intros Hn. rewrite Hrun.
    apply bind_Raise. by apply (Lane_crash_car_empty l _ ln).
  - intros w0 w1 w Hk Hpre Hlane Hdrawn Hln.
    assert (Hrun : Road_update_wLC w0
      = ((if 0 <? num_cars ln then Lane_crash_car l else mret tt);;
         for_each (seq (S k) (length (lanes (road w0)) - S k))
                  (λ i, adjs ← Road_adjs i; Lane_update_wLC i adjs;;
                        Road_crash_wLC)) (after_draws 2 w)).
    { unfold Road_update_wLC.
      rewrite (bind_eq _ _ w0 w0 (road w0)) by reflexivity.
      rewrite (seq_split_at k _ Hk), for_each_app.
      rewrite (bind_eq _ _ _ _ _ Hpre). cbn [for_each].
      apply bind_Ok in Hlane as (adjs & w1' & Hadjs & Hlane).
      rewrite !bind_assoc_M. rewrite (bind_eq _ _ _ _ _ Hadjs).
      rewrite !bind_assoc_M. rewrite (bind_eq _ _ _ _ _ Hlane).
      unfold mbind at 1, M_bind at 1.
      rewrite (Road_crash_wLC_drawn w ind l ln Hdrawn Hln).
      unfold mbind at 2, M_bind at 2.
      by destruct (0 <? num_cars ln). }
    split; [exact Hrun |]. intros Hn. rewrite Hrun, Hn. reflexivity.
  - intros w. apply Lane_crash_car_empty.
Qed.

Lemma crash_injection_guard_witness :
  Road_update Examples.empty = Raise ValueError
  ∧ Road_update_wLC Examples.empty = Ok (tt, after_draws 2 Examples.empty)
  ∧ Lane_crash_car 0%nat Examples.empty = Raise ValueError.
Proof.
  destruct (crash_injection_guard 0 0 0%nat (mkLane 10 0 []))
    as (Hupdate & Hguard & Hempty).
  split; [| split].
  - apply (Hupdate Examples.empty Examples.empty Examples.empty);
      [simpl; lia | reflexivity | reflexivity | | reflexivity | reflexivity].
    repeat split; reflexivity.
  - rewrite (proj2 (Hguard Examples.empty Examples.empty Examples.empty
               ltac:(simpl; lia) eq_refl eq_refl
               ltac:(repeat split; reflexivity) eq_refl) eq_refl).
    reflexivity.
  - apply Hempty; reflexivity.
Defined.

(** The two ticks on the road with an empty lane. *)
Example empty_lane_ticks :
  run_view Road_update Examples.empty = Raise ValueError
  ∧ run_view Road_update_wLC Examples.empty = Ok [[]].
Proof. split; vm_compute; reflexivity. Qed.

(** ** Overlaps *)

(** C1 (fails): two ticks of [Road.update] from [Road(1, 10, 3)] with cars
    at 0, 1, 2: the first leaves the cars at 0, 1, 4, all distinct; in the
    second the car at 0 has gap 1 and velocity 1, which the braking test
    [gap < vel] lets through, and lands on the car at 1, which stayed.  And
    one tick of [Road.update_wLC] from [Road(2, 20, 2)]: the car at 6 of
    lane 1 changes to lane 0, where a car is at 6 already. *)
Theorem overlap_after_tick :
  valid_draws 10 3 Examples.jam_draws = true
  ∧ (∃ w1 w2,
       Road_update Examples.jam = Ok (tt, w1) ∧ no_overlap w1
       ∧ Road_update w1 = Ok (tt, w2)
       ∧ positions w2 = [[1; 1; 7]] ∧ ¬ no_overlap w2)
  ∧ valid_draws 20 2 Examples.merge_draws = true
  ∧ no_overlap Examples.merge
  ∧ (∃ w1,
       Road_update_wLC Examples.merge = Ok (tt, w1)
       ∧ positions w1 = [[1; 6; 6]; [9]] ∧ ¬ no_overlap w1).
Proof.
  split; [reflexivity |]. split.
  { eexists. eexists. split; [vm_compute; reflexivity |].
    split; [by apply (bool_decide_unpack _) |].
    split; [vm_compute; reflexivity |].
    split; [vm_compute; reflexivity |].
    by apply (bool_decide_eq_false_1 _). }
  split; [reflexivity |].
  split; [by apply (bool_decide_unpack _) |].
  eexists. split; [vm_compute; reflexivity |].
  split; [vm_compute; reflexivity |].
  by apply (bool_decide_eq_false_1 _).
Qed.

(** ** Velocities *)

(** C2 (fails): the only car of a lane is its own car ahead, at gap 0; with
    velocity 3 it accelerates to 4, brakes to [0 - 1] and moves one cell
    back, in [Road.update] and in [Road.update_wLC] alike. *)
Theorem lone_car_negative_velocity :
  valid_draws 10 1 Examples.lone_draws = true
  ∧ velocity_bounds Examples.lone
  ∧ (∃ w1, Road_update Examples.lone = Ok (tt, w1)
           ∧ view w1 = [[mkCar 3 (-1) 0]] ∧ ¬ velocity_bounds w1)
  ∧ (∃ w1, Road_update_wLC Examples.lone = Ok (tt, w1)
           ∧ view w1 = [[mkCar 3 (-1) 0]] ∧ ¬ velocity_bounds w1).
Proof.
  split; [reflexivity |].
  split; [by apply (bool_decide_unpack _) |].
  split; (eexists; split; [vm_compute; reflexivity |];
          split; [vm_compute; reflexivity |];
          by apply (bool_decide_eq_false_1 _)).
Qed.

(** ** The test on the car behind *)

(** The evaluation of a side when the search finds both neighbours. *)
Lemma side_space_eq (self : ref) (road_len : Z) (l : nat) (w : World)
    (b f : ref) :
  road_len ≠ 0 →
  ahead_behind self l road_len w = Ok ((Some b, Some f), w) →
  side_space self road_len (Some l) w
  = Ok (if behind_test (heap w b) (heap w self) road_len
        then (posn (heap w f) - posn (heap w self)) mod road_len else -1, w).
Proof.
  intros Hr Hab. unfold side_space, behind_test.
  rewrite (bind_eq _ _ _ _ _ Hab). cbn [fst snd attr]. unfold_m.
  rewrite py_mod_Ok by done. destruct (_ <? _); [| done].
  by rewrite py_mod_Ok.
Qed.

(** Where nothing wraps, the test of the code is the one of the
    specification. *)
Lemma behind_test_no_wrap (behind self : Car) (road_len : Z) :
  0 ≤ posn behind → posn behind < posn self → posn self < road_len →
  0 ≤ vel behind → posn behind + vel behind + 1 < road_len →
  behind_test behind self road_len = behind_safe_spec behind self road_len.
Proof.
  intros. unfold behind_test, behind_safe_spec.
  rewrite !Z.mod_small by lia.
  destruct (Z.ltb_spec (posn behind + vel behind + 1) (posn self));
    destruct (Z.ltb_spec (vel behind + 1) (posn self - posn behind));
    try done; lia.
Qed.

(** C5 (fails): the code compares the wrapped cell of the car behind with
    the subject's cell on the line, not on the circle.  On a road of length
    12, a car at 8 with velocity 5 is two cells behind a subject at 10 and
    would pass it, yet its wrapped cell 2 is below 10 and the side is a
    candidate, with space 10.  On a road of length 20, a car at 17 with
    velocity 1 is six cells behind a subject at 3 and cannot reach it, yet
    its cell 19 is not below 3 and the side is discarded. *)
Theorem behind_test_not_circular :
  valid_draws 12 1 Examples.wrap_draws = true
  ∧ ahead_behind 0%nat 1%nat 12 Examples.wrap
    = Ok ((Some 1%nat, Some 1%nat), Examples.wrap)
  ∧ behind_safe_spec (heap Examples.wrap 1%nat) (heap Examples.wrap 0%nat) 12
    = false
  ∧ side_space 0%nat 12 (Some 1%nat) Examples.wrap = Ok (10, Examples.wrap)
  ∧ valid_draws 20 1 Examples.slow_draws = true
  ∧ ahead_behind 0%nat 1%nat 20 Examples.slow
    = Ok ((Some 1%nat, Some 1%nat), Examples.slow)
  ∧ behind_safe_spec (heap Examples.slow 1%nat) (heap Examples.slow 0%nat) 20
    = true
  ∧ side_space 0%nat 20 (Some 1%nat) Examples.slow = Ok (-1, Examples.slow).
Proof. repeat split; reflexivity. Qed.

(** ** A car that changes lanes *)

(** The transfer itself changes no car object and draws no random number. *)
Lemma move_to_keeps_heap (adj : option nat) (self : ref) (w w' : World) :
  move_to adj self w = Ok (tt, w') →
  heap w' = heap w ∧ cursor w' = cursor w.
Proof.
  unfold move_to, Lane_add_car, set_cars, set_num_cars, set_lane, get_lane.
  destruct adj as [a|]; [| discriminate]. unfold_m.
  repeat (case_match; try discriminate; simplify_eq/=). intros [= <-]. done.
Qed.

(** C6 (fails for a move to the right): on [Road(2, 20, 2)] with cars at 5
    and 6 in lane 0 and at 0 and 1 in lane 1, the update of lane 0 moves
    car 0 to lane 1 at position 5 with velocity 1, unchanged; the update of
    lane 1, later in the same tick, runs the rule on it again: it ends the
    tick at position 7 with velocity 2. *)
Theorem right_mover_updated_twice :
  valid_draws 20 2 Examples.right_draws = true
  ∧ heap Examples.right 0%nat = mkCar 5 1 0
  ∧ run_refs Road_update_wLC (Examples.right) = Ok [[1]; [2; 3; 0]]%nat
  ∧ run_car (adjs ← Road_adjs 0; Lane_update_wLC 0 adjs) Examples.right 0%nat
    = Ok (mkCar 5 1 0)
  ∧ run_refs (adjs ← Road_adjs 0; Lane_update_wLC 0 adjs) Examples.right
    = Ok [[1]; [2; 3; 0]]%nat
  ∧ run_car Road_update_wLC Examples.right 0%nat = Ok (mkCar 7 2 0).
Proof. repeat split; vm_compute; reflexivity. Qed.

(** ** Conservation of the cars *)

Lemma insert_by_posn_perm (h : ref → Car) (x : ref) (l : list ref) :
  insert_by_posn h x l ≡ₚ x :: l.
Proof.
  induction l as [|y l IH]; simpl; [done |].
  destruct (_ <=? _); [done |]. rewrite IH. apply Permutation_swap.
Qed.

Lemma sorted_by_posn_perm (h : ref → Car) (l : list ref) :
  sorted_by_posn h l ≡ₚ l.
Proof.
  unfold sorted_by_posn. induction l as [|x l IH]; simpl; [done |].
  by rewrite insert_by_posn_perm, IH.
Qed.

Lemma all_cars_insert (ls : list Lane) (i : nat) (ln ln' : Lane) :
  ls !! i = Some ln →
  ∃ rest, all_cars ls ≡ₚ cars ln ++ rest
          ∧ all_cars (<[i := ln']> ls) ≡ₚ cars ln' ++ rest.
Proof.
  intros Hi. pose proof (lookup_lt_Some _ _ _ Hi) as Hlt.
  exists (all_cars (take i ls) ++ all_cars (drop (S i) ls)).
  rewrite insert_take_drop by done.
  rewrite <- (take_drop_middle ls i ln Hi) at 1.
  unfold all_cars. rewrite !fmap_app, !concat_app, !fmap_cons, !concat_cons.
  split; apply Permutation_app_swap_app.
Qed.

Lemma total_num_cars_app (l1 l2 : list Lane) :
  total_num_cars (l1 ++ l2) = total_num_cars l1 + total_num_cars l2.
Proof.
  unfold total_num_cars. induction l1 as [|x l1 IH]; [done |].
  cbn [app fmap list_fmap foldr] in *. rewrite IH. lia.
Qed.

Lemma total_num_cars_insert (ls : list Lane) (i : nat) (ln ln' : Lane) :
  ls !! i = Some ln →
  total_num_cars (<[i := ln']> ls)
  = total_num_cars ls - num_cars ln + num_cars ln'.
Proof.
  intros Hi. pose proof (lookup_lt_Some _ _ _ Hi) as Hlt.
  assert (total_num_cars ls
          = total_num_cars (take i ls)
            + (num_cars ln + total_num_cars (drop (S i) ls))) as ->.
  { rewrite <- (take_drop_middle ls i ln Hi) at 1.
    by rewrite total_num_cars_app. }
  rewrite insert_take_drop by done. rewrite total_num_cars_app.
  change (total_num_cars (ln' :: drop (S i) ls))
    with (num_cars ln' + total_num_cars (drop (S i) ls)).
  lia.
Qed.

Lemma gained_refl (l : nat) (ls : list Lane) : gained l [] ls ls.
Proof. unfold gained. simpl. repeat split; [done | lia]. Qed.

Lemma gained_trans (l : nat) (e1 e2 : list ref) (ls0 ls1 ls2 : list Lane) :
  gained l e1 ls0 ls1 → gained l e2 ls1 ls2 → gained l (e1 ++ e2) ls0 ls2.
Proof.
  intros (H1 & H2 & H3 & H4) (G1 & G2 & G3 & G4). unfold gained.
  split; [congruence |]. split; [congruence |]. split.
  - rewrite G3, H3. rewrite !app_assoc. f_equiv. apply Permutation_app_comm.
  - rewrite G4, H4, length_app. lia.
Qed.

Lemma conserved_refl (ls : list Lane) : conserved ls ls.
Proof. done. Qed.

Lemma conserved_trans (ls0 ls1 ls2 : list Lane) :
  conserved ls0 ls1 → conserved ls1 ls2 → conserved ls0 ls2.
Proof.
  intros (H1 & H2 & H3) (G1 & G2 & G3). unfold conserved.
  split; [congruence |]. split; [by rewrite G2 | congruence].
Qed.

(** Computations that leave the road alone. *)

Lemma keeps_road_bind {A B} (m : M A) (k : A → M B) :
  keeps_road m → (∀ a, keeps_road (k a)) → keeps_road (m ≫= k).
Proof.
  intros Hm Hk w b w' (a & w1 & H1 & H2)%bind_Ok.
  apply Hm in H1. apply Hk in H2. congruence.
Qed.

Lemma keeps_road_set_car (c : ref) (x : Car) : keeps_road (set_car c x).
Proof. intros w a w' [= _ <-]. done. Qed.

Lemma keeps_road_random : keeps_road random_random.
Proof. intros w a w' [= _ <-]. done. Qed.

Ltac keeps_tac :=
  repeat first
    [ apply keeps_road_bind; [| intros ?]
    | apply keeps_road_set_car
    | apply keeps_road_random
    | match goal with |- keeps_road (if ?b then _ else _) => destruct b end
    | match goal with |- keeps_road (match ?b with _ => _ end) => destruct b end
    | solve [apply reads_keeps_road; auto with reads_db] ].

Lemma keeps_road_set_vel (c : ref) (v : Z) : keeps_road (set_vel c v).
Proof. unfold set_vel. keeps_tac. Qed.

Lemma keeps_road_set_posn (c : ref) (p : Z) : keeps_road (set_posn c p).
Proof. unfold set_posn. keeps_tac. Qed.

Lemma keeps_road_set_crash_timer (c : ref) (t : Z) :
  keeps_road (set_crash_timer c t).
Proof. unfold set_crash_timer. keeps_tac. Qed.

Lemma keeps_road_Car_update (self : ref) (p_ahead road_len : Z) :
  keeps_road (Car_update self p_ahead road_len).
Proof.
  unfold Car_update.
  repeat first
    [ apply keeps_road_set_vel | apply keeps_road_set_posn
    | apply keeps_road_set_crash_timer | progress keeps_tac ].
Qed.

Lemma keeps_road_randint (a b : Z) : keeps_road (random_randint a b).
Proof. unfold random_randint. keeps_tac. Qed.

Lemma keeps_road_Lane_crash_car (l : nat) : keeps_road (Lane_crash_car l).
Proof.
  unfold Lane_crash_car.
  repeat first
    [ apply keeps_road_set_crash_timer | apply keeps_road_randint
    | progress keeps_tac ].
Qed.

Lemma keeps_road_Road_crash_wLC : keeps_road Road_crash_wLC.
Proof.
  unfold Road_crash_wLC.
  repeat first
    [ apply keeps_road_Lane_crash_car | apply keeps_road_randint
    | apply (reads_keeps_road _ (reads_Road_lane _))
    | progress keeps_tac ].
Qed.

(** Writing the fields of a lane object. *)
Lemma get_lane_eq (l : nat) (w : World) (ln : Lane) :
  lanes (road w) !! l = Some ln → get_lane l w = Ok (ln, w).
Proof. intros Hl. by apply get_lane_Ok. Qed.

Lemma set_cars_eq (l : nat) (cs : list ref) (w : World) (ln : Lane) :
  lanes (road w) !! l = Some ln →
  set_cars l cs w
  = Ok (tt, with_lanes w (<[l := mkLane (lane_length ln) (num_cars ln) cs]>
                            (lanes (road w)))).
Proof.
  intros Hl. unfold set_cars. by rewrite (bind_eq _ _ _ _ _ (get_lane_eq _ _ _ Hl)).
Qed.

Lemma set_num_cars_eq (l : nat) (n : Z) (w : World) (ln : Lane) :
  lanes (road w) !! l = Some ln →
  set_num_cars l n w
  = Ok (tt, with_lanes w (<[l := mkLane (lane_length ln) n (cars ln)]>
                            (lanes (road w)))).
Proof.
  intros Hl. unfold set_num_cars.
  by rewrite (bind_eq _ _ _ _ _ (get_lane_eq _ _ _ Hl)).
Qed.

(** The effect of a transfer on the lanes: lane [a] gets the car, its list
    is rearranged and its counter incremented. *)
Lemma move_to_lanes (a : nat) (self : ref) (w w' : World) :
  move_to (Some a) self w = Ok (tt, w') →
  ∃ ln cs, lanes (road w) !! a = Some ln
           ∧ cs ≡ₚ self :: cars ln
           ∧ lanes (road w')
             = <[a := mkLane (lane_length ln) (num_cars ln + 1) cs]>
                 (lanes (road w)).
Proof.
  unfold move_to, Lane_add_car.
  intros ([] & w1 & (ln & w0 & [Hl ->]%get_lane_Ok & Hadd)%bind_Ok & Hnum)%bind_Ok.
  pose proof (lookup_lt_Some _ _ _ Hl) as Hlt.
  rewrite (bind_eq _ _ _ _ _ (set_cars_eq _ _ _ _ Hl)) in Hadd.
  set (ln1 := mkLane (lane_length ln) (num_cars ln) (cars ln ++ [self])) in *.
  set (w2 := with_lanes w (<[a := ln1]> (lanes (road w)))) in *.
  assert (Hl2 : lanes (road w2) !! a = Some ln1)
    by (by apply list_lookup_insert_eq).
  rewrite (bind_eq _ _ _ _ _ (get_lane_eq _ _ _ Hl2)) in Hadd.
  rewrite (bind_eq _ _ w2 w2 (heap w)) in Hadd by reflexivity.
  rewrite (set_cars_eq _ _ _ _ Hl2) in Hadd.
  injection Hadd as <-. simpl in Hnum. rewrite list_insert_insert_eq in Hnum.
  set (ln3 := mkLane (lane_length ln) (num_cars ln)
                     (sorted_by_posn (heap w) (cars ln ++ [self]))) in *.
  set (w3 := with_lanes w2 (<[a := ln3]> (lanes (road w)))) in *.
  assert (Hl3 : lanes (road w3) !! a = Some ln3)
    by (by apply list_lookup_insert_eq).
  rewrite (bind_eq _ _ _ _ _ (get_lane_eq _ _ _ Hl3)) in Hnum.
  rewrite (set_num_cars_eq _ _ _ _ Hl3) in Hnum.
  injection Hnum as <-. simpl. rewrite list_insert_insert_eq.
  eexists ln, _. split; [done |]. split; [| done].
  rewrite sorted_by_posn_perm. by rewrite Permutation_app_comm.
Qed.

Lemma gained_insert (l a : nat) (self : ref) (ls : list Lane) (ln : Lane)
    (cs : list ref) :
  a ≠ l → ls !! a = Some ln → cs ≡ₚ self :: cars ln →
  gained l [self] ls (<[a := mkLane (lane_length ln) (num_cars ln + 1) cs]> ls).
Proof.
  intros Hne Hl Hcs. unfold gained.
  split; [by apply list_lookup_insert_ne |].
  split; [by rewrite length_insert |].
  split.
  - destruct (all_cars_insert ls a ln
                (mkLane (lane_length ln) (num_cars ln + 1) cs) Hl)
      as (rest & H1 & H2).
    rewrite H2, H1. simpl. by rewrite Hcs.
  - rewrite (total_num_cars_insert _ _ _ _ Hl). simpl. lia.
Qed.

(** The effect of [Car.update_wLC] on the lanes, for a car of lane [l] whose
    neighbours are other lanes: either it returns false and no lane has
    changed, or it returns true and the lanes have gained the car once. *)
Lemma Car_update_wLC_lanes (l : nat) (self : ref) (p_ahead road_len : Z)
    (adjs : option nat * option nat) (w w' : World) (b : bool) :
  adjs.1 ≠ Some l → adjs.2 ≠ Some l →
  Car_update_wLC self p_ahead road_len adjs w = Ok (b, w') →
  gained l (if b then [self] else []) (lanes (road w)) (lanes (road w')).
Proof.
  intros Hl1 Hl2. unfold Car_update_wLC.
  intros (c & w0 & [= <- <-] & Hrun)%bind_Ok.
  destruct (truthy _).
  { apply bind_Ok in Hrun as ([] & w1 & H1 & Hrun).
    apply bind_Ok in Hrun as ([] & w2 & H2 & [= <- <-]).
    apply keeps_road_set_vel in H1. apply keeps_road_set_crash_timer in H2.
    rewrite H2, H1. apply gained_refl. }
  apply bind_Ok in Hrun as (m & w1 & [_ ->]%lift_Ok & Hrun).
  apply bind_Ok in Hrun as (ls & w1 & ->%reads_side_space & Hrun).
  apply bind_Ok in Hrun as (rs & w1 & ->%reads_side_space & Hrun).
  destruct (_ =? _).
  { apply bind_Ok in Hrun as ([] & w1 & H1 & [= <- <-]).
    apply keeps_road_Car_update in H1. rewrite H1. apply gained_refl. }
  destruct (_ =? _).
  { apply bind_Ok in Hrun as ([] & w1 & H1 & [= <- <-]).
    destruct adjs.2 as [a|] eqn:Ha; [| discriminate].
    apply move_to_lanes in H1 as (ln & cs & Hln & Hcs & ->).
    apply gained_insert; congruence. }
  destruct (_ =? _); [| injection Hrun as <- <-; apply gained_refl].
  apply bind_Ok in Hrun as ([] & w1 & H1 & [= <- <-]).
  destruct adjs.1 as [a|] eqn:Ha; [| discriminate].
  apply move_to_lanes in H1 as (ln & cs & Hln & Hcs & ->).
  apply gained_insert; congruence.
Qed.

(** The first loop of [Lane.update_wLC], from any point of the list on: the
    indices appended to [toPop] are those of a sublist [t] of the remaining
    cars, in order, and the lanes have gained the cars of [t]. *)
Lemma first_loop_gains (l : nat) (adjs : option nat * option nat)
    (curr_posns : list Z) (ics : list (nat * ref)) :
  adjs.1 ≠ Some l → adjs.2 ≠ Some l →
  ∀ (toPop toPop' : list nat) (w w' : World),
  for_acc ics toPop (λ ic toPop,
    ln ← get_lane l;
    k ← lift (py_mod (Z.of_nat ic.1 + 1) (Z.max (num_cars ln) 1));
    p_ahead ← lift (py_getitem curr_posns k);
    b ← Car_update_wLC ic.2 p_ahead (lane_length ln) adjs;
    mret (if b : bool then toPop ++ [ic.1] else toPop)) w
  = Ok (toPop', w') →
  ∃ t, t `sublist_of` ics ∧ toPop' = toPop ++ t.*1
       ∧ gained l t.*2 (lanes (road w)) (lanes (road w')).
Proof.
  intros Hl1 Hl2. induction ics as [|ic ics IH]; intros toPop toPop' w w'.
  { intros [= <- <-]. exists []. simpl. rewrite app_nil_r.
    split; [done | split; [done | apply gained_refl]]. }
  cbn [for_acc].
  intros (tp & w1 & Hbody & Hrest)%bind_Ok.
  apply bind_Ok in Hbody as (ln & w0 & ->%reads_get_lane & Hbody).
  apply bind_Ok in Hbody as (k & w0 & [_ ->]%lift_Ok & Hbody).
  apply bind_Ok in Hbody as (p & w0 & [_ ->]%lift_Ok & Hbody).
  apply bind_Ok in Hbody as (b & w0 & Hcar & [= <- <-]).
  apply (Car_update_wLC_lanes l) in Hcar; [| done | done].
  apply IH in Hrest as (t & Hsub & -> & Hg).
  destruct b.
  - exists (ic :: t). split; [by constructor |].
    split; [by rewrite <- app_assoc |].
    apply (gained_trans _ [ic.2] t.*2 _ _ _ Hcar Hg).
  - exists t. split; [by constructor |]. split; [done |].
    apply (gained_trans _ [] t.*2 _ _ _ Hcar Hg).
Qed.

(** The second loop of [Lane.update_wLC] pops the indices from the list of
    the lane and decrements its counter once for each. *)
Lemma second_loop_pops (l : nat) (idx : list nat) :
  ∀ (w w' : World) (ln : Lane),
  lanes (road w) !! l = Some ln →
  for_each idx (λ i,
    ln ← get_lane l;
    cs ← lift (py_pop (cars ln) (Z.of_nat i));
    set_cars l cs;;
    ln ← get_lane l;
    set_num_cars l (num_cars ln - 1)) w
  = Ok (tt, w') →
  ∃ cs, pop_all idx (cars ln) = Ok cs
        ∧ lanes (road w')
          = <[l := mkLane (lane_length ln)
                          (num_cars ln - Z.of_nat (length idx)) cs]>
              (lanes (road w)).
Proof.
  induction idx as [|i idx IH]; intros w w' ln Hl.
  { intros [= <-]. exists (cars ln). split; [done |].
    rewrite list_insert_id; [done |]. rewrite Hl. f_equal.
    destruct ln; simpl; f_equal; lia. }
  cbn [for_each].
  intros ([] & w1 & Hbody & Hrest)%bind_Ok.
  pose proof (lookup_lt_Some _ _ _ Hl) as Hlt.
  rewrite (bind_eq _ _ _ _ _ (get_lane_eq _ _ _ Hl)) in Hbody.
  apply bind_Ok in Hbody as (cs1 & w0 & [Hpop ->]%lift_Ok & Hbody).
  rewrite (bind_eq _ _ _ _ _ (set_cars_eq _ _ _ _ Hl)) in Hbody.
  set (ln1 := mkLane (lane_length ln) (num_cars ln) cs1) in *.
  set (w2 := with_lanes w (<[l := ln1]> (lanes (road w)))) in *.
  assert (Hl2 : lanes (road w2) !! l = Some ln1)
    by (by apply list_lookup_insert_eq).
  rewrite (bind_eq _ _ _ _ _ (get_lane_eq _ _ _ Hl2)) in Hbody.
  rewrite (set_num_cars_eq _ _ _ _ Hl2) in Hbody.
  injection Hbody as <-.
  set (ln3 := mkLane (lane_length ln1) (num_cars ln1 - 1) (cars ln1)) in *.
  assert (Hl3 : lanes (road (with_lanes w2 (<[l := ln3]> (lanes (road w2)))))
                !! l = Some ln3).
  { simpl. rewrite list_insert_insert_eq. by apply list_lookup_insert_eq. }
  apply (IH _ _ _ Hl3) in Hrest as (cs & Hcs & ->).
  exists cs. cbn [pop_all]. rewrite Hpop. split; [done |].
  simpl. rewrite !list_insert_insert_eq. do 2 f_equal. lia.
Qed.

Lemma py_index_nat (n i : nat) :
  (i < n)%nat → py_index n (Z.of_nat i) = Ok i.
Proof.
  intros Hi. unfold py_index.
  destruct (Z.leb_spec 0 (Z.of_nat i)); [| lia].
  destruct (Z.ltb_spec (Z.of_nat i) (Z.of_nat n)); [| lia].
  simpl. by rewrite Nat2Z.id.
Qed.

Lemma enumerate_snoc {A} (l : list A) (x : A) :
  enumerate (l ++ [x]) = enumerate l ++ [(length l, x)].
Proof.
  unfold enumerate. rewrite length_app, seq_app.
  rewrite zip_with_app by (by rewrite length_seq). done.
Qed.

(** Popping the indices of a sublist of the cars, last index first, removes
    exactly the cars of the sublist. *)
Lemma pop_all_sublist (cs : list ref) :
  ∀ (t : list (nat * ref)) (tail : list ref),
  t `sublist_of` enumerate cs →
  ∃ cs1, pop_all (rev t.*1) (cs ++ tail) = Ok (cs1 ++ tail)
         ∧ cs ≡ₚ t.*2 ++ cs1.
Proof.
  induction cs as [|x cs IH] using rev_ind; intros t tail Hsub.
  { apply sublist_nil_r in Hsub as ->. by exists []. }
  rewrite enumerate_snoc in Hsub.
  apply sublist_app_r in Hsub as (t1 & t2 & -> & Hsub1 & Hsub2).
  apply sublist_cons_r in Hsub2 as [->%sublist_nil_r | (t' & -> & ->%sublist_nil_r)].
  - rewrite app_nil_r. destruct (IH t1 ([x] ++ tail) Hsub1) as (cs1 & Hp & Hperm).
    exists (cs1 ++ [x]). rewrite <- !app_assoc. split; [done |].
    rewrite Hperm. by rewrite app_assoc.
  - rewrite !fmap_app, rev_app_distr. simpl.
    unfold py_pop. rewrite py_index_nat by (rewrite !length_app; simpl; lia).
    rewrite <- app_assoc. simpl. rewrite delete_middle.
    destruct (IH t1 tail Hsub1) as (cs1 & Hp & Hperm).
    exists cs1. split; [done |].
    rewrite Hperm, <- !app_assoc. apply Permutation_app_head.
    apply Permutation_app_comm.
Qed.

(** One call of [Lane.update_wLC] with other lanes as neighbours. *)
Lemma Lane_update_wLC_conserves (l : nat) (adjs : option nat * option nat)
    (w w' : World) :
  adjs.1 ≠ Some l → adjs.2 ≠ Some l →
  Lane_update_wLC l adjs w = Ok (tt, w') →
  conserved (lanes (road w)) (lanes (road w')).
Proof.
  intros H1 H2. unfold Lane_update_wLC.
  intros (ps & w0 & ->%reads_Lane_get_posns & Hrun)%bind_Ok.
  apply bind_Ok in Hrun as (ln & w0 & [Hl ->]%get_lane_Ok & Hrun).
  apply bind_Ok in Hrun as (toPop & w1 & Hfirst & Hsecond).
  apply (first_loop_gains l adjs ps _ H1 H2) in Hfirst
    as (t & Hsub & -> & G1 & G2 & G3 & G4).
  rewrite Hl in G1.
  apply (second_loop_pops l _ _ _ ln G1) in Hsecond as (cs & Hpop & Hlanes).
  destruct (pop_all_sublist (cars ln) t [] Hsub) as (cs1 & Hp & Hperm).
  rewrite !app_nil_r in Hp. simpl in Hpop. rewrite Hp in Hpop.
  injection Hpop as <-.
  rewrite Hlanes. unfold conserved.
  split; [by rewrite length_insert |]. split.
  - destruct (all_cars_insert (lanes (road w1)) l ln
       (mkLane (lane_length ln)
               (num_cars ln - Z.of_nat (length (rev t.*1))) cs1) G1)
      as (rest & E1 & E2).
    rewrite E2. simpl.
    apply (Permutation_app_inv_l t.*2).
    rewrite <- G3, E1, Hperm. by rewrite app_assoc.
  - rewrite (total_num_cars_insert _ _ _ _ G1). simpl.
    rewrite G4, length_rev, !length_fmap. lia.
Qed.

Lemma py_index_nonneg (n : nat) (k : Z) (i : nat) :
  0 ≤ k → py_index n k = Ok i → i = Z.to_nat k.
Proof.
  intros Hk. unfold py_index.
  destruct ((0 <=? k) && (k <? Z.of_nat n)); [by intros [= <-] |].
  destruct (Z.ltb_spec k 0); [lia | discriminate].
Qed.

(** The neighbours [Road.update_wLC] passes for lane [i] are other lanes. *)
Lemma Road_adjs_other (i : nat) (w w' : World)
    (adjs : option nat * option nat) :
  Road_adjs i w = Ok (adjs, w') →
  w' = w ∧ adjs.1 ≠ Some i ∧ adjs.2 ≠ Some i.
Proof.
  intros Hrun. pose proof (reads_Road_adjs _ _ _ _ Hrun) as ->.
  split; [done |]. revert Hrun. unfold Road_adjs, Road_lane.
  intros (rd & w0 & [= <- <-] & Hrun)%bind_Ok.
  apply bind_Ok in Hrun as (a0 & w0 & H0 & Hrun).
  apply bind_Ok in Hrun as (a1 & w1 & H1 & [= <- _]).
  split; simpl.
  - destruct (Z.eqb_spec (Z.of_nat i) 0); simpl in H0;
      [by injection H0 as <- |].
    apply bind_Ok in H0 as (x & w2 & Hx & [= <- _]).
    apply bind_Ok in Hx as (rd & w3 & _ & [Hx _]%lift_Ok).
    apply py_index_nonneg in Hx; [| lia]. intros [= ->]. lia.
  - destruct (Z.eqb_spec (Z.of_nat i) (num_lanes (road w) - 1)); simpl in H1;
      [by injection H1 as <- |].
    apply bind_Ok in H1 as (x & w2 & Hx & [= <- _]).
    apply bind_Ok in Hx as (rd & w3 & _ & [Hx _]%lift_Ok).
    apply py_index_nonneg in Hx; [| lia]. intros [= ->]. lia.
Qed.

Lemma for_each_conserves {A} (body : A → M unit) (l : list A) :
  (∀ x w w', body x w = Ok (tt, w') →
             conserved (lanes (road w)) (lanes (road w'))) →
  ∀ w w', for_each l body w = Ok (tt, w') →
          conserved (lanes (road w)) (lanes (road w')).
Proof.
  intros Hbody. induction l as [|x l IH]; intros w w'.
  { intros [= <-]. apply conserved_refl. }
  cbn [for_each]. intros ([] & w1 & H1 & H2)%bind_Ok.
  eapply conserved_trans; [by eapply Hbody | by apply IH].
Qed.

(** One tick with lane changes. *)
Lemma Road_update_wLC_conserves (w w' : World) :
  Road_update_wLC w = Ok (tt, w') →
  conserved (lanes (road w)) (lanes (road w')).
Proof.
  unfold Road_update_wLC. intros (rd & w0 & [= <- <-] & Hrun)%bind_Ok.
  revert Hrun. apply for_each_conserves. clear.
  intros i w w' (adjs & w0 & Hadjs & Hrun)%bind_Ok.
  apply Road_adjs_other in Hadjs as (-> & H1 & H2).
  apply bind_Ok in Hrun as ([] & w1 & Hlane & Hcrash).
  apply keeps_road_Road_crash_wLC in Hcrash. rewrite Hcrash.
  by apply (Lane_update_wLC_conserves i adjs).
Qed.

(** C3: after any number of calls of [Road.update_wLC] that complete, the
    lanes of the road hold the same car objects as before, each as often as
    before: none is lost and none duplicated; so the number of cars in the
    lists is the same, and so is the sum of the counters [num_cars]. *)
Theorem lane_changes_conserve_cars (n : nat) (w w' : World) :
  repeat_m n Road_update_wLC w = Ok (tt, w') →
  all_cars (lanes (road w')) ≡ₚ all_cars (lanes (road w))
  ∧ length (all_cars (lanes (road w'))) = length (all_cars (lanes (road w)))
  ∧ total_num_cars (lanes (road w')) = total_num_cars (lanes (road w))
  ∧ (NoDup (all_cars (lanes (road w))) → NoDup (all_cars (lanes (road w')))).
Proof.
  intros Hrun.
  assert (Hc : conserved (lanes (road w)) (lanes (road w'))).
  { revert w Hrun. induction n as [|n IH]; intros w.
    - intros [= <-]. apply conserved_refl.
    - cbn [repeat_m]. intros ([] & w1 & H1 & H2)%bind_Ok.
      eapply conserved_trans; [by apply Road_update_wLC_conserves | by apply IH]. }
  destruct Hc as (_ & Hperm & Hnum).
  split; [done |]. split; [by rewrite Hperm |]. split; [done |].
  by rewrite Hperm.
Qed.

Lemma lane_changes_conserve_cars_witness :
  ∃ w', repeat_m 2 Road_update_wLC Examples.merge = Ok (tt, w')
        ∧ all_cars (lanes (road w')) ≡ₚ all_cars (lanes (road Examples.merge))
        ∧ length (all_cars (lanes (road w')))
          = length (all_cars (lanes (road Examples.merge)))
        ∧ total_num_cars (lanes (road w'))
          = total_num_cars (lanes (road Examples.merge))
        ∧ (NoDup (all_cars (lanes (road Examples.merge)))
           → NoDup (all_cars (lanes (road w')))).
Proof.
  eexists. split; [vm_compute; reflexivity |].
  apply (lane_changes_conserve_cars 2 Examples.merge).
  vm_compute; reflexivity.
Defined.

(** ** Supplements *)

(** A call of [Car.update_wLC] that returns true has changed no car object
    and drawn no random number: the transfer leaves the position and the
    velocity of the car as they were. *)
Lemma Car_update_wLC_true_keeps_heap (self : ref) (p_ahead road_len : Z)
    (adjs : option nat * option nat) (w w' : World) :
  Car_update_wLC self p_ahead road_len adjs w = Ok (true, w') →
  heap w' = heap w ∧ cursor w' = cursor w.
Proof.
  unfold Car_update_wLC.
  intros (c & w0 & [= <- <-] & Hrun)%bind_Ok.
  destruct (truthy _).
  { apply bind_Ok in Hrun as ([] & w1 & H1 & Hrun).
    apply bind_Ok in Hrun as ([] & w2 & H2 & [=]). }
  apply bind_Ok in Hrun as (m & w1 & [_ ->]%lift_Ok & Hrun).
  apply bind_Ok in Hrun as (ls & w1 & ->%reads_side_space & Hrun).
  apply bind_Ok in Hrun as (rs & w1 & ->%reads_side_space & Hrun).
  destruct (_ =? _).
  { apply bind_Ok in Hrun as ([] & w1 & H1 & [=]). }
  destruct (_ =? _).
  { apply bind_Ok in Hrun as ([] & w1 & H1 & [= <-]).
    by apply move_to_keeps_heap in H1. }
  destruct (_ =? _); [| discriminate].
  apply bind_Ok in Hrun as ([] & w1 & H1 & [= <-]).
  by apply move_to_keeps_heap in H1.
Qed.

Lemma cond_set_vel (b : bool) (c : ref) (v : Z) (w w' : World) :
  (if b then set_vel c v else mret tt) w = Ok (tt, w') →
  heap w' c = mkCar (posn (heap w c)) (if b then v else vel (heap w c))
                    (crash_timer (heap w c)).
Proof.
  destruct b; unfold_m; intros [= <-]; simpl.
  - by rewrite Nat.eqb_refl.
  - by destruct (heap w c).
Qed.

(** The velocity after [Car.update] of a car that is not crashed, with
    [gap] the distance to [p_ahead] as the method computes it: it stays at
    most 5, it is at least 0 when the gap is at least 1, and at least -1
    when the gap is 0. *)
Lemma Car_update_velocity (self : ref) (p_ahead road_len : Z) (w w' : World) :
  crash_timer (heap w self) = 0 →
  Car_update self p_ahead road_len w = Ok (tt, w') →
  (vel (heap w self) ≤ 5 → vel (heap w' self) ≤ 5)
  ∧ (0 ≤ vel (heap w self) →
     1 ≤ (if p_ahead <? posn (heap w self) then p_ahead + road_len
          else p_ahead) - posn (heap w self) →
     0 ≤ vel (heap w' self))
  ∧ (-1 ≤ vel (heap w self) →
     0 ≤ (if p_ahead <? posn (heap w self) then p_ahead + road_len
          else p_ahead) - posn (heap w self) →
     -1 ≤ vel (heap w' self)).
Proof.
  intros Hct. unfold Car_update.
  rewrite (bind_eq _ _ w w (heap w self)) by reflexivity.
  rewrite (truthy_zero _ Hct).
  intros ([] & w1 & H1 & Hrun)%bind_Ok. apply cond_set_vel in H1.
  apply bind_Ok in Hrun as (c1 & w0 & [= <- <-] & Hrun).
  apply bind_Ok in Hrun as ([] & w2 & H2 & Hrun). apply cond_set_vel in H2.
  apply bind_Ok in Hrun as (c2 & w0 & [= <- <-] & Hrun).
  apply bind_Ok in Hrun as ([] & w3 & H3 & Hrun).
  assert (H3' : vel (heap w3 self) = vel (heap w2 self)
                ∨ 0 < vel (heap w2 self)
                  ∧ vel (heap w3 self) = vel (heap w2 self) - 1).
  { destruct (Z.ltb_spec 0 (vel (heap w2 self))).
    - apply bind_Ok in H3 as (u & w0 & [= <- <-] & H3).
      apply cond_set_vel in H3. simpl in H3. rewrite H3.
      destruct (Qltb _ _); simpl; auto.
    - injection H3 as <-. by left. }
  apply bind_Ok in Hrun as (c3 & w0 & [= <- <-] & Hrun).
  apply bind_Ok in Hrun as (p' & w0 & [_ ->]%lift_Ok & Hrun).
  unfold_m. injection Hrun as <-. simpl. rewrite Nat.eqb_refl. simpl.
  rewrite H2 in H3'. simpl in H3'. rewrite !H1 in H3'. simpl in H3'.
  set (g := (if p_ahead <? posn (heap w self) then p_ahead + road_len
             else p_ahead) - posn (heap w self)) in *.
  destruct (Z.ltb_spec (vel (heap w self)) 5);
    destruct (Z.ltb_spec g (vel (heap w self) + 1));
    destruct (Z.ltb_spec g (vel (heap w self))); lia.
Qed.

(** * Further properties of the code *)

(** ** The neighbour search in general *)

Lemma circular_distance (p q len : Z) :
  0 <= p < len → 0 <= q < len →
  (p - q) mod len = if 0 <=? p - q then p - q else p - q + len.
Proof.
  intros Hp Hq. destruct (Z.leb_spec 0 (p - q)).
  - apply Z.mod_small. lia.
  - symmetry. apply (Z.mod_unique _ _ (-1)); lia.
Qed.

(** One iteration of either loop: with [d] the circular distance of the car
    looked at, the pair changes exactly when the car is not at the subject's
    position and [d] is smaller than the minimum so far. *)
Lemma search_step (d len m : Z) (o : option ref) (c : ref) :
  - len < d < len → m <= len →
  (if (0 <? d) && (d <? m) then (d, Some c)
   else if (0 <? d + len) && (d + len <? m) then (d + len, Some c)
        else (m, o))
  = if negb (d =? 0) && (d mod len <? m) then (d mod len, Some c) else (m, o).
Proof.
  intros Hd Hm.
  destruct (Z.eqb_spec d 0) as [-> | Hne]; simpl.
  { rewrite Z.add_0_l. destruct (Z.ltb_spec len m); [lia |].
    by rewrite andb_false_r. }
  destruct (Z.ltb_spec 0 d); simpl.
  - rewrite Z.mod_small by lia.
    destruct (Z.ltb_spec d m); [done |].
    destruct (Z.ltb_spec 0 (d + len)); simpl; [| done].
    destruct (Z.ltb_spec (d + len) m); [lia | done].
  - assert (d mod len = d + len) as ->.
    { symmetry. apply (Z.mod_unique _ _ (-1)); lia. }
    destruct (Z.ltb_spec 0 (d + len)); [| lia]. done.
Qed.

(** Both loops of [ahead_behind] are this fold, with [dist c] the difference
    of positions the loop computes for the car [c]: it ends with no car when
    every car is at the subject's position, and otherwise with a car of the
    list that is not at the subject's position and whose circular distance
    is the smallest. *)
Lemma nearest_fold (dist : ref → Z) (len : Z) (cs : list ref) :
  0 < len → (∀ c, c ∈ cs → - len < dist c < len) →
  let r := foldl (λ (st : Z * option ref) (c : ref),
                    if (0 <? dist c) && (dist c <? st.1) then (dist c, Some c)
                    else if (0 <? dist c + len) && (dist c + len <? st.1)
                         then (dist c + len, Some c)
                         else st) (len, None) cs in
  r.1 <= len
  ∧ match r.2 with
    | None => r.1 = len ∧ ∀ c, c ∈ cs → dist c = 0
    | Some b =>
        b ∈ cs ∧ dist b ≠ 0 ∧ r.1 = dist b mod len
        ∧ ∀ c, c ∈ cs → dist c ≠ 0 → dist b mod len <= dist c mod len
    end.
Proof.
  intros Hlen. induction cs as [|x cs IH] using rev_ind; intros Hd.
  { simpl. split; [lia |]. split; [done |].
    intros c Hc. by apply elem_of_nil in Hc. }
  rewrite foldl_app. cbn [foldl].
  destruct IH as [Hle Hr].
  { intros c Hc. apply Hd. apply elem_of_app. by left. }
  set (r := foldl _ (len, None) cs) in *.
  assert (Hx : - len < dist x < len).
  { apply Hd. apply elem_of_app. right. by apply list_elem_of_singleton. }
  destruct r as [m o]. cbn [fst snd] in *.
  rewrite (search_step (dist x) len m o x Hx Hle).
  assert (Hpos : dist x ≠ 0 → 0 < dist x mod len).
  { intros Hne. pose proof (Z.mod_pos_bound (dist x) len Hlen).
    destruct (Z.eq_dec (dist x mod len) 0) as [E|]; [| lia].
    apply Z.mod_divide in E; [| lia]. destruct E as [k E].
    assert (k <= -1 ∨ k = 0 ∨ 1 <= k) as [Hk | [-> | Hk]] by lia; [nia | lia | nia]. }
  destruct (Z.eqb_spec (dist x) 0) as [E0 | Hne]; cbn [negb andb].
  - cbn [fst snd]. split; [done |]. destruct o as [b|].
    + destruct Hr as (Hb & Hbne & Hm & Hmin).
      split; [apply elem_of_app; by left |]. split; [done |].
      split; [done |]. intros c [Hc | ->%list_elem_of_singleton]%elem_of_app Hcne;
        [by apply Hmin | done].
    + destruct Hr as [Hm Hall]. split; [done |].
      intros c [Hc | ->%list_elem_of_singleton]%elem_of_app; [by apply Hall | done].
  - destruct (Z.ltb_spec (dist x mod len) m) as [Hlt | Hge]; cbn [fst snd].
    + split; [lia |].
      split; [apply elem_of_app; right; by apply list_elem_of_singleton |].
      split; [done |]. split; [done |].
      intros c [Hc | ->%list_elem_of_singleton]%elem_of_app Hcne; [| lia].
      destruct o as [b|].
      * destruct Hr as (_ & _ & Hm & Hmin). specialize (Hmin c Hc Hcne). lia.
      * exfalso. apply Hcne. by apply Hr.
    + split; [done |]. destruct o as [b|].
      * destruct Hr as (Hb & Hbne & Hm & Hmin).
        split; [apply elem_of_app; by left |]. split; [done |].
        split; [done |].
        intros c [Hc | ->%list_elem_of_singleton]%elem_of_app Hcne;
          [by apply Hmin | lia].
      * destruct Hr as [Hm _].
        pose proof (Z.mod_pos_bound (dist x) len Hlen). lia.
Qed.

Lemma behind_loop_nearest (h : ref → Car) (p len : Z) (cs : list ref) :
  0 < len → 0 <= p < len → (∀ c, c ∈ cs → 0 <= posn (h c) < len) →
  match (behind_loop h p len cs).2 with
  | None => ∀ c, c ∈ cs → posn (h c) = p
  | Some b =>
      b ∈ cs ∧ posn (h b) ≠ p
      ∧ ∀ c, c ∈ cs → posn (h c) ≠ p →
          (p - posn (h b)) mod len <= (p - posn (h c)) mod len
  end.
Proof.
  intros Hlen Hp Hall.
  destruct (nearest_fold (λ c, p - posn (h c)) len cs Hlen) as [_ Hb].
  { intros c Hc. specialize (Hall c Hc). simpl. lia. }
  unfold behind_loop, behind_step.
  destruct (foldl _ _ _).2 as [b|].
  - destruct Hb as (Hin & Hne & _ & Hmin). split; [done |].
    split; [lia |]. intros c Hc Hcne. apply Hmin; [done | lia].
  - destruct Hb as [_ Hb]. intros c Hc. specialize (Hb c Hc). simpl in Hb. lia.
Qed.

Lemma ahead_loop_nearest (h : ref → Car) (p len : Z) (cs : list ref) :
  0 < len → 0 <= p < len → (∀ c, c ∈ cs → 0 <= posn (h c) < len) →
  match (ahead_loop h p len cs).2 with
  | None => ∀ c, c ∈ cs → posn (h c) = p
  | Some a =>
      a ∈ cs ∧ posn (h a) ≠ p
      ∧ ∀ c, c ∈ cs → posn (h c) ≠ p →
          (posn (h a) - p) mod len <= (posn (h c) - p) mod len
  end.
Proof.
  intros Hlen Hp Hall.
  destruct (nearest_fold (λ c, posn (h c) - p) len cs Hlen) as [_ Ha].
  { intros c Hc. specialize (Hall c Hc). simpl. lia. }
  unfold ahead_loop, ahead_step.
  destruct (foldl _ _ _).2 as [a|].
  - destruct Ha as (Hin & Hne & _ & Hmin). split; [done |].
    split; [lia |]. intros c Hc Hcne. apply Hmin; [done | lia].
  - destruct Ha as [_ Ha]. intros c Hc. specialize (Ha c Hc). simpl in Ha. lia.
Qed.



(** X2: under the same conditions, the evaluation of a side in
    [Car.update_wLC] raises [AttributeError] exactly when every car of the
    adjacent lane is at the subject's position (a single car alongside is
    enough, as is an empty lane); as soon as one car is elsewhere it returns
    the state unchanged and a space that is the sentinel [-1] or a distance
    of [1 .. len - 1]. *)
Theorem side_space_outcome (w : World) (self : ref) (l : nat) (len : Z)
    (ln : Lane) :
  0 < len → on_road len (heap w self) →
  lanes (road w) !! l = Some ln →
  Forall (λ c, on_road len (heap w c)) (cars ln) →
  (side_space self len (Some l) w = Raise AttributeError
   ↔ ∀ c, c ∈ cars ln → posn (heap w c) = posn (heap w self))
  ∧ ((∃ c, c ∈ cars ln ∧ posn (heap w c) ≠ posn (heap w self)) →
     ∃ s, side_space self len (Some l) w = Ok (s, w)
          ∧ (s = -1 ∨ 0 < s < len)).
Proof.
  intros Hlen Hself Hl Hall. unfold on_road in *.
  rewrite Forall_forall in Hall.
  pose proof (behind_loop_nearest (heap w) _ len (cars ln) Hlen Hself Hall) as Hb.
  pose proof (ahead_loop_nearest (heap w) _ len (cars ln) Hlen Hself Hall) as Ha.
  pose proof (ahead_behind_eq self l len w ln Hl) as Hab.
  destruct (behind_loop _ _ _ _).2 as [b|] eqn:Eb.
  - destruct Hb as (Hbin & Hbne & _).
    destruct (ahead_loop _ _ _ _).2 as [a|] eqn:Ea.
    2:{ exfalso. apply Hbne. by apply Ha. }
    destruct Ha as (Hain & Hane & _).
    rewrite (side_space_eq self len l w b a) by (done || lia).
    split.
    + split; [discriminate |]. intros Hsame. exfalso. apply Hbne. by apply Hsame.
    + intros _. eexists. split; [done |].
      destruct (behind_test _ _ _); [right | by left].
      pose proof (Z.mod_pos_bound (posn (heap w a) - posn (heap w self)) len Hlen).
      destruct (Z.eq_dec ((posn (heap w a) - posn (heap w self)) mod len) 0)
        as [E|]; [| lia].
      pose proof (Hall a Hain) as Hra.
      rewrite circular_distance in E by done.
      destruct (_ <=? _); lia.
  - assert (Hfail : side_space self len (Some l) w = Raise AttributeError).
    { unfold side_space. by rewrite (bind_eq _ _ _ _ _ Hab). }
    split; [by split |].
    intros (c & Hc & Hne). exfalso. apply Hne. by apply Hb.
Qed.

Lemma side_space_outcome_witness :
  (side_space 0%nat 20 (Some 1%nat) MoreExamples.beside = Raise AttributeError
   ↔ ∀ c, c ∈ [1%nat] →
          posn (heap MoreExamples.beside c) = posn (heap MoreExamples.beside 0%nat))
  ∧ ((∃ c, c ∈ [1%nat]
           ∧ posn (heap MoreExamples.beside c) ≠ posn (heap MoreExamples.beside 0%nat)) →
     ∃ s, side_space 0%nat 20 (Some 1%nat) MoreExamples.beside
          = Ok (s, MoreExamples.beside)
          ∧ (s = -1 ∨ 0 < s < 20)).
Proof.
  apply (side_space_outcome MoreExamples.beside 0%nat 1%nat 20
           (mkLane 20 1 [1%nat])).
  - lia.
  - by apply (bool_decide_unpack _).
  - reflexivity.
  - by apply (bool_decide_unpack _).
Defined.

(** Two cars side by side in neighbouring lanes: the tick with lane changes
    fails on the first of them. *)
Example beside_tick_fails :
  valid_draws 20 1 MoreExamples.beside_draws = true
  ∧ run_view Road_update_wLC MoreExamples.beside = Raise AttributeError.
Proof. split; vm_compute; reflexivity. Qed.

(** ** Lane.add_car *)

Lemma insert_by_posn_sorted (h : ref → Car) (x : ref) (l : list ref) :
  StronglySorted (posn_le h) l →
  StronglySorted (posn_le h) (insert_by_posn h x l).
Proof.
  induction 1 as [|y l Hl IH Hy]; simpl; [by repeat constructor |].
  destruct (Z.leb_spec (posn (h x)) (posn (h y))) as [Hxy | Hxy].
  - constructor; [by constructor |]. constructor; [done |].
    eapply Forall_impl; [exact Hy |]. unfold posn_le. simpl. intros; lia.
  - constructor; [done |]. rewrite insert_by_posn_perm.
    constructor; [unfold posn_le; lia | done].
Qed.

Lemma sorted_by_posn_sorted (h : ref → Car) (l : list ref) :
  StronglySorted (posn_le h) (sorted_by_posn h l).
Proof.
  unfold sorted_by_posn. induction l as [|x l IH]; simpl; [constructor |].
  by apply insert_by_posn_sorted.
Qed.

(** The sort is stable: the cars at any one position keep their order. *)
Lemma insert_by_posn_filter (h : ref → Car) (k : Z) (x : ref) (l : list ref) :
  filter (λ a, posn (h a) = k) (insert_by_posn h x l)
  = filter (λ a, posn (h a) = k) (x :: l).
Proof.
  induction l as [|y l IH]; simpl; [done |].
  destruct (Z.leb_spec (posn (h x)) (posn (h y))) as [Hxy | Hxy]; [done |].
  rewrite (filter_cons _ y), IH, !filter_cons.
  repeat case_decide; try done; lia.
Qed.

Lemma sorted_by_posn_filter (h : ref → Car) (k : Z) (l : list ref) :
  filter (λ a, posn (h a) = k) (sorted_by_posn h l)
  = filter (λ a, posn (h a) = k) l.
Proof.
  unfold sorted_by_posn. induction l as [|x l IH]; simpl; [done |].
  by rewrite insert_by_posn_filter, !filter_cons, IH.
Qed.

(** Sorting a sorted list with one more car at its end puts the car behind
    the cars that are not ahead of it. *)
Lemma sorted_by_posn_snoc (h : ref → Car) (car : ref) (l : list ref) :
  StronglySorted (posn_le h) l →
  ∃ l1 l2, l = l1 ++ l2 ∧ sorted_by_posn h (l ++ [car]) = l1 ++ car :: l2
           ∧ Forall (λ a, posn (h a) <= posn (h car)) l1
           ∧ Forall (λ a, posn (h car) < posn (h a)) l2.
Proof.
  unfold sorted_by_posn.
  induction 1 as [|y l Hl IH Hy]; simpl.
  { exists [], []. by repeat split. }
  destruct IH as (l1 & l2 & -> & -> & H1 & H2).
  apply Forall_app in Hy as [Hy1 Hy2].
  destruct l1 as [|z l1]; simpl.
  - destruct (Z.leb_spec (posn (h y)) (posn (h car))) as [Hle | Hgt].
    + exists [y], l2. repeat split; [by repeat constructor | done].
    + exists [], (y :: l2).
      assert (insert_by_posn h y l2 = y :: l2) as ->.
      { destruct l2 as [|z l2]; simpl; [done |].
        apply Forall_cons in Hy2 as [Hyz _]. unfold posn_le in Hyz.
        by destruct (Z.leb_spec (posn (h y)) (posn (h z))); [| lia]. }
      repeat split; [constructor | by constructor].
  - apply Forall_cons in Hy1 as [Hyz Hy1]. unfold posn_le in Hyz.
    destruct (Z.leb_spec (posn (h y)) (posn (h z))); [| lia].
    exists (y :: z :: l1), l2. repeat split; [| done].
    constructor; [| done]. apply Forall_cons in H1 as [Hz _]. lia.
Qed.

(** X3: [Lane.add_car] succeeds on a lane of the road; afterwards the list
    of the lane holds the car and the cars it held, in non-decreasing order
    of position, the cars at one position in the order they had (the new car
    last); the counter [num_cars], the length of the lane, the other lanes
    and all car objects are as before.  If the list was in order, the car
    has been put in behind the cars that are not ahead of it, and the others
    have kept their order. *)
Theorem add_car_sorted (w : World) (l : nat) (car : ref) (ln : Lane) :
  lanes (road w) !! l = Some ln →
  ∃ cs,
    Lane_add_car l car w
    = Ok (tt, with_lanes w (<[l := mkLane (lane_length ln) (num_cars ln) cs]>
                              (lanes (road w))))
    ∧ cs ≡ₚ car :: cars ln
    ∧ StronglySorted (posn_le (heap w)) cs
    ∧ (∀ k, filter (λ a, posn (heap w a) = k) cs
            = filter (λ a, posn (heap w a) = k) (cars ln ++ [car]))
    ∧ (StronglySorted (posn_le (heap w)) (cars ln) →
       ∃ l1 l2, cars ln = l1 ++ l2 ∧ cs = l1 ++ car :: l2
                ∧ Forall (λ a, posn (heap w a) <= posn (heap w car)) l1
                ∧ Forall (λ a, posn (heap w car) < posn (heap w a)) l2).
Proof.
  intros Hl. pose proof (lookup_lt_Some _ _ _ Hl) as Hlt.
  exists (sorted_by_posn (heap w) (cars ln ++ [car])). split.
  { unfold Lane_add_car.
    rewrite (bind_eq _ _ _ _ _ (get_lane_eq _ _ _ Hl)).
    rewrite (bind_eq _ _ _ _ _ (set_cars_eq _ _ _ _ Hl)).
    set (ln1 := mkLane (lane_length ln) (num_cars ln) (cars ln ++ [car])).
    set (w2 := with_lanes w (<[l := ln1]> (lanes (road w)))).
    assert (Hl2 : lanes (road w2) !! l = Some ln1)
      by (by apply list_lookup_insert_eq).
    rewrite (bind_eq _ _ _ _ _ (get_lane_eq _ _ _ Hl2)).
    rewrite (bind_eq _ _ w2 w2 (heap w)) by reflexivity.
    rewrite (set_cars_eq _ _ _ _ Hl2). simpl.
    by rewrite list_insert_insert_eq. }
  split; [by rewrite sorted_by_posn_perm, Permutation_app_comm |].
  split; [apply sorted_by_posn_sorted |].
  split; [intros k; apply sorted_by_posn_filter |].
  apply sorted_by_posn_snoc.
Qed.

Lemma add_car_sorted_witness :
  ∃ cs,
    Lane_add_car 0%nat 2%nat Examples.merge
    = Ok (tt, with_lanes Examples.merge
                (<[0%nat := mkLane 20 2 cs]> (lanes (road Examples.merge))))
    ∧ cs ≡ₚ 2%nat :: [0; 1]%nat
    ∧ StronglySorted (posn_le (heap Examples.merge)) cs
    ∧ (∀ k, filter (λ a, posn (heap Examples.merge a) = k) cs
            = filter (λ a, posn (heap Examples.merge a) = k) ([0; 1]%nat ++ [2%nat]))
    ∧ (StronglySorted (posn_le (heap Examples.merge)) [0; 1]%nat →
       ∃ l1 l2, [0; 1]%nat = l1 ++ l2 ∧ cs = l1 ++ 2%nat :: l2
                ∧ Forall (λ a, posn (heap Examples.merge a)
                               <= posn (heap Examples.merge 2%nat)) l1
                ∧ Forall (λ a, posn (heap Examples.merge 2%nat)
                               < posn (heap Examples.merge a)) l2).
Proof.
  apply (add_car_sorted Examples.merge 0%nat 2%nat (mkLane 20 2 [0; 1]%nat)).
  reflexivity.
Defined.

(** ** What a computation leaves alone *)

Lemma preserves_bind {A B C} (f : World → C) (m : M A) (k : A → M B) :
  preserves f m → (∀ a, preserves f (k a)) → preserves f (m ≫= k).
Proof.
  intros Hm Hk w b w' (a & w1 & H1 & H2)%bind_Ok.
  apply Hm in H1. apply Hk in H2. congruence.
Qed.

Lemma preserves_reads {A C} (f : World → C) (m : M A) :
  reads m → preserves f m.
Proof. intros H w a w' Hm. by rewrite (H _ _ _ Hm). Qed.

Lemma preserves_set_car_other (c r : ref) (x : Car) :
  r ≠ c → preserves (λ w, heap w r) (set_car c x).
Proof.
  intros Hne w a w' [= _ <-]. cbn.
  destruct (Nat.eqb_spec r c); [by subst | done].
Qed.

Lemma preserves_set_car_tape (c : ref) (x : Car) :
  preserves tape (set_car c x).
Proof. by intros w a w' [= _ <-]. Qed.

Lemma preserves_set_car_cursor (c : ref) (x : Car) :
  preserves cursor (set_car c x).
Proof. by intros w a w' [= _ <-]. Qed.

Lemma preserves_random_heap (r : ref) :
  preserves (λ w, heap w r) random_random.
Proof. by intros w a w' [= _ <-]. Qed.

Lemma preserves_random_tape : preserves tape random_random.
Proof. by intros w a w' [= _ <-]. Qed.

Lemma preserves_for_each {A C} (f : World → C) (body : A → M unit)
    (l : list A) :
  (∀ x, preserves f (body x)) → preserves f (for_each l body).
Proof.
  intros Hbody. induction l as [|x l IH]; intros w a w'.
  - by intros [= _ <-].
  - cbn [for_each]. revert w a w'. apply preserves_bind; [apply Hbody | done].
Qed.

Ltac preserves_tac :=
  repeat first
    [ apply preserves_bind; [| intros ?]
    | apply preserves_set_car_tape
    | apply preserves_set_car_cursor
    | apply preserves_random_tape
    | apply preserves_for_each; intros ?
    | match goal with
      | H : ?r ≠ ?c |- preserves (λ w, heap w ?r) (set_car ?c _) =>
          apply (preserves_set_car_other c r _ H)
      | |- preserves (λ w, heap w ?r) random_random =>
          apply (preserves_random_heap r)
      | |- preserves _ (if ?b then _ else _) => destruct b
      | |- preserves _ (match ?b with _ => _ end) => destruct b
      end
    | solve [apply preserves_reads; auto with reads_db] ].

(** ** Car.update as a whole *)

Lemma Car_update_others (self r : ref) (p_ahead road_len : Z) :
  r ≠ self → preserves (λ w, heap w r) (Car_update self p_ahead road_len).
Proof.
  intros Hne. unfold Car_update, set_vel, set_posn, set_crash_timer.
  preserves_tac.
Qed.

Lemma Car_update_tape (self : ref) (p_ahead road_len : Z) :
  preserves tape (Car_update self p_ahead road_len).
Proof.
  unfold Car_update, set_vel, set_posn, set_crash_timer. preserves_tac.
Qed.

Lemma truthy_nonzero (z : Z) : z ≠ 0 → truthy z = true.
Proof. unfold truthy. intros. by destruct (Z.eqb_spec z 0). Qed.

(** [Car.update] raises only when the car is not crashed and the road
    length is 0. *)
Lemma Car_update_Ok (self : ref) (p_ahead road_len : Z) (w : World) :
  crash_timer (heap w self) ≠ 0 ∨ road_len ≠ 0 →
  ∃ w', Car_update self p_ahead road_len w = Ok (tt, w').
Proof.
  intros Hok. unfold Car_update.
  rewrite (bind_eq _ _ w w (heap w self)) by reflexivity.
  destruct (truthy (crash_timer (heap w self))) eqn:Ht.
  { unfold_m. eauto. }
  assert (Hr : road_len ≠ 0).
  { destruct Hok as [Hc | Hr]; [| done]. by rewrite truthy_nonzero in Ht. }
  unfold set_vel, set_posn, set_crash_timer. unfold_m.
  unfold py_mod. destruct (Z.eqb_spec road_len 0); [done |].
  repeat (match goal with
          | |- context [if ?b then _ else _] => destruct b
          end; cbn); eauto.
Qed.

(** The car itself after [Car.update]. *)
Lemma Car_update_self (self : ref) (p_ahead road_len : Z) (w w' : World) :
  Car_update self p_ahead road_len w = Ok (tt, w') →
  let c := heap w self in
  if truthy (crash_timer c)
  then heap w' self = mkCar (posn c) 0 (crash_timer c - 1)
       ∧ cursor w' = cursor w
  else road_len ≠ 0
       ∧ ∃ v, (v = braked c p_ahead road_len
               ∨ 0 < braked c p_ahead road_len
                 ∧ v = braked c p_ahead road_len - 1)
              ∧ heap w' self
                = mkCar ((posn c + v) mod road_len) v (crash_timer c).
Proof.
  unfold Car_update.
  rewrite (bind_eq _ _ w w (heap w self)) by reflexivity. cbv zeta.
  destruct (truthy (crash_timer (heap w self))) eqn:Ht.
  { unfold_m. intros [= <-]. simpl. by rewrite Nat.eqb_refl. }
  intros ([] & w1 & H1 & Hrun)%bind_Ok. apply cond_set_vel in H1.
  apply bind_Ok in Hrun as (c1 & w0 & [= <- <-] & Hrun).
  apply bind_Ok in Hrun as ([] & w2 & H2 & Hrun). apply cond_set_vel in H2.
  apply bind_Ok in Hrun as (c2 & w0 & [= <- <-] & Hrun).
  apply bind_Ok in Hrun as ([] & w3 & H3 & Hrun).
  assert (H3' : heap w3 self = heap w2 self
                ∨ 0 < vel (heap w2 self)
                  ∧ heap w3 self = mkCar (posn (heap w2 self))
                                         (vel (heap w2 self) - 1)
                                         (crash_timer (heap w2 self))).
  { destruct (Z.ltb_spec 0 (vel (heap w2 self))).
    - apply bind_Ok in H3 as (u & w0 & [= <- <-] & H3).
      apply cond_set_vel in H3. simpl in H3. rewrite H3.
      destruct (Qltb _ _); [right | left]; [done |].
      by destruct (heap w2 self).
    - injection H3 as <-. by left. }
  apply bind_Ok in Hrun as (c3 & w0 & [= <- <-] & Hrun).
  apply bind_Ok in Hrun as (p' & w0 & [Hmod ->]%lift_Ok & Hrun).
  unfold py_mod in Hmod. destruct (Z.eqb_spec road_len 0); [done |].
  injection Hmod as <-. split; [done |].
  unfold set_posn, set_car, get_car, mbind, M_bind in Hrun.
  injection Hrun as <-. simpl. rewrite Nat.eqb_refl.
  rewrite H2 in H3'. simpl in H3'. rewrite !H1 in H3'. simpl in H3'.
  fold (accelerated (heap w self)) in H3'.
  fold (gap_ahead (heap w self) p_ahead road_len) in H3'.
  fold (braked (heap w self) p_ahead road_len) in H3'.
  destruct H3' as [-> | [Hpos ->]]; simpl; eauto.
Qed.

(** ** Road.update and the lanes *)

Lemma Lane_update_road (l : nat) : preserves road (Lane_update l).
Proof.
  unfold Lane_update.
  apply preserves_bind; [apply preserves_reads, reads_Lane_get_posns | intros ps].
  apply preserves_bind; [apply preserves_reads, reads_get_lane | intros ln].
  apply preserves_for_each. intros ic.
  apply preserves_bind; [apply preserves_reads, reads_get_lane | intros ln'].
  apply preserves_bind; [apply preserves_reads, reads_lift | intros k].
  apply preserves_bind; [apply preserves_reads, reads_lift | intros p].
  apply keeps_road_Car_update.
Qed.

Lemma Road_crash_road : preserves road Road_crash.
Proof.
  unfold Road_crash.
  apply preserves_bind; [apply keeps_road_random | intros u].
  destruct (Qltb _ _); [| apply preserves_reads, reads_ret].
  apply preserves_bind; [apply preserves_reads, reads_get_road | intros rd].
  apply preserves_bind; [apply keeps_road_randint | intros ind].
  apply preserves_bind; [apply preserves_reads, reads_Road_lane | intros k].
  apply keeps_road_Lane_crash_car.
Qed.

(** X4: calls of [Road.update] that complete leave the road object as it
    was: no car has changed lanes, no list has been reordered and no counter
    has changed. *)
Theorem Road_update_keeps_lanes (n : nat) (w w' : World) :
  repeat_m n Road_update w = Ok (tt, w') → road w' = road w.
Proof.
  revert w. induction n as [|n IH]; intros w.
  { by intros [= <-]. }
  cbn [repeat_m]. intros ([] & w1 & H1 & H2)%bind_Ok.
  rewrite (IH _ H2). revert H1. unfold Road_update.
  apply (preserves_bind road);
    [apply preserves_reads, reads_get_road | intros rd].
  apply preserves_for_each. intros l.
  apply preserves_bind; [apply Lane_update_road | intros _].
  apply Road_crash_road.
Qed.

Lemma Road_update_keeps_lanes_witness :
  ∃ w', repeat_m 2 Road_update Examples.jam = Ok (tt, w')
        ∧ road w' = road Examples.jam.
Proof.
  eexists. split; [vm_compute; reflexivity |].
  apply (Road_update_keeps_lanes 2 Examples.jam). vm_compute; reflexivity.
Defined.

(** ** Lane.crash_car *)

Lemma Lane_crash_car_inv (l : nat) (w w' : World) :
  Lane_crash_car l w = Ok (tt, w') →
  ∃ ln c,
    lanes (road w) !! l = Some ln ∧ 0 < num_cars ln ∧ c ∈ cars ln
    ∧ heap w' c = mkCar (posn (heap w c)) (vel (heap w c)) 30
    ∧ (∀ r, r ≠ c → heap w' r = heap w r)
    ∧ road w' = road w ∧ cursor w' = S (cursor w).
Proof.
  unfold Lane_crash_car.
  intros (ln & w0 & [Hl ->]%get_lane_Ok & Hrun)%bind_Ok.
  apply bind_Ok in Hrun as (ind & w1 & Hind & Hrun).
  unfold random_randint in Hind.
  destruct (Z.ltb_spec (num_cars ln - 1) 0); [discriminate |].
  apply bind_Ok in Hind as (u & w2 & [= <- <-] & [= <- <-]).
  rewrite (bind_eq _ _ _ _ ln) in Hrun by (by apply get_lane_Ok).
  apply bind_Ok in Hrun as (c & w3 & [Hget ->]%lift_Ok & Hset).
  exists ln, c. split; [done |]. split; [lia |]. split.
  { unfold py_getitem in Hget. destruct (py_index _ _); [| discriminate].
    destruct (cars ln !! a) eqn:E; [| discriminate]. injection Hget as <-.
    by apply list_elem_of_lookup_2 in E. }
  unfold set_crash_timer, set_car, get_car, mbind, M_bind in Hset.
  injection Hset as <-. simpl. rewrite Nat.eqb_refl.
  repeat split. intros r Hr. by destruct (Nat.eqb_spec r c).
Qed.

(** X5: a call of [Lane.crash_car] that completes has set the crash timer
    of one car of the lane to 30 and changed nothing else of it; the other
    car objects and the road are as before and one random number has been
    used.  The lane's counter was positive. *)
Theorem crash_car_effect (l : nat) (w w' : World) :
  Lane_crash_car l w = Ok (tt, w') →
  ∃ ln c,
    lanes (road w) !! l = Some ln ∧ 0 < num_cars ln ∧ c ∈ cars ln
    ∧ heap w' c = mkCar (posn (heap w c)) (vel (heap w c)) 30
    ∧ (∀ r, r ≠ c → heap w' r = heap w r)
    ∧ road w' = road w ∧ cursor w' = S (cursor w).
Proof. apply Lane_crash_car_inv. Qed.

Lemma crash_car_effect_witness :
  ∃ w' ln c,
    Lane_crash_car 0%nat Examples.jam = Ok (tt, w')
    ∧ lanes (road Examples.jam) !! 0%nat = Some ln ∧ 0 < num_cars ln
    ∧ c ∈ cars ln
    ∧ heap w' c = mkCar (posn (heap Examples.jam c)) (vel (heap Examples.jam c)) 30
    ∧ (∀ r, r ≠ c → heap w' r = heap Examples.jam r)
    ∧ road w' = road Examples.jam ∧ cursor w' = S (cursor Examples.jam).
Proof.
  eexists.
  destruct (crash_car_effect 0%nat Examples.jam _ eq_refl) as (ln & c & H).
  exists ln, c. split; [reflexivity | exact H].
Defined.

(** ** The two outcomes of Car.update_wLC *)

Lemma Car_update_wLC_crashed (w : World) (self : ref) (p_ahead road_len : Z)
    (adjs : option nat * option nat) :
  truthy (crash_timer (heap w self)) = true →
  Car_update_wLC self p_ahead road_len adjs w
  = (Car_update self p_ahead road_len;; mret false) w.
Proof.
  intros Ht. unfold Car_update_wLC, Car_update, set_vel, set_crash_timer.
  unfold_m. by rewrite Ht.
Qed.

Lemma Car_update_wLC_cases (self : ref) (p_ahead road_len : Z)
    (adjs : option nat * option nat) (w w' : World) (b : bool) :
  Car_update_wLC self p_ahead road_len adjs w = Ok (b, w') →
  (b = false ∧ Car_update self p_ahead road_len w = Ok (tt, w'))
  ∨ (b = true ∧ crash_timer (heap w self) = 0
     ∧ ∃ a, (adjs.1 = Some a ∨ adjs.2 = Some a)
            ∧ move_to (Some a) self w = Ok (tt, w')).
Proof.
  destruct (truthy (crash_timer (heap w self))) eqn:Ht.
  { rewrite (Car_update_wLC_crashed _ _ _ _ _ Ht).
    intros ([] & w1 & H1 & [= <- <-])%bind_Ok. by left. }
  assert (Hct : crash_timer (heap w self) = 0).
  { unfold truthy in Ht. by destruct (Z.eqb_spec (crash_timer (heap w self)) 0). }
  rewrite (Car_update_wLC_running _ _ _ _ _ Hct).
  intros (m & w1 & [_ ->]%lift_Ok & Hrun)%bind_Ok.
  apply bind_Ok in Hrun as (ls & w1 & ->%reads_side_space & Hrun).
  apply bind_Ok in Hrun as (rs & w1 & ->%reads_side_space & Hrun).
  destruct (Z.eqb_spec m (max3 rs ls m)).
  { apply bind_Ok in Hrun as ([] & w1 & H1 & [= <- <-]). by left. }
  destruct (Z.eqb_spec rs (max3 rs ls m)).
  { apply bind_Ok in Hrun as ([] & w1 & H1 & [= <- <-]).
    destruct adjs.2 as [a|] eqn:Ha; [| discriminate]. right. eauto 10. }
  destruct (Z.eqb_spec ls (max3 rs ls m)); [| unfold max3 in *; lia].
  apply bind_Ok in Hrun as ([] & w1 & H1 & [= <- <-]).
  destruct adjs.1 as [a|] eqn:Ha; [| discriminate]. right. eauto 10.
Qed.

(** X6: a call of [Car.update_wLC] that completes has done one of two
    things: it has run [Car.update] on the car and returned false, or, for a
    car that is not crashed, it has transferred the car to one of the two
    neighbour lanes ([add_car] and the increment of [num_cars]) and returned
    true.  The last [elif] never falls through. *)
Theorem update_wLC_updates_or_moves (self : ref) (p_ahead road_len : Z)
    (adjs : option nat * option nat) (w w' : World) (b : bool) :
  Car_update_wLC self p_ahead road_len adjs w = Ok (b, w') →
  (b = false ∧ Car_update self p_ahead road_len w = Ok (tt, w'))
  ∨ (b = true ∧ crash_timer (heap w self) = 0
     ∧ ∃ a, (adjs.1 = Some a ∨ adjs.2 = Some a)
            ∧ move_to (Some a) self w = Ok (tt, w')).
Proof. apply Car_update_wLC_cases. Qed.

Lemma update_wLC_updates_or_moves_witness :
  ∃ w',
    Car_update_wLC 0%nat 6 20 (None, Some 1%nat) Examples.right = Ok (true, w')
    ∧ ((true = false ∧ Car_update 0%nat 6 20 Examples.right = Ok (tt, w'))
       ∨ (true = true ∧ crash_timer (heap Examples.right 0%nat) = 0
          ∧ ∃ a, ((@None nat, Some 1%nat).1 = Some a
                  ∨ (@None nat, Some 1%nat).2 = Some a)
                 ∧ move_to (Some a) 0%nat Examples.right = Ok (tt, w'))).
Proof.
  eexists. split; [vm_compute; reflexivity |].
  apply (update_wLC_updates_or_moves 0%nat 6 20 (None, Some 1%nat)
           Examples.right).
  vm_compute; reflexivity.
Defined.

(** ** Invariants of the loops *)

Lemma for_each_inv {A} (I : World → Prop) (P : A → Prop) (body : A → M unit)
    (l : list A) :
  (∀ x w w', P x → I w → body x w = Ok (tt, w') → I w') →
  Forall P l →
  ∀ w w', I w → for_each l body w = Ok (tt, w') → I w'.
Proof.
  intros Hbody. induction 1 as [|x l Hx Hl IH]; intros w w' HI.
  { by intros [= <-]. }
  cbn [for_each]. intros ([] & w1 & H1 & H2)%bind_Ok.
  eapply IH; [| exact H2]. by eapply Hbody.
Qed.

Lemma for_acc_inv {A St} (I : World → Prop) (P : A → Prop)
    (body : A → St → M St) (l : list A) :
  (∀ x s s' w w', P x → I w → body x s w = Ok (s', w') → I w') →
  Forall P l →
  ∀ s s' w w', I w → for_acc l s body w = Ok (s', w') → I w'.
Proof.
  intros Hbody. induction 1 as [|x l Hx Hl IH]; intros s s' w w' HI.
  { by intros [= _ <-]. }
  cbn [for_acc]. intros (s1 & w1 & H1 & H2)%bind_Ok.
  eapply IH; [| exact H2]. by eapply Hbody.
Qed.

Lemma repeat_m_inv (I : World → Prop) (m : M unit) (n : nat) :
  (∀ w w', I w → m w = Ok (tt, w') → I w') →
  ∀ w w', I w → repeat_m n m w = Ok (tt, w') → I w'.
Proof.
  intros Hm. induction n as [|n IH]; intros w w' HI.
  { by intros [= <-]. }
  cbn [repeat_m]. intros ([] & w1 & H1 & H2)%bind_Ok.
  eapply IH; [| exact H2]. by eapply Hm.
Qed.

Lemma Forall_enumerate_snd {A} (P : A → Prop) (l : list A) :
  Forall P l → Forall (λ ic : nat * A, P ic.2) (enumerate l).
Proof.
  intros Hl. apply Forall_forall. intros [i x] Hin.
  unfold enumerate in Hin. apply elem_of_zip_r in Hin. simpl.
  rewrite Forall_forall in Hl. by apply Hl.
Qed.

(** ** Invariants of the lanes under lane changes *)

Section LaneInvariant.

(** [Q] is a property of a lane that accepting a car of [U] and popping a
    car both keep. *)
Variable U : ref → Prop.
Variable Q : Lane → Prop.
Hypothesis Q_add : ∀ ln c cs,
  Q ln → U c → cs ≡ₚ c :: cars ln →
  Q (mkLane (lane_length ln) (num_cars ln + 1) cs).
Hypothesis Q_pop : ∀ ln i,
  Q ln → (i < length (cars ln))%nat →
  Q (mkLane (lane_length ln) (num_cars ln - 1) (delete i (cars ln))).
Hypothesis Q_cars : ∀ ln, Q ln → Forall U (cars ln).

Lemma move_to_Q (a : nat) (self : ref) (w w' : World) :
  U self → Forall Q (lanes (road w)) →
  move_to (Some a) self w = Ok (tt, w') →
  Forall Q (lanes (road w')).
Proof.
  intros Hs HQ (ln & cs & Hl & Hcs & ->)%move_to_lanes.
  apply Forall_insert; [done |].
  apply (Q_add ln self cs); [| done | done].
  rewrite Forall_forall in HQ. apply HQ. by eapply list_elem_of_lookup_2.
Qed.

Lemma Car_update_wLC_Q (self : ref) (p_ahead road_len : Z)
    (adjs : option nat * option nat) (w w' : World) (b : bool) :
  U self → Forall Q (lanes (road w)) →
  Car_update_wLC self p_ahead road_len adjs w = Ok (b, w') →
  Forall Q (lanes (road w')).
Proof.
  intros Hs HQ [[_ H] | (_ & _ & a & _ & H)]%Car_update_wLC_cases.
  - apply keeps_road_Car_update in H. by rewrite H.
  - by eapply move_to_Q.
Qed.

Lemma pop_step_Q (l i : nat) (w w' : World) :
  Forall Q (lanes (road w)) →
  (ln ← get_lane l;
   cs ← lift (py_pop (cars ln) (Z.of_nat i));
   set_cars l cs;;
   ln ← get_lane l;
   set_num_cars l (num_cars ln - 1)) w = Ok (tt, w') →
  Forall Q (lanes (road w')).
Proof.
  intros HQ (ln & w0 & [Hl ->]%get_lane_Ok & Hrun)%bind_Ok.
  pose proof (lookup_lt_Some _ _ _ Hl) as Hlt.
  apply bind_Ok in Hrun as (cs & w0 & [Hpop ->]%lift_Ok & Hrun).
  rewrite (bind_eq _ _ _ _ _ (set_cars_eq _ _ _ _ Hl)) in Hrun.
  set (ln1 := mkLane (lane_length ln) (num_cars ln) cs) in *.
  set (w2 := with_lanes w (<[l := ln1]> (lanes (road w)))) in *.
  assert (Hl2 : lanes (road w2) !! l = Some ln1)
    by (by apply list_lookup_insert_eq).
  rewrite (bind_eq _ _ _ _ _ (get_lane_eq _ _ _ Hl2)) in Hrun.
  rewrite (set_num_cars_eq _ _ _ _ Hl2) in Hrun.
  injection Hrun as <-. simpl. rewrite list_insert_insert_eq.
  apply Forall_insert; [done |].
  unfold py_pop in Hpop.
  destruct (py_index (length (cars ln)) (Z.of_nat i)) as [j|] eqn:Hj;
    [| discriminate].
  injection Hpop as <-.
  apply Q_pop.
  - rewrite Forall_forall in HQ. apply HQ. by eapply list_elem_of_lookup_2.
  - unfold py_index in Hj.
    destruct (Z.leb_spec 0 (Z.of_nat i)); [| lia].
    destruct (Z.ltb_spec (Z.of_nat i) (Z.of_nat (length (cars ln))));
      simpl in Hj; [injection Hj as <-; lia |].
    destruct (Z.ltb_spec (Z.of_nat i) 0); [lia | discriminate].
Qed.

Lemma Lane_update_wLC_Q (l : nat) (adjs : option nat * option nat)
    (w w' : World) :
  Forall Q (lanes (road w)) →
  Lane_update_wLC l adjs w = Ok (tt, w') →
  Forall Q (lanes (road w')).
Proof.
  intros HQ. unfold Lane_update_wLC.
  intros (ps & w0 & ->%reads_Lane_get_posns & Hrun)%bind_Ok.
  apply bind_Ok in Hrun as (ln & w0 & [Hl ->]%get_lane_Ok & Hrun).
  apply bind_Ok in Hrun as (toPop & w1 & Hfirst & Hsecond).
  assert (Hs : Forall U (cars ln)).
  { apply Q_cars. rewrite Forall_forall in HQ. apply HQ.
    by eapply list_elem_of_lookup_2. }
  assert (HQ1 : Forall Q (lanes (road w1))).
  { revert Hfirst.
    apply (for_acc_inv (λ w, Forall Q (lanes (road w)))
             (λ ic : nat * ref, U ic.2)); [| | done].
    - intros ic tp tp' v v' Hic HQv Hbody.
      apply bind_Ok in Hbody as (ln' & v0 & ->%reads_get_lane & Hbody).
      apply bind_Ok in Hbody as (k & v0 & [_ ->]%lift_Ok & Hbody).
      apply bind_Ok in Hbody as (p & v0 & [_ ->]%lift_Ok & Hbody).
      apply bind_Ok in Hbody as (b & v0 & Hcar & [= _ <-]).
      by eapply Car_update_wLC_Q.
    - by apply Forall_enumerate_snd. }
  revert Hsecond.
  apply (for_each_inv (λ w, Forall Q (lanes (road w))) (λ _, True));
    [| by apply Forall_true | done].
  intros i v v' _ HQv Hbody. by eapply pop_step_Q.
Qed.

Lemma Road_update_wLC_Q (w w' : World) :
  Forall Q (lanes (road w)) →
  Road_update_wLC w = Ok (tt, w') →
  Forall Q (lanes (road w')).
Proof.
  intros HQ. unfold Road_update_wLC.
  intros (rd & w0 & [= <- <-] & Hrun)%bind_Ok. revert Hrun.
  apply (for_each_inv (λ w, Forall Q (lanes (road w))) (λ _, True));
    [| by apply Forall_true | done].
  intros i v v' _ HQv Hbody.
  apply bind_Ok in Hbody as (adjs & v0 & ->%reads_Road_adjs & Hbody).
  apply bind_Ok in Hbody as ([] & v1 & Hlane & Hcrash).
  apply keeps_road_Road_crash_wLC in Hcrash. rewrite Hcrash.
  by eapply Lane_update_wLC_Q.
Qed.

End LaneInvariant.

(** X7: if the counter [num_cars] of every lane is the length of its list,
    it still is after any number of calls of [Road.update_wLC] that
    complete: every transfer appends one car and adds one, every pop removes
    one car and subtracts one. *)
Theorem lane_changes_keep_counters (n : nat) (w w' : World) :
  counters_ok (lanes (road w)) →
  repeat_m n Road_update_wLC w = Ok (tt, w') →
  counters_ok (lanes (road w')).
Proof.
  unfold counters_ok.
  apply (repeat_m_inv
           (λ w, Forall (λ ln, num_cars ln = Z.of_nat (length (cars ln)))
                        (lanes (road w)))).
  apply (Road_update_wLC_Q (λ _, True)).
  - intros ln c cs Hq _ Hcs. simpl. rewrite Hcs. simpl. lia.
  - intros ln i Hq Hi. simpl. rewrite length_delete; [lia |].
    by apply lookup_lt_is_Some.
  - intros ln _. by apply Forall_true.
Qed.

Lemma lane_changes_keep_counters_witness :
  ∃ w', repeat_m 2 Road_update_wLC Examples.merge = Ok (tt, w')
        ∧ counters_ok (lanes (road w')).
Proof.
  eexists. split; [vm_compute; reflexivity |].
  apply (lane_changes_keep_counters 2 Examples.merge).
  - repeat constructor.
  - vm_compute; reflexivity.
Defined.

(** ** The bounds on positions, velocities and crash timers *)

Lemma preserves_set_lane_heap (l : nat) (x : Lane) :
  preserves heap (set_lane l x).
Proof. by intros w a w' [= _ <-]. Qed.

Lemma py_getitem_elem {A} (l : list A) (k : Z) (x : A) :
  py_getitem l k = Ok x → x ∈ l.
Proof.
  unfold py_getitem. destruct (py_index _ _) as [i|]; [| discriminate].
  destruct (l !! i) eqn:E; [| discriminate]. intros [= <-].
  by eapply list_elem_of_lookup_2.
Qed.

Section Bounds.

Variable len : Z.
Variable U : ref → Prop.
Hypothesis len_pos : 0 < len.

Lemma Car_update_heap_ok (self : ref) (p_ahead : Z) (w w' : World) :
  0 <= p_ahead < len → heap_ok len U w →
  Car_update self p_ahead len w = Ok (tt, w') →
  heap_ok len U w'.
Proof.
  intros Hp Hok Hrun r Hr.
  destruct (decide (r = self)) as [-> | Hne].
  2:{ rewrite (Car_update_others self r p_ahead len Hne _ _ _ Hrun).
      by apply Hok. }
  specialize (Hok self Hr). destruct Hok as (Hpos & Hvel & Hct).
  pose proof (Car_update_self _ _ _ _ _ Hrun) as Hself. cbv zeta in Hself.
  unfold truthy in Hself.
  destruct (Z.eqb_spec (crash_timer (heap w self)) 0) as [E | E];
    cbn [negb] in Hself.
  - destruct Hself as (_ & v & Hv & ->). unfold car_ok. simpl.
    split; [by apply Z.mod_pos_bound |]. split; [| lia].
    unfold braked, gap_ahead, accelerated in Hv.
    destruct (Z.ltb_spec p_ahead (posn (heap w self)));
      destruct (Z.ltb_spec (vel (heap w self)) 5);
      destruct (_ <? _) eqn:Hb in Hv;
      try (apply Z.ltb_lt in Hb); try (apply Z.ltb_ge in Hb); lia.
  - destruct Hself as [-> _]. unfold car_ok. simpl. lia.
Qed.

Lemma crash_car_heap_ok (l : nat) (w w' : World) :
  heap_ok len U w → Lane_crash_car l w = Ok (tt, w') → heap_ok len U w'.
Proof.
  intros Hok (ln & c & _ & _ & _ & Hc & Hothers & _)%Lane_crash_car_inv r Hr.
  destruct (decide (r = c)) as [-> | Hne].
  - rewrite Hc. destruct (Hok c Hr) as (? & ? & ?).
    unfold car_ok. simpl. lia.
  - rewrite (Hothers r Hne). by apply Hok.
Qed.

Lemma lane_in_lookup (w : World) (l : nat) (ln : Lane) :
  Forall (lane_in len U) (lanes (road w)) →
  lanes (road w) !! l = Some ln → lane_in len U ln.
Proof.
  intros Hall Hl. rewrite Forall_forall in Hall. apply Hall.
  by eapply list_elem_of_lookup_2.
Qed.

(** The positions [get_posns] returns are cells of the road. *)
Lemma snapshot_on_road (w : World) (ln : Lane) :
  lane_in len U ln → heap_ok len U w →
  Forall (λ p, 0 <= p < len) ((λ c, posn (heap w c)) <$> cars ln).
Proof.
  intros [_ Hcars] Hok. apply Forall_fmap.
  eapply Forall_impl; [exact Hcars |]. intros c Hc. by apply Hok.
Qed.

Lemma Lane_get_posns_eq (l : nat) (w w' : World) (ps : list Z) :
  Lane_get_posns l w = Ok (ps, w') →
  w' = w ∧ ∃ ln, lanes (road w) !! l = Some ln
                 ∧ ps = (λ c, posn (heap w c)) <$> cars ln.
Proof.
  intros Hrun. pose proof (reads_Lane_get_posns _ _ _ _ Hrun) as ->.
  split; [done |]. unfold Lane_get_posns in Hrun.
  apply bind_Ok in Hrun as (ln & w0 & [Hl ->]%get_lane_Ok & Hrun).
  apply bind_Ok in Hrun as (h & w0 & [= <- <-] & [= <-]). eauto.
Qed.

Lemma Lane_update_road_ok (l : nat) (w w' : World) :
  road_ok len U w → Lane_update l w = Ok (tt, w') → road_ok len U w'.
Proof.
  intros [Hlanes Hheap]. unfold Lane_update.
  intros (ps & w0 & [-> (ln0 & Hl0 & ->)]%Lane_get_posns_eq & Hrun)%bind_Ok.
  apply bind_Ok in Hrun as (ln & w0 & [Hl ->]%get_lane_Ok & Hrun).
  pose proof (snapshot_on_road w ln0 (lane_in_lookup _ _ _ Hlanes Hl0) Hheap)
    as Hps.
  revert Hrun.
  apply (for_each_inv (road_ok len U) (λ _, True));
    [| by apply Forall_true | done].
  intros ic v v' _ [Hlv Hhv] Hbody.
  apply bind_Ok in Hbody as (ln' & v0 & [Hl' ->]%get_lane_Ok & Hbody).
  apply bind_Ok in Hbody as (k & v0 & [_ ->]%lift_Ok & Hbody).
  apply bind_Ok in Hbody as (p & v0 & [Hp ->]%lift_Ok & Hbody).
  destruct (lane_in_lookup _ _ _ Hlv Hl') as [Hlen _]. rewrite Hlen in Hbody.
  apply py_getitem_elem in Hp. rewrite Forall_forall in Hps.
  split.
  - by rewrite (keeps_road_Car_update _ _ _ _ _ _ Hbody).
  - eapply Car_update_heap_ok; [| done | exact Hbody]. by apply Hps.
Qed.

Lemma lane_in_add (ln : Lane) (c : ref) (cs : list ref) :
  lane_in len U ln → U c → cs ≡ₚ c :: cars ln →
  lane_in len U (mkLane (lane_length ln) (num_cars ln + 1) cs).
Proof.
  intros [Hlen Hcars] Hc Hcs. split; [done |]. simpl.
  rewrite Hcs. by constructor.
Qed.

Lemma lane_in_pop (ln : Lane) (i : nat) :
  lane_in len U ln → (i < length (cars ln))%nat →
  lane_in len U (mkLane (lane_length ln) (num_cars ln - 1)
                        (delete i (cars ln))).
Proof.
  intros [Hlen Hcars] _. split; [done |]. simpl. by apply Forall_delete.
Qed.

Lemma lane_in_cars (ln : Lane) : lane_in len U ln → Forall U (cars ln).
Proof. by intros [_ H]. Qed.

Lemma Car_update_wLC_road_ok (self : ref) (p_ahead : Z)
    (adjs : option nat * option nat) (w w' : World) (b : bool) :
  0 <= p_ahead < len → U self → road_ok len U w →
  Car_update_wLC self p_ahead len adjs w = Ok (b, w') →
  road_ok len U w'.
Proof.
  intros Hp Hs [Hlanes Hheap]
    [[_ H] | (_ & _ & a & _ & H)]%Car_update_wLC_cases.
  - split; [by rewrite (keeps_road_Car_update _ _ _ _ _ _ H) |].
    by eapply Car_update_heap_ok.
  - split.
    + eapply (move_to_Q U (lane_in len U) lane_in_add); [exact Hs | | exact H].
      done.
    + apply move_to_keeps_heap in H as [Hh _]. unfold heap_ok.
      by rewrite Hh.
Qed.

Lemma pop_step_heap (l i : nat) :
  preserves heap
    (ln ← get_lane l;
     cs ← lift (py_pop (cars ln) (Z.of_nat i));
     set_cars l cs;;
     ln ← get_lane l;
     set_num_cars l (num_cars ln - 1)).
Proof.
  unfold set_cars, set_num_cars.
  repeat first
    [ apply preserves_bind; [| intros ?]
    | apply preserves_set_lane_heap
    | solve [apply preserves_reads; auto with reads_db] ].
Qed.

Lemma Lane_update_wLC_road_ok (l : nat) (adjs : option nat * option nat)
    (w w' : World) :
  road_ok len U w → Lane_update_wLC l adjs w = Ok (tt, w') →
  road_ok len U w'.
Proof.
  intros [Hlanes Hheap]. unfold Lane_update_wLC.
  intros (ps & w0 & [-> (ln0 & Hl0 & ->)]%Lane_get_posns_eq & Hrun)%bind_Ok.
  apply bind_Ok in Hrun as (ln & w0 & [Hl ->]%get_lane_Ok & Hrun).
  pose proof (lane_in_lookup _ _ _ Hlanes Hl0) as Hin0.
  pose proof (snapshot_on_road w ln0 Hin0 Hheap) as Hps.
  assert (ln = ln0) as -> by congruence.
  apply bind_Ok in Hrun as (toPop & w1 & Hfirst & Hsecond).
  assert (Hok1 : road_ok len U w1).
  { revert Hfirst.
    apply (for_acc_inv (road_ok len U) (λ ic : nat * ref, U ic.2));
      [| by apply Forall_enumerate_snd, lane_in_cars | done].
    intros ic tp tp' v v' Hic [Hlv Hhv] Hbody.
    apply bind_Ok in Hbody as (ln' & v0 & [Hl' ->]%get_lane_Ok & Hbody).
    apply bind_Ok in Hbody as (k & v0 & [_ ->]%lift_Ok & Hbody).
    apply bind_Ok in Hbody as (p & v0 & [Hp ->]%lift_Ok & Hbody).
    apply bind_Ok in Hbody as (b & v0 & Hcar & [= _ <-]).
    destruct (lane_in_lookup _ _ _ Hlv Hl') as [Hlen _]. rewrite Hlen in Hcar.
    apply py_getitem_elem in Hp. rewrite Forall_forall in Hps.
    eapply Car_update_wLC_road_ok; [| exact Hic | | exact Hcar];
      [by apply Hps | done]. }
  revert Hsecond.
  apply (for_each_inv (road_ok len U) (λ _, True));
    [| by apply Forall_true | done].
  intros i v v' _ [Hlv Hhv] Hbody. split.
  - by eapply (pop_step_Q (lane_in len U) lane_in_pop).
  - unfold heap_ok. by rewrite (pop_step_heap l i _ _ _ Hbody).
Qed.

Lemma Road_crash_road_ok (w w' : World) :
  road_ok len U w → Road_crash w = Ok (tt, w') → road_ok len U w'.
Proof.
  intros [Hlanes Hheap] Hrun. split.
  { by rewrite (Road_crash_road _ _ _ Hrun). }
  unfold Road_crash in Hrun.
  apply bind_Ok in Hrun as (u & w0 & [= <- <-] & Hrun).
  destruct (Qltb _ _); [| by injection Hrun as <-].
  apply bind_Ok in Hrun as (rd & w0 & [= <- <-] & Hrun).
  apply bind_Ok in Hrun as (ind & w1 & Hind & Hrun).
  unfold random_randint in Hind. destruct (_ <? _); [discriminate |].
  apply bind_Ok in Hind as (u' & w2 & [= <- <-] & [= <- <-]).
  apply bind_Ok in Hrun as (k & w3 & ->%reads_Road_lane & Hrun).
  eapply crash_car_heap_ok; [| exact Hrun]. exact Hheap.
Qed.

Lemma Road_crash_wLC_road_ok (w w' : World) :
  road_ok len U w → Road_crash_wLC w = Ok (tt, w') → road_ok len U w'.
Proof.
  intros [Hlanes Hheap] Hrun. split.
  { by rewrite (keeps_road_Road_crash_wLC _ _ _ Hrun). }
  unfold Road_crash_wLC in Hrun.
  apply bind_Ok in Hrun as (u & w0 & [= <- <-] & Hrun).
  destruct (Qltb _ _); [| by injection Hrun as <-].
  apply bind_Ok in Hrun as (rd & w0 & [= <- <-] & Hrun).
  apply bind_Ok in Hrun as (ind & w1 & Hind & Hrun).
  unfold random_randint in Hind. destruct (_ <? _); [discriminate |].
  apply bind_Ok in Hind as (u' & w2 & [= <- <-] & [= <- <-]).
  apply bind_Ok in Hrun as (k & w3 & ->%reads_Road_lane & Hrun).
  apply bind_Ok in Hrun as (ln & w3 & ->%reads_get_lane & Hrun).
  destruct (_ <? _); [| by injection Hrun as <-].
  eapply crash_car_heap_ok; [| exact Hrun]. exact Hheap.
Qed.

Lemma Road_update_road_ok (w w' : World) :
  road_ok len U w → Road_update w = Ok (tt, w') → road_ok len U w'.
Proof.
  intros Hok. unfold Road_update.
  intros (rd & w0 & [= <- <-] & Hrun)%bind_Ok. revert Hrun.
  apply (for_each_inv (road_ok len U) (λ _, True));
    [| by apply Forall_true | done].
  intros l v v' _ Hv ([] & v1 & H1 & H2)%bind_Ok.
  eapply Road_crash_road_ok; [| exact H2]. by eapply Lane_update_road_ok.
Qed.

Lemma Road_update_wLC_road_ok (w w' : World) :
  road_ok len U w → Road_update_wLC w = Ok (tt, w') → road_ok len U w'.
Proof.
  intros Hok. unfold Road_update_wLC.
  intros (rd & w0 & [= <- <-] & Hrun)%bind_Ok. revert Hrun.
  apply (for_each_inv (road_ok len U) (λ _, True));
    [| by apply Forall_true | done].
  intros l v v' _ Hv (adjs & v0 & ->%reads_Road_adjs & Hbody)%bind_Ok.
  apply bind_Ok in Hbody as ([] & v1 & H1 & H2).
  eapply Road_crash_wLC_road_ok; [| exact H2].
  by eapply Lane_update_wLC_road_ok.
Qed.

End Bounds.

Lemma elem_of_all_cars (c : ref) (ls : list Lane) :
  c ∈ all_cars ls ↔ ∃ ln, ln ∈ ls ∧ c ∈ cars ln.
Proof.
  unfold all_cars. induction ls as [|x ls IH]; simpl.
  - split; [by intros ?%elem_of_nil | by intros (? & ?%elem_of_nil & _)].
  - rewrite elem_of_app, IH. split.
    + intros [H | (ln & H1 & H2)].
      * exists x. split; [by left | done].
      * exists ln. split; [by right | done].
    + intros (ln & [-> | H1]%elem_of_cons & H2); [by left |].
      right. eauto.
Qed.

Lemma road_ok_intro (len : Z) (w : World) :
  Forall (λ ln, lane_length ln = len) (lanes (road w)) →
  Forall (λ c, car_ok len (heap w c)) (all_cars (lanes (road w))) →
  road_ok len (λ c, c ∈ all_cars (lanes (road w))) w.
Proof.
  intros Hlen Hcars. split.
  - apply Forall_forall. intros ln Hln. split.
    + rewrite Forall_forall in Hlen. by apply Hlen.
    + apply Forall_forall. intros c Hc. apply elem_of_all_cars. eauto.
  - intros r Hr. rewrite Forall_forall in Hcars. by apply Hcars.
Qed.

Lemma road_ok_elim (len : Z) (U : ref → Prop) (w : World) :
  road_ok len U w →
  Forall (λ ln, lane_length ln = len) (lanes (road w))
  ∧ Forall (λ c, car_ok len (heap w c)) (all_cars (lanes (road w))).
Proof.
  intros [Hlanes Hheap]. rewrite Forall_forall in Hlanes. split.
  - apply Forall_forall. intros ln Hln. by apply Hlanes.
  - apply Forall_forall. intros c (ln & Hln & Hc)%elem_of_all_cars.
    apply Hheap. destruct (Hlanes ln Hln) as [_ Hcs].
    rewrite Forall_forall in Hcs. by apply Hcs.
Qed.

(** X8: on a road whose lanes all have the positive length [len], if every
    car of every lane has its position in [0 .. len - 1], its velocity in
    [-1 .. 5] and its crash timer in [0 .. 30], the same holds after any
    number of calls of [Road.update] that complete. *)
Theorem Road_update_keeps_bounds (len : Z) (n : nat) (w w' : World) :
  0 < len →
  Forall (λ ln, lane_length ln = len) (lanes (road w)) →
  Forall (λ c, car_ok len (heap w c)) (all_cars (lanes (road w))) →
  repeat_m n Road_update w = Ok (tt, w') →
  Forall (λ ln, lane_length ln = len) (lanes (road w'))
  ∧ Forall (λ c, car_ok len (heap w' c)) (all_cars (lanes (road w'))).
Proof.
  intros Hlen Hlanes Hcars Hrun.
  apply (road_ok_elim len (λ c, c ∈ all_cars (lanes (road w)))).
  revert Hrun. apply repeat_m_inv; [| by apply road_ok_intro].
  intros v v'. by apply Road_update_road_ok.
Qed.

(** X9: the same bounds are kept by any number of calls of
    [Road.update_wLC] that complete. *)
Theorem Road_update_wLC_keeps_bounds (len : Z) (n : nat) (w w' : World) :
  0 < len →
  Forall (λ ln, lane_length ln = len) (lanes (road w)) →
  Forall (λ c, car_ok len (heap w c)) (all_cars (lanes (road w))) →
  repeat_m n Road_update_wLC w = Ok (tt, w') →
  Forall (λ ln, lane_length ln = len) (lanes (road w'))
  ∧ Forall (λ c, car_ok len (heap w' c)) (all_cars (lanes (road w'))).
Proof.
  intros Hlen Hlanes Hcars Hrun.
  apply (road_ok_elim len (λ c, c ∈ all_cars (lanes (road w)))).
  revert Hrun. apply repeat_m_inv; [| by apply road_ok_intro].
  intros v v'. by apply Road_update_wLC_road_ok.
Qed.

Lemma Road_update_keeps_bounds_witness :
  ∃ w', repeat_m 2 Road_update Examples.jam = Ok (tt, w')
        ∧ Forall (λ ln, lane_length ln = 10) (lanes (road w'))
        ∧ Forall (λ c, car_ok 10 (heap w' c)) (all_cars (lanes (road w'))).
Proof.
  eexists. split; [vm_compute; reflexivity |].
  apply (Road_update_keeps_bounds 10 2 Examples.jam).
  - lia.
  - by apply (bool_decide_unpack _).
  - by apply (bool_decide_unpack _).
  - vm_compute; reflexivity.
Defined.

Lemma Road_update_wLC_keeps_bounds_witness :
  ∃ w', repeat_m 2 Road_update_wLC Examples.merge = Ok (tt, w')
        ∧ Forall (λ ln, lane_length ln = 20) (lanes (road w'))
        ∧ Forall (λ c, car_ok 20 (heap w' c)) (all_cars (lanes (road w'))).
Proof.
  eexists. split; [vm_compute; reflexivity |].
  apply (Road_update_wLC_keeps_bounds 20 2 Examples.merge).
  - lia.
  - by apply (bool_decide_unpack _).
  - by apply (bool_decide_unpack _).
  - vm_compute; reflexivity.
Defined.

(** ** Road.update completes *)

Lemma floor_unit (u : Q) (n : Z) :
  (0 <= u)%Q → (u < 1)%Q → 0 < n → 0 <= Qfloor (u * inject_Z n) < n.
Proof.
  intros H0 H1 Hn.
  assert (Hn' : (inject_Z 0 < inject_Z n)%Q) by (by rewrite <- Zlt_Qlt).
  split.
  - change 0 with (Qfloor 0). apply Qfloor_resp_le.
    apply Qmult_le_0_compat; [done |]. by apply Qlt_le_weak.
  - rewrite Zlt_Qlt. eapply Qle_lt_trans; [apply Qfloor_le |].
    rewrite <- (Qmult_1_l (inject_Z n)) at 2.
    by apply Qmult_lt_compat_r.
Qed.

(** With the random values in [0, 1), [random.randint(a, b)] on a range
    that is not empty returns an integer of the range. *)
Lemma randint_Ok (a b : Z) (w : World) :
  a <= b → tape_in_unit w →
  ∃ x, random_randint a b w = Ok (x, after_draws 1 w) ∧ a <= x <= b.
Proof.
  intros Hab Htape. unfold random_randint.
  destruct (Z.ltb_spec b a); [lia |].
  destruct (Htape (cursor w)) as [H0 H1].
  pose proof (floor_unit _ (b - a + 1) H0 H1 ltac:(lia)).
  eexists. split; [reflexivity | lia].
Qed.

Lemma py_index_Ok (n : nat) (k : Z) :
  0 <= k < Z.of_nat n → py_index n k = Ok (Z.to_nat k).
Proof.
  intros Hk. unfold py_index.
  destruct (Z.leb_spec 0 k); [| lia].
  by destruct (Z.ltb_spec k (Z.of_nat n)); [| lia].
Qed.

Lemma py_getitem_Ok {A} (l : list A) (k : Z) :
  0 <= k < Z.of_nat (length l) → ∃ x, py_getitem l k = Ok x.
Proof.
  intros Hk. unfold py_getitem. rewrite py_index_Ok by done.
  destruct (lookup_lt_is_Some_2 l (Z.to_nat k)) as [x ->]; [lia | eauto].
Qed.

Lemma for_each_total {A} (I : World → Prop) (P : A → Prop)
    (body : A → M unit) (l : list A) :
  (∀ x w, P x → I w → ∃ w', body x w = Ok (tt, w') ∧ I w') →
  Forall P l →
  ∀ w, I w → ∃ w', for_each l body w = Ok (tt, w') ∧ I w'.
Proof.
  intros Hbody. induction 1 as [|x l Hx Hl IH]; intros w HI.
  { exists w. by split. }
  destruct (Hbody x w Hx HI) as (w1 & H1 & HI1).
  destruct (IH w1 HI1) as (w' & H2 & HI').
  exists w'. split; [| done]. cbn [for_each].
  by rewrite (bind_eq _ _ _ _ _ H1).
Qed.

Lemma Forall_enumerate_fst {A} (l : list A) :
  Forall (λ ic : nat * A, (ic.1 < length l)%nat) (enumerate l).
Proof.
  apply Forall_forall. intros [i x] Hin. unfold enumerate in Hin.
  apply elem_of_zip_l, elem_of_seq in Hin. simpl. lia.
Qed.

Lemma Lane_update_tape (l : nat) : preserves tape (Lane_update l).
Proof.
  unfold Lane_update.
  apply preserves_bind; [apply preserves_reads, reads_Lane_get_posns | intros ps].
  apply preserves_bind; [apply preserves_reads, reads_get_lane | intros ln].
  apply preserves_for_each. intros ic.
  apply preserves_bind; [apply preserves_reads, reads_get_lane | intros ln'].
  apply preserves_bind; [apply preserves_reads, reads_lift | intros k].
  apply preserves_bind; [apply preserves_reads, reads_lift | intros p].
  apply Car_update_tape.
Qed.

(** [Lane.update] on a lane whose counter is right and whose length is not
    0. *)
Lemma Lane_update_total (l : nat) (w : World) (ln : Lane) :
  lanes (road w) !! l = Some ln →
  num_cars ln = Z.of_nat (length (cars ln)) → lane_length ln ≠ 0 →
  ∃ w', Lane_update l w = Ok (tt, w').
Proof.
  intros Hl Hn Hlen. unfold Lane_update.
  assert (Hps : Lane_get_posns l w
                = Ok ((λ c, posn (heap w c)) <$> cars ln, w)).
  { unfold Lane_get_posns.
    by rewrite (bind_eq _ _ _ _ _ (get_lane_eq _ _ _ Hl)). }
  rewrite (bind_eq _ _ _ _ _ Hps).
  rewrite (bind_eq _ _ _ _ _ (get_lane_eq _ _ _ Hl)).
  set (body := λ ic : nat * ref,
         ln' ← get_lane l;
         k ← lift (py_mod (Z.of_nat ic.1 + 1) (num_cars ln'));
         p_ahead ← lift (py_getitem ((λ c, posn (heap w c)) <$> cars ln) k);
         Car_update ic.2 p_ahead (lane_length ln')).
  assert (Hbody : ∀ ic v,
    (ic.1 < length (cars ln))%nat → road v = road w →
    ∃ v', body ic v = Ok (tt, v') ∧ road v' = road w).
  2:{ destruct (for_each_total (λ v, road v = road w) _ body _ Hbody
                  (Forall_enumerate_fst (cars ln)) w eq_refl)
        as (w' & Hrun & _). exists w'. exact Hrun. }
  unfold body.
  intros [i c] v Hi Hv. simpl in Hi.
  assert (Hlv : lanes (road v) !! l = Some ln) by (by rewrite Hv).
  rewrite (bind_eq _ _ _ _ _ (get_lane_eq _ _ _ Hlv)).
  rewrite (bind_eq _ _ v v ((Z.of_nat i + 1) mod num_cars ln))
    by (apply lift_Ok; split; [apply py_mod_Ok; lia | done]).
  destruct (py_getitem_Ok ((λ c, posn (heap w c)) <$> cars ln)
              ((Z.of_nat i + 1) mod num_cars ln)) as [p Hp].
  { rewrite length_fmap, <- Hn. apply Z.mod_pos_bound. lia. }
  rewrite (bind_eq _ _ v v p) by (by apply lift_Ok).
  destruct (Car_update_Ok c p (lane_length ln) v) as [v' Hv']; [by right |].
  exists v'. split; [done |].
  by rewrite (keeps_road_Car_update _ _ _ _ _ _ Hv').
Qed.

Lemma keeps_tape_randint (a b : Z) : preserves tape (random_randint a b).
Proof.
  unfold random_randint. destruct (_ <? _).
  - by intros w x w'.
  - apply preserves_bind; [apply preserves_random_tape | intros u].
    apply preserves_reads, reads_ret.
Qed.

Lemma Lane_crash_car_tape (l : nat) : preserves tape (Lane_crash_car l).
Proof.
  unfold Lane_crash_car, set_crash_timer.
  apply preserves_bind; [apply preserves_reads, reads_get_lane | intros ln].
  apply preserves_bind; [apply keeps_tape_randint | intros ind].
  apply preserves_bind; [apply preserves_reads, reads_get_lane | intros ln'].
  apply preserves_bind; [apply preserves_reads, reads_lift | intros c].
  apply preserves_bind; [apply preserves_reads, reads_get_car | intros x].
  apply preserves_set_car_tape.
Qed.

Lemma Road_crash_tape : preserves tape Road_crash.
Proof.
  unfold Road_crash.
  apply preserves_bind; [apply preserves_random_tape | intros u].
  destruct (Qltb _ _); [| apply preserves_reads, reads_ret].
  apply preserves_bind; [apply preserves_reads, reads_get_road | intros rd].
  apply preserves_bind; [apply keeps_tape_randint | intros ind].
  apply preserves_bind; [apply preserves_reads, reads_Road_lane | intros k].
  apply Lane_crash_car_tape.
Qed.

Lemma Lane_crash_car_total (l : nat) (w : World) (ln : Lane) :
  lanes (road w) !! l = Some ln → lane_ready ln → tape_in_unit w →
  ∃ w', Lane_crash_car l w = Ok (tt, w').
Proof.
  intros Hl (_ & Hpos & Hn) Htape. unfold Lane_crash_car.
  rewrite (bind_eq _ _ _ _ _ (get_lane_eq _ _ _ Hl)).
  destruct (randint_Ok 0 (num_cars ln - 1) w) as (ind & Hind & Hrange);
    [lia | done |].
  rewrite (bind_eq _ _ _ _ _ Hind).
  rewrite (bind_eq _ _ _ _ ln) by (by apply get_lane_Ok).
  destruct (py_getitem_Ok (cars ln) ind) as [c Hc]; [lia |].
  rewrite (bind_eq _ _ _ _ c) by (by apply lift_Ok).
  unfold set_crash_timer. unfold_m. eauto.
Qed.

Lemma Road_crash_total (w : World) :
  road_ready w → (0 < length (lanes (road w)))%nat →
  ∃ w', Road_crash w = Ok (tt, w').
Proof.
  intros (Hlanes & Hnum & Htape) Hne. unfold Road_crash.
  rewrite (bind_eq _ _ w (after_draws 1 w) (tape w (cursor w)))
    by reflexivity.
  destruct (Qltb _ _); [| by eexists].
  rewrite (bind_eq _ _ _ _ (road w)) by reflexivity.
  destruct (randint_Ok 0 (num_lanes (road w) - 1) (after_draws 1 w))
    as (ind & Hind & Hrange); [lia | done |].
  rewrite (bind_eq _ _ _ _ _ Hind).
  set (w2 := after_draws 1 (after_draws 1 w)).
  assert (Hlane : Road_lane ind w2 = Ok (Z.to_nat ind, w2)).
  { unfold Road_lane. rewrite (bind_eq _ _ w2 w2 (road w)) by reflexivity.
    apply lift_Ok. split; [| done]. apply py_index_Ok. lia. }
  rewrite (bind_eq _ _ _ _ _ Hlane).
  destruct (lookup_lt_is_Some_2 (lanes (road w)) (Z.to_nat ind)) as [ln Hln];
    [lia |].
  apply (Lane_crash_car_total _ w2 ln); [done | | done].
  rewrite Forall_forall in Hlanes. apply Hlanes.
  by eapply list_elem_of_lookup_2.
Qed.

Lemma road_ready_eq (w v : World) :
  road v = road w → tape v = tape w → road_ready w → road_ready v.
Proof.
  unfold road_ready, tape_in_unit. intros -> ->. done.
Qed.

Lemma Road_update_total (w : World) :
  road_ready w →
  ∃ w', Road_update w = Ok (tt, w') ∧ road w' = road w ∧ tape w' = tape w.
Proof.
  intros Hready. unfold Road_update.
  rewrite (bind_eq _ _ w w (road w)) by reflexivity.
  set (body := λ l : nat, Lane_update l;; Road_crash).
  assert (Hbody : ∀ l v,
    (l < length (lanes (road w)))%nat →
    road v = road w ∧ tape v = tape w →
    ∃ v', body l v = Ok (tt, v') ∧ road v' = road w ∧ tape v' = tape w).
  { intros l v Hl [Hrv Htv]. unfold body.
    pose proof (road_ready_eq w v Hrv Htv Hready) as (Hlanes & Hnum & Htape).
    destruct (lookup_lt_is_Some_2 (lanes (road v)) l) as [ln Hln];
      [by rewrite Hrv |].
    assert (Hr : lane_ready ln).
    { rewrite Forall_forall in Hlanes. apply Hlanes.
      by eapply list_elem_of_lookup_2. }
    destruct Hr as (Hlen & _ & Hn).
    destruct (Lane_update_total l v ln Hln Hn Hlen) as [v1 H1].
    rewrite (bind_eq _ _ _ _ _ H1).
    pose proof (Lane_update_road l _ _ _ H1) as Hr1.
    pose proof (Lane_update_tape l _ _ _ H1) as Ht1.
    destruct (Road_crash_total v1) as [v2 H2].
    { apply (road_ready_eq w); congruence. }
    { rewrite Hr1, Hrv. lia. }
    exists v2. split; [done |].
    rewrite (Road_crash_road _ _ _ H2), (Road_crash_tape _ _ _ H2).
    split; congruence. }
  destruct (for_each_total (λ v, road v = road w ∧ tape v = tape w)
              (λ l, (l < length (lanes (road w)))%nat) body
              (seq 0 (length (lanes (road w)))) Hbody) with w
    as (w' & Hrun & Hr & Ht); [| done | eauto].
  apply Forall_forall. intros l Hl%elem_of_seq. lia.
Qed.

Lemma Road_update_repeat_total (n : nat) (w : World) :
  road_ready w →
  ∃ w', repeat_m n Road_update w = Ok (tt, w')
        ∧ road w' = road w ∧ tape w' = tape w.
Proof.
  revert w. induction n as [|n IH]; intros w Hready.
  { by exists w. }
  destruct (Road_update_total w Hready) as (w1 & H1 & Hr & Ht).
  destruct (IH w1) as (w' & H2 & Hr' & Ht'); [by apply (road_ready_eq w) |].
  exists w'. cbn [repeat_m]. rewrite (bind_eq _ _ _ _ _ H1).
  split; [done |]. split; congruence.
Qed.

(** X10: on a road that is ready (every lane with a length other than 0, at
    least one car and a counter equal to the length of its list, [num_lanes]
    equal to the number of lanes) and with random values in [0, 1), any
    number of calls of [Road.update] complete: no exception is raised,
    whatever the positions and velocities of the cars and whether or not
    crashes are injected. *)
Theorem Road_update_completes (n : nat) (w : World) :
  road_ready w → ∃ w', repeat_m n Road_update w = Ok (tt, w').
Proof.
  intros Hready.
  destruct (Road_update_repeat_total n w Hready) as (w' & H & _). eauto.
Qed.

Lemma tape_of_in_unit (l : list Q) (d : Q) (w : World) :
  tape w = tape_of l d →
  Forall (λ u, (0 <= u)%Q ∧ (u < 1)%Q) (d :: l) →
  tape_in_unit w.
Proof.
  intros Ht [Hd Hl]%Forall_cons i. rewrite Ht. unfold tape_of. clear Ht.
  revert i. induction Hl as [|u l Hu Hl IH]; intros [|i]; simpl;
    done.
Qed.

Lemma Road_update_completes_witness :
  ∃ w', repeat_m 3 Road_update Examples.jam = Ok (tt, w').
Proof.
  apply (Road_update_completes 3 Examples.jam).
  split; [by apply (bool_decide_unpack _) |]. split; [reflexivity |].
  apply (tape_of_in_unit [3#4; 1#2; 3#4; 1#4; 3#4; 1#2] (1#2));
    [reflexivity |].
  repeat constructor; by vm_compute.
Defined.

(** ** Lane.update moves every car from the positions before the pass *)

Lemma Car_update_step (self : ref) (p_ahead road_len : Z) (w w' : World) :
  Car_update self p_ahead road_len w = Ok (tt, w') →
  car_step road_len p_ahead (heap w self) (heap w' self).
Proof.
  intros H%Car_update_self. cbv zeta in H. unfold car_step.
  destruct (truthy _); [by destruct H | by destruct H as [_ H]].
Qed.

Lemma Lane_update_loop (l : nat) (ln : Lane) (ps : list Z)
    (rest : list (nat * ref)) :
  ∀ v w',
  lanes (road v) !! l = Some ln → NoDup rest.*2 →
  for_each rest (λ ic,
    ln ← get_lane l;
    k ← lift (py_mod (Z.of_nat ic.1 + 1) (num_cars ln));
    p_ahead ← lift (py_getitem ps k);
    Car_update ic.2 p_ahead (lane_length ln)) v = Ok (tt, w') →
  (∀ ic, ic ∈ rest →
     ∃ p, py_getitem ps ((Z.of_nat ic.1 + 1) mod num_cars ln) = Ok p
          ∧ car_step (lane_length ln) p (heap v ic.2) (heap w' ic.2))
  ∧ (∀ r, r ∉ rest.*2 → heap w' r = heap v r)
  ∧ road w' = road v.
Proof.
  induction rest as [|ic rest IH]; intros v w' Hl Hnd.
  { intros [= <-]. split; [by intros ? ?%elem_of_nil | done]. }
  cbn [for_each]. intros ([] & v1 & Hbody & Hrest)%bind_Ok.
  apply bind_Ok in Hbody as (ln' & v0 & [Hl' ->]%get_lane_Ok & Hbody).
  assert (ln' = ln) as -> by congruence.
  apply bind_Ok in Hbody as (k & v0 & [Hk ->]%lift_Ok & Hbody).
  apply bind_Ok in Hbody as (p & v0 & [Hp ->]%lift_Ok & Hbody).
  unfold py_mod in Hk. destruct (_ =? _); [discriminate |].
  injection Hk as <-.
  pose proof (keeps_road_Car_update _ _ _ _ _ _ Hbody) as Hroad.
  rewrite fmap_cons in Hnd. apply NoDup_cons in Hnd as [Hnotin Hnd].
  destruct (IH v1 w') as (Hsteps & Hframe & Hroad'); [by rewrite Hroad | done | done |].
  split; [| split].
  - intros ic' [-> | Hin]%elem_of_cons.
    + exists p. split; [done |]. rewrite (Hframe _ Hnotin).
      by apply Car_update_step.
    + destruct (Hsteps ic' Hin) as (p' & Hp' & Hstep).
      exists p'. split; [done |].
      rewrite <- (Car_update_others ic.2 ic'.2 p (lane_length ln)
                    ltac:(intros E; apply Hnotin; rewrite <- E;
                          by apply list_elem_of_fmap_2) _ _ _ Hbody).
      done.
  - intros r Hr. rewrite fmap_cons in Hr. apply not_elem_of_cons in Hr as [Hne Hr].
    rewrite (Hframe r Hr).
    by apply (Car_update_others ic.2 r p (lane_length ln) Hne _ _ _ Hbody).
  - congruence.
Qed.

Lemma enumerate_lookup {A} (l : list A) (i : nat) (x : A) :
  l !! i = Some x → (i, x) ∈ enumerate l.
Proof.
  intros Hi. unfold enumerate. apply list_elem_of_lookup. exists i.
  apply lookup_zip_with_Some. exists i, x. split; [done |].
  split; [| done]. apply lookup_seq. split; [done |].
  by eapply lookup_lt_Some.
Qed.

Lemma enumerate_snd {A} (l : list A) : (enumerate l).*2 = l.
Proof. unfold enumerate. apply snd_zip. rewrite length_seq. lia. Qed.

Lemma Lane_update_steps (l : nat) (w w' : World) (ln : Lane) :
  lanes (road w) !! l = Some ln →
  num_cars ln = Z.of_nat (length (cars ln)) →
  NoDup (cars ln) →
  Lane_update l w = Ok (tt, w') →
  (∀ i c, cars ln !! i = Some c →
     ∃ c_next,
       cars ln !! ((i + 1) mod length (cars ln))%nat = Some c_next
       ∧ car_step (lane_length ln) (posn (heap w c_next))
                  (heap w c) (heap w' c))
  ∧ (∀ r, r ∉ cars ln → heap w' r = heap w r)
  ∧ road w' = road w.
Proof.
  intros Hl Hn Hnd. unfold Lane_update.
  intros (ps & w0 & [-> (ln0 & Hl0 & ->)]%Lane_get_posns_eq & Hrun)%bind_Ok.
  assert (ln0 = ln) as -> by congruence.
  apply bind_Ok in Hrun as (ln' & w0 & [Hl' ->]%get_lane_Ok & Hrun).
  assert (ln' = ln) as -> by congruence.
  apply (Lane_update_loop l ln) in Hrun as (Hsteps & Hframe & Hroad);
    [| done | by rewrite enumerate_snd].
  rewrite enumerate_snd in Hframe.
  split; [| done].
  intros i c Hi.
  destruct (Hsteps (i, c) (enumerate_lookup _ _ _ Hi)) as (p & Hp & Hstep).
  simpl in Hp, Hstep.
  pose proof (lookup_lt_Some _ _ _ Hi) as Hlt.
  assert (Hk : (Z.of_nat i + 1) mod num_cars ln
               = Z.of_nat ((i + 1) mod length (cars ln))).
  { rewrite Hn, Nat2Z.inj_mod. f_equal. lia. }
  rewrite Hk in Hp. unfold py_getitem in Hp.
  rewrite py_index_nat in Hp.
  2:{ rewrite length_fmap. apply Nat.mod_upper_bound. lia. }
  rewrite list_lookup_fmap in Hp.
  destruct (cars ln !! ((i + 1) mod length (cars ln))%nat) as [c_next|] eqn:E;
    [| discriminate].
  injection Hp as <-. eauto.
Qed.

(** X11: [Lane.update] on a lane whose counter is right and whose cars are
    distinct objects updates every car once, from the state before the
    pass: the car at index [i] takes the step of [Car.update] from its own
    state before the pass, with the position before the pass of the car at
    index [(i + 1) mod n] as the position ahead.  Car objects outside the
    lane and the road are unchanged. *)
Theorem Lane_update_simultaneous (l : nat) (w w' : World) (ln : Lane) :
  lanes (road w) !! l = Some ln →
  num_cars ln = Z.of_nat (length (cars ln)) →
  NoDup (cars ln) →
  Lane_update l w = Ok (tt, w') →
  (∀ i c, cars ln !! i = Some c →
     ∃ c_next,
       cars ln !! ((i + 1) mod length (cars ln))%nat = Some c_next
       ∧ car_step (lane_length ln) (posn (heap w c_next))
                  (heap w c) (heap w' c))
  ∧ (∀ r, r ∉ cars ln → heap w' r = heap w r)
  ∧ road w' = road w.
Proof. apply Lane_update_steps. Qed.

Lemma Lane_update_simultaneous_witness :
  ∃ w',
    Lane_update 0%nat Examples.jam = Ok (tt, w')
    ∧ (∀ i c, [0; 1; 2]%nat !! i = Some c →
         ∃ c_next,
           [0; 1; 2]%nat !! ((i + 1) mod 3)%nat = Some c_next
           ∧ car_step 10 (posn (heap Examples.jam c_next))
                      (heap Examples.jam c) (heap w' c))
    ∧ (∀ r, r ∉ [0; 1; 2]%nat → heap w' r = heap Examples.jam r)
    ∧ road w' = road Examples.jam.
Proof.
  eexists. split; [vm_compute; reflexivity |].
  apply (Lane_update_simultaneous 0%nat Examples.jam _
           (mkLane 10 3 [0; 1; 2]%nat)).
  - reflexivity.
  - reflexivity.
  - by apply (bool_decide_unpack _).
  - vm_compute; reflexivity.
Defined.

(** ** Without neighbours *)

(** On a road of positive length, [Car.update_wLC] with no lane on either
    side is [Car.update], returning false. *)
Lemma Car_update_wLC_alone (self : ref) (p_ahead road_len : Z) (w : World) :
  0 < road_len →
  Car_update_wLC self p_ahead road_len (None, None) w
  = (Car_update self p_ahead road_len;; mret false) w.
Proof.
  intros Hlen.
  destruct (truthy (crash_timer (heap w self))) eqn:Ht.
  { by apply Car_update_wLC_crashed. }
  assert (Hct : crash_timer (heap w self) = 0).
  { unfold truthy in Ht. by destruct (Z.eqb_spec (crash_timer (heap w self)) 0). }
  rewrite (Car_update_wLC_running _ _ _ _ _ Hct).
  rewrite (bind_eq _ _ w w ((p_ahead - posn (heap w self)) mod road_len))
    by (apply lift_Ok; split; [apply py_mod_Ok; lia | done]).
  cbn [fst snd side_space].
  rewrite !(bind_eq _ _ w w (-1)) by reflexivity.
  pose proof (Z.mod_pos_bound (p_ahead - posn (heap w self)) road_len Hlen).
  unfold max3.
  destruct (Z.eqb_spec ((p_ahead - posn (heap w self)) mod road_len)
              (Z.max (Z.max (-1) (-1))
                     ((p_ahead - posn (heap w self)) mod road_len)));
    [done | lia].
Qed.

Lemma for_acc_for_each {A St} (I : World → Prop) (bodyW : A → St → M St)
    (body : A → M unit) (l : list A) (s : St) :
  (∀ x v, I v →
     bodyW x s v = match body x v with
                   | Ok (_, v') => Ok (s, v')
                   | Raise e => Raise e
                   end) →
  (∀ x v v', I v → body x v = Ok (tt, v') → I v') →
  ∀ v, I v →
  for_acc l s bodyW v = match for_each l body v with
                        | Ok (_, v') => Ok (s, v')
                        | Raise e => Raise e
                        end.
Proof.
  intros Hsame Hinv. induction l as [|x l IH]; intros v Hv; [done |].
  cbn [for_acc for_each]. unfold mbind, M_bind.
  rewrite (Hsame x v Hv).
  destruct (body x v) as [[[] v']|e] eqn:Hb; [| done].
  apply IH. by eapply Hinv.
Qed.

(** X12: on a lane of positive length that has no lane on either side and
    whose counter is at least 1, [Lane.update_wLC] does what [Lane.update]
    does: the same final state or the same exception; no car is popped. *)
Theorem Lane_update_wLC_alone (l : nat) (w : World) (ln : Lane) :
  lanes (road w) !! l = Some ln →
  0 < lane_length ln → 1 <= num_cars ln →
  Lane_update_wLC l (None, None) w = Lane_update l w.
Proof.
  intros Hl Hlen Hn. unfold Lane_update_wLC, Lane_update.
  destruct (Lane_get_posns l w) as [[ps w0]|e] eqn:Hps.
  2:{ by rewrite !(bind_Raise _ _ _ e). }
  pose proof (reads_Lane_get_posns _ _ _ _ Hps) as ->.
  rewrite !(bind_eq _ _ _ _ _ Hps).
  rewrite !(bind_eq _ _ _ _ _ (get_lane_eq _ _ _ Hl)).
  unfold mbind at 1, M_bind at 1.
  rewrite (for_acc_for_each (λ v, lanes (road v) !! l = Some ln) _
             (λ ic, ln ← get_lane l;
                    k ← lift (py_mod (Z.of_nat ic.1 + 1) (num_cars ln));
                    p_ahead ← lift (py_getitem ps k);
                    Car_update ic.2 p_ahead (lane_length ln))).
  - by destruct (for_each _ _ w) as [[[] w']|e].
  - intros ic v Hv. unfold mbind, M_bind.
    rewrite (get_lane_eq _ _ _ Hv). cbn beta iota.
    replace (Z.max (num_cars ln) 1) with (num_cars ln) by lia. unfold lift.
    destruct (py_mod _ _) as [k|e]; [| done].
    destruct (py_getitem ps k) as [p|e]; [| done].
    rewrite Car_update_wLC_alone by done. unfold mbind, M_bind.
    by destruct (Car_update _ _ _ v) as [[[] v']|e].
  - intros ic v v' Hv Hbody.
    apply bind_Ok in Hbody as (ln' & v0 & ->%reads_get_lane & Hbody).
    apply bind_Ok in Hbody as (k & v0 & [_ ->]%lift_Ok & Hbody).
    apply bind_Ok in Hbody as (p & v0 & [_ ->]%lift_Ok & Hbody).
    by rewrite (keeps_road_Car_update _ _ _ _ _ _ Hbody).
  - done.
Qed.

Lemma Lane_update_wLC_alone_witness :
  Lane_update_wLC 0%nat (None, None) Examples.jam
  = Lane_update 0%nat Examples.jam.
Proof.
  apply (Lane_update_wLC_alone 0%nat Examples.jam (mkLane 10 3 [0; 1; 2]%nat));
    [reflexivity | simpl; lia | simpl; lia].
Defined.

(** ** The countdown of a crashed car *)

(** X13: on a lane whose counter is right and whose cars are distinct
    objects, a car of the lane whose crash timer is at least [k >= 1] is,
    after [k] passes of [Lane.update] that complete, at the position it had,
    with velocity 0 and its timer [k] lower. *)
Theorem crashed_car_waits (l : nat) (k : nat) (c : ref) :
  ∀ (w w' : World) (ln : Lane),
  lanes (road w) !! l = Some ln →
  num_cars ln = Z.of_nat (length (cars ln)) → NoDup (cars ln) →
  c ∈ cars ln →
  Z.of_nat k <= crash_timer (heap w c) →
  repeat_m k (Lane_update l) w = Ok (tt, w') →
  heap w' c = mkCar (posn (heap w c))
                    (if k is O then vel (heap w c) else 0)
                    (crash_timer (heap w c) - Z.of_nat k).
Proof.
  induction k as [|k IH]; intros w w' ln Hl Hn Hnd Hc Hk.
  { intros [= <-]. destruct (heap w c). simpl. f_equal. lia. }
  cbn [repeat_m]. intros ([] & w1 & H1 & H2)%bind_Ok.
  destruct (Lane_update_steps l w w1 ln Hl Hn Hnd H1) as (Hsteps & _ & Hroad).
  apply list_elem_of_lookup in Hc as [i Hi].
  destruct (Hsteps i c Hi) as (c_next & _ & Hstep).
  unfold car_step in Hstep. rewrite truthy_nonzero in Hstep by lia.
  assert (Hl1 : lanes (road w1) !! l = Some ln) by (by rewrite Hroad).
  rewrite (IH w1 w' ln Hl1 Hn Hnd) by
    (first [ by eapply list_elem_of_lookup_2 | rewrite Hstep; simpl; lia | done ]).
  rewrite Hstep. simpl. f_equal; [by destruct k | lia].
Qed.

Lemma crashed_car_waits_witness :
  ∃ w',
    repeat_m 3 (Lane_update 0%nat) Examples.crashed = Ok (tt, w')
    ∧ heap w' 0%nat = mkCar (posn (heap Examples.crashed 0%nat))
                            (if 3%nat is O then vel (heap Examples.crashed 0%nat)
                             else 0)
                            (crash_timer (heap Examples.crashed 0%nat)
                             - Z.of_nat 3).
Proof.
  eexists. split; [vm_compute; reflexivity |].
  apply (crashed_car_waits 0%nat 3 0%nat Examples.crashed _
           (mkLane 10 1 [0%nat])).
  - reflexivity.
  - reflexivity.
  - by apply (bool_decide_unpack _).
  - by apply (bool_decide_unpack _).
  - simpl; lia.
  - vm_compute; reflexivity.
Defined.

(** ** Construction *)

Lemma fmap_nth_seq {A} (d : A) (cs p q : list A) :
  (λ c, nth c (p ++ cs ++ q) d) <$> seq (length p) (length cs) = cs.
Proof.
  revert p. induction cs as [|x cs IH]; intros p; [done |].
  cbn [length seq fmap list_fmap]. f_equal.
  - rewrite app_nth2 by lia. by rewrite Nat.sub_diag.
  - specialize (IH (p ++ [x])). rewrite length_app in IH. simpl in IH.
    rewrite Nat.add_1_r in IH. rewrite <- app_assoc in IH. exact IH.
Qed.

(** The lanes [new_lanes] builds: lane after lane they hold the new car
    objects, which are numbered from [base] on. *)
Lemma new_lanes_spec (len n : Z) (d0 : Car) (draws : list (list Z * list Z)) :
  ∀ (base : nat) (prefix : list Car),
  length prefix = base →
  ((λ ln, (λ c, nth c (prefix ++ (new_lanes len n draws base).2) d0)
            <$> cars ln) <$> (new_lanes len n draws base).1
   = (λ d, new_cars d.1 d.2) <$> draws)
  ∧ all_cars (new_lanes len n draws base).1
    = seq base (length (new_lanes len n draws base).2)
  ∧ Forall2 (λ ln d, lane_length ln = len ∧ num_cars ln = n
                      ∧ length (cars ln) = length (new_cars d.1 d.2))
            (new_lanes len n draws base).1 draws.
Proof.
  induction draws as [|d draws IH]; intros base prefix Hbase.
  { simpl. repeat split. constructor. }
  cbn [new_lanes fst snd].
  set (cs := new_cars d.1 d.2).
  destruct (IH (base + length cs)%nat (prefix ++ cs)) as (IH1 & IH2 & IH3).
  { rewrite length_app. lia. }
  set (r := new_lanes len n draws (base + length cs)) in *.
  split; [| split].
  - rewrite !fmap_cons. cbn [cars]. f_equal.
    + rewrite <- Hbase. apply fmap_nth_seq.
    + rewrite <- IH1. apply list_fmap_ext. intros i ln _. simpl.
      by rewrite <- app_assoc.
  - unfold all_cars in *. rewrite fmap_cons, concat_cons. cbn [cars].
    rewrite IH2, length_app. by rewrite seq_app.
  - constructor; [| done]. simpl. by rewrite length_seq.
Qed.

Lemma sorted_le_NoDup_lt (l : list Z) :
  StronglySorted Z.le l → NoDup l → StronglySorted Z.lt l.
Proof.
  induction 1 as [|x l Hl IH Hx]; intros Hnd; [constructor |].
  apply NoDup_cons in Hnd as [Hnotin Hnd].
  constructor; [by apply IH |].
  apply Forall_forall. intros y Hy. rewrite Forall_forall in Hx.
  specialize (Hx y Hy). assert (x ≠ y) by (by intros ->). lia.
Qed.

Lemma valid_draw_unpack (len n : Z) (d : list Z * list Z) :
  valid_draw len n d = true →
  Z.of_nat (length d.1) = n ∧ Z.of_nat (length d.2) = n
  ∧ Forall (λ p, 0 <= p < len) d.1 ∧ NoDup d.1
  ∧ Forall (λ v, 1 <= v <= 5) d.2.
Proof.
  unfold valid_draw.
  intros [[[[H1 H2]%andb_true_iff H3]%andb_true_iff H4]%andb_true_iff
            H5]%andb_true_iff.
  apply Z.eqb_eq in H1, H2. apply bool_decide_eq_true in H4.
  repeat split; try done.
  - apply Forall_forall. intros p Hp%list_elem_of_In.
    pose proof (proj1 (forallb_forall _ _) H3 p Hp) as Hr. simpl in Hr. lia.
  - apply Forall_forall. intros v Hv%list_elem_of_In.
    pose proof (proj1 (forallb_forall _ _) H5 v Hv) as Hr. simpl in Hr. lia.
Qed.

(** The cars of a new lane, from what [random.sample] and
    [random.randint] returned. *)
Lemma new_cars_valid (len n : Z) (d : list Z * list Z) :
  valid_draw len n d = true →
  Z.of_nat (length (new_cars d.1 d.2)) = n
  ∧ posn <$> new_cars d.1 d.2 = merge_sort Z.le d.1
  ∧ StronglySorted Z.lt (posn <$> new_cars d.1 d.2)
  ∧ Forall (car_new len) (new_cars d.1 d.2).
Proof.
  intros (H1 & H2 & Hrange & Hnd & Hvel)%valid_draw_unpack.
  pose proof (merge_sort_Permutation Z.le d.1) as Hperm.
  assert (Hlen : length (merge_sort Z.le d.1) = length d.2).
  { rewrite Hperm. lia. }
  assert (Hposn : posn <$> new_cars d.1 d.2 = merge_sort Z.le d.1).
  { unfold new_cars. apply fmap_zip_with_l; [done | lia]. }
  split; [| split; [done | split]].
  - unfold new_cars. rewrite length_zip_with_l_eq by done. rewrite Hperm. lia.
  - rewrite Hposn. apply sorted_le_NoDup_lt.
    + apply StronglySorted_merge_sort; apply _.
    + by rewrite Hperm.
  - apply Forall_forall. intros c Hc. unfold new_cars in Hc.
    apply elem_of_zip_with in Hc as (p & v & -> & Hp & Hv).
    rewrite Hperm in Hp. rewrite Forall_forall in Hrange, Hvel.
    specialize (Hrange p Hp). specialize (Hvel v Hv).
    unfold car_new. simpl. lia.
Qed.

Lemma Road_init_facts (len n : Z) (draws : list (list Z * list Z))
    (tp : nat → Q) :
  valid_draws len n draws = true →
  view (Road_init len n draws tp) = (λ d, new_cars d.1 d.2) <$> draws
  ∧ NoDup (all_cars (lanes (road (Road_init len n draws tp))))
  ∧ num_lanes (road (Road_init len n draws tp))
    = Z.of_nat (length (lanes (road (Road_init len n draws tp))))
  ∧ Forall (λ ln, lane_length ln = len)
           (lanes (road (Road_init len n draws tp)))
  ∧ counters_ok (lanes (road (Road_init len n draws tp)))
  ∧ Forall (λ ps, StronglySorted Z.lt ps)
           (positions (Road_init len n draws tp))
  ∧ no_overlap (Road_init len n draws tp)
  ∧ Forall (Forall (car_new len)) (view (Road_init len n draws tp)).
Proof.
  intros [_ Hvalid]%andb_true_iff.
  assert (Hv : Forall (λ d, valid_draw len n d = true) draws).
  { apply Forall_forall. intros d Hd%list_elem_of_In.
    by apply (proj1 (forallb_forall _ _) Hvalid). }
  destruct (new_lanes_spec len n (mkCar 0 0 0) draws 0 [] eq_refl)
    as (Hview & Hall & Hlanes).
  set (w := Road_init len n draws tp).
  assert (Eview : view w = (λ d, new_cars d.1 d.2) <$> draws) by exact Hview.
  assert (Epos : positions w = (λ cs : list Car, posn <$> cs) <$> view w).
  { unfold positions, view, lane_view. rewrite <- list_fmap_compose.
    apply list_fmap_ext. intros i ln _. simpl.
    by rewrite <- list_fmap_compose. }
  assert (Hsorted : Forall (λ ps, StronglySorted Z.lt ps) (positions w)).
  { rewrite Epos, Eview, <- list_fmap_compose. apply Forall_fmap.
    eapply Forall_impl; [exact Hv |]. intros d Hd. simpl.
    by apply (new_cars_valid len n d Hd). }
  split; [done |]. split.
  { change (all_cars (lanes (road w))) with
      (all_cars (new_lanes len n draws 0).1).
    rewrite Hall. apply NoDup_seq. }
  split.
  { simpl. f_equal. symmetry. by eapply Forall2_length. }
  split.
  { eapply Forall2_Forall_l; [exact Hlanes |].
    apply Forall_true. by intros d ln (? & _). }
  split.
  { unfold counters_ok. eapply Forall2_Forall_l; [exact Hlanes |].
    eapply Forall_impl; [exact Hv |]. intros d Hd ln (_ & Hn & Hlen).
    rewrite Hn, Hlen. symmetry. by apply (new_cars_valid len n d Hd). }
  split; [done |]. split.
  { unfold no_overlap. eapply Forall_impl; [exact Hsorted |].
    intros ps Hps. clear -Hps.
    induction Hps as [|x l Hl IH Hx]; constructor; [| done].
    intros Hin. rewrite Forall_forall in Hx. specialize (Hx x Hin). lia. }
  rewrite Eview. apply Forall_fmap.
  eapply Forall_impl; [exact Hv |]. intros d Hd. simpl.
  by apply (new_cars_valid len n d Hd).
Qed.

(** X14: [Road(num_lanes, length, cars_per_lane)], for any positions and
    velocities the random module can return: lane [i] holds the cars made
    from the sorted positions and the velocities drawn for it; the car
    objects of the road are pairwise distinct; [num_lanes] is the number of
    lanes, every lane has the length of the road and a counter equal to the
    length of its list; in every lane the positions increase strictly, so no
    two cars overlap; every car is on the road with a velocity of 1 to 5
    and no crash timer running. *)
Theorem Road_init_well_formed (len n : Z) (draws : list (list Z * list Z))
    (tp : nat → Q) :
  valid_draws len n draws = true →
  view (Road_init len n draws tp) = (λ d, new_cars d.1 d.2) <$> draws
  ∧ NoDup (all_cars (lanes (road (Road_init len n draws tp))))
  ∧ num_lanes (road (Road_init len n draws tp))
    = Z.of_nat (length (lanes (road (Road_init len n draws tp))))
  ∧ Forall (λ ln, lane_length ln = len)
           (lanes (road (Road_init len n draws tp)))
  ∧ counters_ok (lanes (road (Road_init len n draws tp)))
  ∧ Forall (λ ps, StronglySorted Z.lt ps)
           (positions (Road_init len n draws tp))
  ∧ no_overlap (Road_init len n draws tp)
  ∧ Forall (Forall (car_new len)) (view (Road_init len n draws tp)).
Proof. apply Road_init_facts. Qed.

Lemma Road_init_well_formed_witness :
  view Examples.merge = (λ d, new_cars d.1 d.2) <$> Examples.merge_draws
  ∧ NoDup (all_cars (lanes (road Examples.merge)))
  ∧ num_lanes (road Examples.merge)
    = Z.of_nat (length (lanes (road Examples.merge)))
  ∧ Forall (λ ln, lane_length ln = 20) (lanes (road Examples.merge))
  ∧ counters_ok (lanes (road Examples.merge))
  ∧ Forall (λ ps, StronglySorted Z.lt ps) (positions Examples.merge)
  ∧ no_overlap Examples.merge
  ∧ Forall (Forall (car_new 20)) (view Examples.merge).
Proof.
  apply (Road_init_well_formed 20 2 Examples.merge_draws
           (tape_of [1#4; 1#4; 1#2; 3#4; 1#2] (1#2))).
  reflexivity.
Defined.

(** ** A simulation without lane changes *)

(** X15: a road built by [Road(num_lanes, length, cars_per_lane)] with at
    least one car per lane, and a random module that returns values of
    [0, 1): any number of calls of [Road.update] complete without an
    exception, the lanes hold the cars they held, in the same order, and
    every car stays on the road with a velocity of -1 to 5 and a crash timer
    of 0 to 30. *)
Theorem simulation_without_lane_changes (len n : Z)
    (draws : list (list Z * list Z)) (tp : nat → Q) (k : nat) :
  valid_draws len n draws = true → 1 <= n →
  (∀ i, (0 <= tp i)%Q ∧ (tp i < 1)%Q) →
  ∃ w',
    repeat_m k Road_update (Road_init len n draws tp) = Ok (tt, w')
    ∧ road w' = road (Road_init len n draws tp)
    ∧ Forall (λ c, car_ok len (heap w' c)) (all_cars (lanes (road w'))).
Proof.
  intros Hvalid Hn Htp.
  destruct (Road_init_facts len n draws tp Hvalid)
    as (Hview & Hnd & Hnum & Hlens & Hcount & _ & _ & Hnew).
  set (w := Road_init len n draws tp) in *.
  assert (Hcars : Forall (λ c, car_new len (heap w c))
                         (all_cars (lanes (road w)))).
  { apply Forall_forall. intros c (ln & Hln & Hc)%elem_of_all_cars.
    rewrite Forall_forall in Hnew.
    assert (Hlv : lane_view w ln ∈ view w)
      by (by apply list_elem_of_fmap_2).
    specialize (Hnew _ Hlv). rewrite Forall_forall in Hnew.
    apply Hnew. by apply list_elem_of_fmap_2. }
  assert (Hlen : 0 < len).
  { apply andb_true_iff in Hvalid as [Hne Hall]. apply Z.ltb_lt in Hne.
    destruct draws as [|d draws]; [simpl in Hne; lia |].
    simpl in Hall. apply andb_true_iff in Hall as [Hd _].
    apply valid_draw_unpack in Hd as (H1 & _ & Hrange & _).
    destruct d.1 as [|p ps]; [simpl in H1; lia |].
    apply Forall_cons in Hrange as [Hp _]. lia. }
  assert (Hready : road_ready w).
  { split; [| split; [done | exact Htp]].
    destruct (new_lanes_spec len n (mkCar 0 0 0) draws 0 [] eq_refl)
      as (_ & _ & Hl2).
    apply Forall_forall. intros ln Hln.
    unfold counters_ok in Hcount. rewrite Forall_forall in Hcount, Hlens.
    assert (num_cars ln = n).
    { apply (Forall2_Forall_l _ (λ ln, num_cars ln = n)) in Hl2.
      - rewrite Forall_forall in Hl2. by apply Hl2.
      - apply Forall_true. by intros d ln' (_ & ? & _). }
    unfold lane_ready. rewrite (Hlens ln Hln).
    split; [lia |]. split; [lia | by apply Hcount]. }
  destruct (Road_update_repeat_total k w Hready) as (w' & Hrun & Hroad & _).
  exists w'. split; [done |]. split; [done |].
  apply (road_ok_elim len (λ c, c ∈ all_cars (lanes (road w)))).
  revert Hrun. apply repeat_m_inv.
  - intros v v'. by apply Road_update_road_ok.
  - apply road_ok_intro; [done |].
    eapply Forall_impl; [exact Hcars |].
    intros c (? & ? & ?). unfold car_ok. lia.
Qed.

Lemma tape_of_unit (l : list Q) (d : Q) :
  Forall (λ u, (0 <= u)%Q ∧ (u < 1)%Q) (d :: l) →
  ∀ i, (0 <= tape_of l d i)%Q ∧ (tape_of l d i < 1)%Q.
Proof.
  intros [Hd Hl]%Forall_cons i. unfold tape_of.
  revert i. induction Hl as [|u l Hu Hl IH]; intros [|i]; simpl; done.
Qed.

Lemma simulation_without_lane_changes_witness :
  ∃ w',
    repeat_m 2 Road_update Examples.jam = Ok (tt, w')
    ∧ road w' = road Examples.jam
    ∧ Forall (λ c, car_ok 10 (heap w' c)) (all_cars (lanes (road w'))).
Proof.
  apply (simulation_without_lane_changes 10 3 Examples.jam_draws
           (tape_of [3#4; 1#2; 3#4; 1#4; 3#4; 1#2] (1#2)) 2).
  - reflexivity.
  - lia.
  - apply tape_of_unit. repeat constructor; by vm_compute.
Defined.

(** ** Road.vel_vec *)

Lemma reads_for_acc {A St} (body : A → St → M St) (l : list A) :
  (∀ x s, reads (body x s)) → ∀ s, reads (for_acc l s body).
Proof.
  intros Hbody. induction l as [|x l IH]; intros s.
  - apply reads_ret.
  - cbn [for_acc]. apply reads_bind; [apply Hbody | intros s'; apply IH].
Qed.

Lemma reads_Lane_get_vels (l : nat) : reads (Lane_get_vels l).
Proof. unfold Lane_get_vels. reads_tac. Qed.

Lemma zip_fmap_same {A B C} (f : A → B) (g : A → C) (l : list A) :
  zip (f <$> l) (g <$> l) = (λ x, (f x, g x)) <$> l.
Proof. induction l as [|x l IH]; [done |]. cbn. f_equal. exact IH. Qed.

(** Integers of at most 53 bits, and [2^53], are stored as they are. *)
Lemma float64_of_int_exact (v : Z) :
  Z.abs v <= 2 ^ 53 → float64_of_int v = Ok v.
Proof.
  intros Hv. unfold float64_of_int. cbv zeta.
  assert (Hs : Z.sgn v * Z.abs v = v) by (by destruct v).
  assert (Z.abs v = 2 ^ 53 ∨ Z.abs v < 2 ^ 53) as [E | Hlt] by lia.
  - rewrite E in *. rewrite <- Hs at 2. reflexivity.
  - assert (Z.log2 (Z.abs v) < 53).
    { destruct (Z.eq_dec (Z.abs v) 0) as [-> | ?]; [done |].
      apply Z.log2_lt_pow2; lia. }
    rewrite Z.max_l by lia.
    rewrite !Z.shiftr_0_r, !Z.shiftl_0_r, Z.sub_diag.
    change ((2 ^ 0 <? 2 * 0) || (2 * 0 =? 2 ^ 0) && Z.odd (Z.abs v))
      with false.
    cbv iota.
    assert (2 ^ 53 <= 2 ^ 1024) by (by apply Z.pow_le_mono_r).
    replace (2 ^ 1024 <=? Z.abs v) with false
      by (symmetry; apply Z.leb_gt; lia).
    f_equal. exact Hs.
Qed.

(** The inner loop writes the cars of one lane into the row of the lane. *)
Lemma vel_vec_inner (h : ref → Car) (i : nat) (cs : list ref) :
  ∀ (vals : list (list Z)) (row : list Z) (w : World),
  vals !! i = Some row →
  Forall (λ c, 0 <= posn (h c) < Z.of_nat (length row)
               ∧ Z.abs (vel (h c)) <= 2 ^ 53) cs →
  for_acc ((λ c, (posn (h c), vel (h c))) <$> cs) vals
    (λ pv vals, lift (grid_set vals (Z.of_nat i) pv.1 pv.2)) w
  = Ok (<[i := fill_row h row cs]> vals, w).
Proof.
  induction cs as [|c cs IH]; intros vals row w Hrow Hcs.
  { simpl. by rewrite list_insert_id. }
  apply Forall_cons in Hcs as [[Hc Hv] Hcs].
  pose proof (lookup_lt_Some _ _ _ Hrow) as Hi.
  cbn [fmap list_fmap for_acc].
  rewrite (bind_eq _ _ w w
             (<[i := <[Z.to_nat (posn (h c)) := vel (h c)]> row]> vals)).
  2:{ apply lift_Ok. split; [| done]. unfold grid_set. simpl.
      rewrite py_index_nat by done. rewrite Hrow.
      rewrite py_index_Ok by done.
      by rewrite float64_of_int_exact. }
  rewrite (IH _ (<[Z.to_nat (posn (h c)) := vel (h c)]> row)).
  - by rewrite list_insert_insert_eq.
  - by apply list_lookup_insert_eq.
  - by rewrite length_insert.
Qed.

Lemma fill_row_length (h : ref → Car) (cs : list ref) :
  ∀ row, length (fill_row h row cs) = length row.
Proof.
  unfold fill_row. induction cs as [|c cs IH]; intros row; [done |].
  simpl. by rewrite IH, length_insert.
Qed.

Lemma fill_row_untouched (h : ref → Car) (p : nat) (cs : list ref) :
  ∀ row, (∀ c, c ∈ cs → Z.to_nat (posn (h c)) ≠ p) →
  fill_row h row cs !! p = row !! p.
Proof.
  unfold fill_row. induction cs as [|c cs IH]; intros row Hcs; [done |].
  simpl. rewrite IH by (intros c' Hc'; apply Hcs; by right).
  apply list_lookup_insert_ne. apply Hcs. by left.
Qed.

Lemma fill_row_car (h : ref → Car) (cs : list ref) :
  ∀ row c,
  NoDup ((λ c, posn (h c)) <$> cs) →
  Forall (λ c, 0 <= posn (h c) < Z.of_nat (length row)) cs →
  c ∈ cs →
  fill_row h row cs !! Z.to_nat (posn (h c)) = Some (vel (h c)).
Proof.
  induction cs as [|x cs IH]; intros row c Hnd Hcs Hc;
    [by apply elem_of_nil in Hc |].
  rewrite fmap_cons in Hnd. apply NoDup_cons in Hnd as [Hx Hnd].
  apply Forall_cons in Hcs as [Hxr Hcs].
  change (fill_row h row (x :: cs))
    with (fill_row h (<[Z.to_nat (posn (h x)) := vel (h x)]> row) cs).
  destruct (decide (posn (h c) = posn (h x))) as [E | Hne].
  - rewrite fill_row_untouched.
    + rewrite E. rewrite list_lookup_insert_eq by lia.
      apply elem_of_cons in Hc as [-> | Hc]; [done |].
      exfalso. apply Hx. rewrite <- E. by apply (list_elem_of_fmap_2 (λ c, posn (h c))).
    + intros c' Hc' E'. apply Hx.
      rewrite Forall_forall in Hcs. specialize (Hcs c' Hc').
      assert (posn (h c') = posn (h x)) as <- by lia.
      by apply (list_elem_of_fmap_2 (λ c, posn (h c))).
  - apply elem_of_cons in Hc as [-> | Hc]; [done |].
    apply IH; [done | by rewrite length_insert | done].
Qed.

Lemma Lane_get_posns_Ok (l : nat) (w : World) (ln : Lane) :
  lanes (road w) !! l = Some ln →
  Lane_get_posns l w = Ok ((λ c, posn (heap w c)) <$> cars ln, w).
Proof.
  intros Hl. unfold Lane_get_posns.
  by rewrite (bind_eq _ _ _ _ _ (get_lane_eq _ _ _ Hl)).
Qed.

Lemma Lane_get_vels_Ok (l : nat) (w : World) (ln : Lane) :
  lanes (road w) !! l = Some ln →
  Lane_get_vels l w = Ok ((λ c, vel (heap w c)) <$> cars ln, w).
Proof.
  intros Hl. unfold Lane_get_vels.
  by rewrite (bind_eq _ _ _ _ _ (get_lane_eq _ _ _ Hl)).
Qed.

(** The outer loop fills the row of each lane it visits and leaves the
    other rows alone. *)
Lemma vel_vec_outer (w : World) (ils : list (nat * Lane)) :
  ∀ vals : list (list Z),
  NoDup ils.*1 →
  (∀ il, il ∈ ils →
     lanes (road w) !! il.1 = Some il.2
     ∧ ∃ row, vals !! il.1 = Some row
              ∧ Forall (λ c, 0 <= posn (heap w c) < Z.of_nat (length row)
                             ∧ Z.abs (vel (heap w c)) <= 2 ^ 53)
                       (cars il.2)) →
  ∃ g,
    for_acc ils vals
      (λ il vals,
         pVals ← Lane_get_posns il.1;
         vVals ← Lane_get_vels il.1;
         for_acc (zip pVals vVals) vals
           (λ pv vals, lift (grid_set vals (Z.of_nat il.1) pv.1 pv.2))) w
    = Ok (g, w)
    ∧ length g = length vals
    ∧ (∀ il, il ∈ ils →
         ∃ row, vals !! il.1 = Some row
                ∧ g !! il.1 = Some (fill_row (heap w) row (cars il.2)))
    ∧ (∀ j, j ∉ ils.*1 → g !! j = vals !! j).
Proof.
  induction ils as [|[i ln] ils IH]; intros vals Hnd Hils.
  { exists vals. split; [done |]. split; [done |].
    split; [by intros ? ?%elem_of_nil | done]. }
  rewrite fmap_cons in Hnd. apply NoDup_cons in Hnd as [Hi Hnd]. simpl in Hi.
  destruct (Hils (i, ln)) as (Hl & row & Hrow & Hcars); [by left |].
  simpl in Hl, Hrow, Hcars.
  set (vals1 := <[i := fill_row (heap w) row (cars ln)]> vals).
  assert (Hne : ∀ il, il ∈ ils → il.1 ≠ i).
  { intros il Hil E. apply Hi. rewrite <- E.
    by apply (list_elem_of_fmap_2 fst). }
  destruct (IH vals1 Hnd) as (g & Hrun & Hlen & Hrows & Hother).
  { intros il Hil. destruct (Hils il) as (Hl' & row' & Hrow' & Hcars');
      [by right |].
    split; [done |]. exists row'. split; [| done].
    unfold vals1. rewrite list_lookup_insert_ne; [done |].
    intros E. by apply (Hne il Hil). }
  exists g. split; [| split; [| split]].
  - cbn [for_acc fst snd].
    rewrite (bind_eq _ _ w w vals1); [exact Hrun |].
    rewrite (bind_eq _ _ _ _ _ (Lane_get_posns_Ok _ _ _ Hl)).
    rewrite (bind_eq _ _ _ _ _ (Lane_get_vels_Ok _ _ _ Hl)).
    rewrite zip_fmap_same.
    by apply (vel_vec_inner (heap w) i (cars ln) vals row w).
  - rewrite Hlen. unfold vals1. by rewrite length_insert.
  - intros il [-> | Hil]%elem_of_cons.
    + exists row. split; [done |]. simpl. rewrite (Hother i Hi).
      unfold vals1. apply list_lookup_insert_eq. by eapply lookup_lt_Some.
    + destruct (Hrows il Hil) as (row' & Hrow' & Hg).
      exists row'. split; [| done]. unfold vals1 in Hrow'.
      rewrite list_lookup_insert_ne in Hrow'; [done |].
      intros E. by apply (Hne il Hil).
  - intros j Hj. rewrite fmap_cons in Hj.
    apply not_elem_of_cons in Hj as [Hji Hj]. simpl in Hji.
    rewrite (Hother j Hj). unfold vals1.
    by apply list_lookup_insert_ne.
Qed.

Lemma enumerate_fst {A} (l : list A) : (enumerate l).*1 = seq 0 (length l).
Proof. unfold enumerate. apply fst_zip. rewrite length_seq. lia. Qed.

Lemma enumerate_elem {A} (l : list A) (i : nat) (x : A) :
  (i, x) ∈ enumerate l → l !! i = Some x.
Proof.
  unfold enumerate. intros (j & Hj)%list_elem_of_lookup.
  apply lookup_zip_with_Some in Hj as (a & b & [= -> ->] & Ha & Hb).
  apply lookup_seq in Ha as [-> _]. done.
Qed.

Lemma bad_shape_false (n len : Z) :
  bad_shape n len = false → 0 <= n ∧ 0 <= len.
Proof.
  unfold bad_shape. intros H.
  apply orb_false_iff in H as [H _].
  apply orb_false_iff in H as [?%Z.ltb_ge ?%Z.ltb_ge]. done.
Qed.

Lemma vel_vec_cells_aux (w : World) (len : Z) :
  num_lanes (road w) = Z.of_nat (length (lanes (road w))) →
  road_length (road w) = len →
  bad_shape (num_lanes (road w)) len = false →
  Forall (λ ln, Forall (λ c, 0 <= posn (heap w c) < len
                             ∧ Z.abs (vel (heap w c)) <= 2 ^ 53) (cars ln))
         (lanes (road w)) →
  ∃ g,
    Road_vel_vec w = Ok (g, w)
    ∧ length g = length (lanes (road w))
    ∧ ∀ i ln, lanes (road w) !! i = Some ln →
        g !! i = Some (fill_row (heap w) (replicate (Z.to_nat len) (-1))
                                (cars ln)).
Proof.
  intros Hnum Hlen Hshape Hcars. unfold Road_vel_vec.
  rewrite (bind_eq _ _ w w (road w)) by reflexivity.
  rewrite Hlen, Hshape.
  apply bad_shape_false in Hshape as [_ Hpos].
  rewrite Hnum, Nat2Z.id.
  set (vals := replicate (length (lanes (road w)))
                         (replicate (Z.to_nat len) (-1))).
  assert (Hvals : ∀ i, (i < length (lanes (road w)))%nat →
                       vals !! i = Some (replicate (Z.to_nat len) (-1))).
  { intros i Hi. unfold vals. by apply lookup_replicate_2. }
  destruct (vel_vec_outer w (enumerate (lanes (road w))) vals)
    as (g & Hrun & Hg & Hrows & _).
  { rewrite enumerate_fst. apply NoDup_seq. }
  { intros [i ln] Hil%enumerate_elem. split; [done |]. simpl.
    exists (replicate (Z.to_nat len) (-1)).
    split; [apply Hvals; by eapply lookup_lt_Some |].
    rewrite length_replicate, Z2Nat.id by done.
    rewrite Forall_forall in Hcars. apply Hcars.
    by eapply list_elem_of_lookup_2. }
  exists g. split; [done |].
  split; [by rewrite Hg; unfold vals; rewrite length_replicate |].
  intros i ln Hi.
  destruct (Hrows (i, ln) (enumerate_lookup _ _ _ Hi)) as (row & Hrow & Hgi).
  simpl in Hrow, Hgi. rewrite Hvals in Hrow by (by eapply lookup_lt_Some).
  by injection Hrow as <-.
Qed.

(** X16: on a road whose [num_lanes] is its number of lanes, whose shape
    [np.zeros] accepts, whose cars are at positions of [0 .. len - 1] and
    have velocities that a float holds exactly (at most [2^53] in
    magnitude), [Road.vel_vec] returns, without changing the state, one row
    per lane and [len] cells per row: a cell where the lane has no car holds
    the sentinel -1, and, in a lane without two cars at one position, the
    cell of each car holds its velocity. *)
Theorem vel_vec_cells (w : World) (len : Z) :
  num_lanes (road w) = Z.of_nat (length (lanes (road w))) →
  road_length (road w) = len →
  bad_shape (num_lanes (road w)) len = false →
  Forall (λ ln, Forall (λ c, 0 <= posn (heap w c) < len
                             ∧ Z.abs (vel (heap w c)) <= 2 ^ 53) (cars ln))
         (lanes (road w)) →
  ∃ g,
    Road_vel_vec w = Ok (g, w)
    ∧ length g = length (lanes (road w))
    ∧ ∀ i ln, lanes (road w) !! i = Some ln →
        ∃ row,
          g !! i = Some row ∧ length row = Z.to_nat len
          ∧ (∀ p, (p < Z.to_nat len)%nat →
               (∀ c, c ∈ cars ln → posn (heap w c) ≠ Z.of_nat p) →
               row !! p = Some (-1))
          ∧ (NoDup ((λ c, posn (heap w c)) <$> cars ln) →
             ∀ c, c ∈ cars ln →
               row !! Z.to_nat (posn (heap w c)) = Some (vel (heap w c))).
Proof.
  intros Hnum Hlen Hshape Hcars.
  destruct (vel_vec_cells_aux w len Hnum Hlen Hshape Hcars)
    as (g & Hrun & Hg & Hrows).
  apply bad_shape_false in Hshape as [_ Hpos].
  exists g. split; [done |]. split; [done |].
  intros i ln Hi. eexists. split; [by apply Hrows |].
  assert (Hln : Forall (λ c, 0 <= posn (heap w c) < len) (cars ln)).
  { rewrite Forall_forall in Hcars.
    eapply Forall_impl; [apply Hcars; by eapply list_elem_of_lookup_2 |].
    by intros c [? _]. }
  split; [by rewrite fill_row_length, length_replicate |]. split.
  - intros p Hp Hfree. rewrite fill_row_untouched.
    + by apply lookup_replicate_2.
    + intros c Hc E. apply (Hfree c Hc).
      rewrite Forall_forall in Hln. specialize (Hln c Hc). lia.
  - intros Hnd c Hc. apply fill_row_car; [done | | done].
    by rewrite length_replicate, Z2Nat.id.
Qed.

Lemma vel_vec_cells_witness :
  ∃ g,
    Road_vel_vec Examples.merge = Ok (g, Examples.merge)
    ∧ length g = length (lanes (road Examples.merge))
    ∧ ∀ i ln, lanes (road Examples.merge) !! i = Some ln →
        ∃ row,
          g !! i = Some row ∧ length row = Z.to_nat 20
          ∧ (∀ p, (p < Z.to_nat 20)%nat →
               (∀ c, c ∈ cars ln → posn (heap Examples.merge c) ≠ Z.of_nat p) →
               row !! p = Some (-1))
          ∧ (NoDup ((λ c, posn (heap Examples.merge c)) <$> cars ln) →
             ∀ c, c ∈ cars ln →
               row !! Z.to_nat (posn (heap Examples.merge c))
               = Some (vel (heap Examples.merge c))).
Proof.
  apply (vel_vec_cells Examples.merge 20).
  - reflexivity.
  - reflexivity.
  - reflexivity.
  - by apply (bool_decide_unpack _).
Defined.

(** A velocity of more than 53 bits is rounded in its cell, and one too
    large for a float makes the call fail. *)
Example vel_vec_rounds :
  grid_set [[-1; -1]] 0 1 (2 ^ 53 + 1) = Ok [[-1; 2 ^ 53]]
  ∧ grid_set [[-1; -1]] 0 1 (2 ^ 53 + 3) = Ok [[-1; 2 ^ 53 + 4]]
  ∧ grid_set [[-1; -1]] 0 1 (- 2 ^ 1024) = Raise OverflowError
  ∧ grid_set [[-1; -1]] 0 2 (2 ^ 1024) = Raise IndexError.
Proof. repeat split; vm_compute; reflexivity. Qed.

(** ** The lane after Lane.update_wLC *)

Lemma py_pop_Ok {A} (l l' : list A) (k : Z) :
  py_pop l k = Ok l' →
  l' `sublist_of` l ∧ length l = S (length l').
Proof.
  unfold py_pop. destruct (py_index (length l) k) as [i|] eqn:Hi;
    [| discriminate].
  intros [= <-]. split; [apply sublist_delete |].
  assert (i < length l)%nat.
  { unfold py_index in Hi.
    destruct ((0 <=? k) && (k <? Z.of_nat (length l))) eqn:E1.
    - injection Hi as <-. apply andb_true_iff in E1 as [?%Z.leb_le ?%Z.ltb_lt].
      lia.
    - destruct ((k <? 0) && (0 <=? k + Z.of_nat (length l))) eqn:E2;
        [| discriminate].
      injection Hi as <-. apply andb_true_iff in E2 as [?%Z.ltb_lt ?%Z.leb_le].
      lia. }
  rewrite length_delete by (by apply lookup_lt_is_Some). lia.
Qed.

Lemma pop_all_Ok (idx : list nat) :
  ∀ cs cs' : list ref,
  pop_all idx cs = Ok cs' →
  cs' `sublist_of` cs ∧ length cs = (length idx + length cs')%nat.
Proof.
  induction idx as [|i idx IH]; intros cs cs'.
  { by intros [= <-]. }
  cbn [pop_all]. destruct (py_pop cs (Z.of_nat i)) as [cs1|] eqn:Hpop;
    [| discriminate].
  intros Hrest. apply py_pop_Ok in Hpop as [Hsub Hlen].
  apply IH in Hrest as [Hsub' Hlen'].
  split; [by etrans | simpl; lia].
Qed.

(** X17: after a call of [Lane.update_wLC] that completes, with other lanes
    as neighbours, the lane has the length it had, its list is a sublist of
    the list it had (the cars that stay keep their order) and its counter
    has dropped by the number of cars that have left. *)
Theorem Lane_update_wLC_own_lane (l : nat) (adjs : option nat * option nat)
    (w w' : World) (ln : Lane) :
  adjs.1 ≠ Some l → adjs.2 ≠ Some l →
  lanes (road w) !! l = Some ln →
  Lane_update_wLC l adjs w = Ok (tt, w') →
  ∃ ln',
    lanes (road w') !! l = Some ln'
    ∧ lane_length ln' = lane_length ln
    ∧ cars ln' `sublist_of` cars ln
    ∧ num_cars ln - num_cars ln'
      = Z.of_nat (length (cars ln) - length (cars ln')).
Proof.
  intros H1 H2 Hl. unfold Lane_update_wLC.
  intros (ps & w0 & ->%reads_Lane_get_posns & Hrun)%bind_Ok.
  apply bind_Ok in Hrun as (ln0 & w0 & [Hl0 ->]%get_lane_Ok & Hrun).
  assert (ln0 = ln) as -> by congruence.
  apply bind_Ok in Hrun as (toPop & w1 & Hfirst & Hsecond).
  apply (first_loop_gains l adjs ps _ H1 H2) in Hfirst
    as (t & Hsub & -> & G1 & G2 & _).
  rewrite Hl in G1.
  apply (second_loop_pops l _ _ _ ln G1) in Hsecond as (cs & Hpop & Hlanes).
  apply pop_all_Ok in Hpop as [Hsubl Hlen].
  eexists. split.
  { rewrite Hlanes. apply list_lookup_insert_eq. by eapply lookup_lt_Some. }
  simpl. split; [done |]. split; [done |]. simpl in Hlen. lia.
Qed.

Lemma Lane_update_wLC_own_lane_witness :
  ∃ w' ln',
    Lane_update_wLC 0%nat (None, Some 1%nat) Examples.right = Ok (tt, w')
    ∧ lanes (road w') !! 0%nat = Some ln'
    ∧ lane_length ln' = 20
    ∧ cars ln' `sublist_of` [0; 1]%nat
    ∧ 2 - num_cars ln' = Z.of_nat (2 - length (cars ln')).
Proof.
  eexists.
  destruct (Lane_update_wLC_own_lane 0%nat (None, Some 1%nat) Examples.right _
              (mkLane 20 2 [0; 1]%nat)
              ltac:(discriminate) ltac:(discriminate) eq_refl eq_refl)
    as (ln' & H).
  exists ln'. split; [reflexivity | exact H].
Defined.

(** ** The car ahead *)

(** X18: [Car.update] of a car that is not crashed never gives it a
    velocity above the gap to the position ahead it was given, so the car
    does not pass that position; it can reach it only when the gap equals
    the velocity after the acceleration ([vel + 1] if [vel < 5], else
    [vel]), the case the braking test [gap < vel] lets through. *)
Theorem Car_update_stays_behind (self : ref) (p_ahead road_len : Z)
    (w w' : World) :
  crash_timer (heap w self) = 0 →
  Car_update self p_ahead road_len w = Ok (tt, w') →
  vel (heap w' self) <= gap_ahead (heap w self) p_ahead road_len
  ∧ posn (heap w' self)
    = (posn (heap w self) + vel (heap w' self)) mod road_len
  ∧ (vel (heap w' self) = gap_ahead (heap w self) p_ahead road_len →
     gap_ahead (heap w self) p_ahead road_len = accelerated (heap w self)).
Proof.
  intros Hct Hrun. pose proof (Car_update_self _ _ _ _ _ Hrun) as Hself.
  cbv zeta in Hself. rewrite (truthy_zero _ Hct) in Hself.
  destruct Hself as (_ & v & Hv & ->). simpl. unfold braked in Hv.
  destruct (Z.ltb_spec (gap_ahead (heap w self) p_ahead road_len)
              (accelerated (heap w self))); repeat split; lia.
Qed.

Lemma Car_update_stays_behind_witness :
  ∃ w',
    Car_update 0%nat 1 10 Examples.jam = Ok (tt, w')
    ∧ vel (heap w' 0%nat) <= gap_ahead (heap Examples.jam 0%nat) 1 10
    ∧ posn (heap w' 0%nat)
      = (posn (heap Examples.jam 0%nat) + vel (heap w' 0%nat)) mod 10
    ∧ (vel (heap w' 0%nat) = gap_ahead (heap Examples.jam 0%nat) 1 10 →
       gap_ahead (heap Examples.jam 0%nat) 1 10
       = accelerated (heap Examples.jam 0%nat)).
Proof.
  eexists. split; [vm_compute; reflexivity |].
  apply (Car_update_stays_behind 0%nat 1 10 Examples.jam).
  - reflexivity.
  - vm_compute; reflexivity.
Defined.
